(** * NetPeek network scanner (src/scanner.py): embedding and properties

    The development follows the source file from the leaves up:
    - the Python runtime pieces the scanner relies on (strings, [int],
      [range], exceptions, [sorted]);
    - the parts of CPython's [ipaddress] module that the scanner calls;
    - class [NetworkScanner]: the range validator and parser, the per-host
      probe, the scan thread and the public entry points;
    - two interleaving models, in which the caller, the scan threads and
      the worker tasks take steps in any order: the scanner with one scan
      thread at a time, and the scanner with all the scan threads it has
      started; the second covers every interleaving, the first those in which
      a scan starts only after the thread of the previous one has returned.

    Strings are sequences of code points below 256 ([Stdlib.Strings.String]);
    Python integers are [Z]; an IPv4 address object is its 32-bit value. *)

From Stdlib Require Import String Ascii ZArith NArith List Lia Bool.
From Stdlib Require Import DecimalString DecimalZ DecimalN DecimalPos.
From Stdlib Require Import Sorted Permutation Zbitwise.
Import ListNotations.

#[local] Open Scope string_scope.
#[local] Open Scope Z_scope.

(** ** Exceptions and results *)

(** The exception classes the scanner meets.  [AddressValueError] and
    [NetmaskValueError] derive from [ValueError]. *)
Inductive exn_class : Type :=
| ValueError
| AddressValueError
| NetmaskValueError
| TypeError
| OSError
| RuntimeError.

(** An exception: its class and the text [str(e)] produces. *)
Record exn : Type := Exn { exn_cls : exn_class; exn_msg : string }.

(** What evaluating a Python expression yields. *)
Inductive outcome (A : Type) : Type :=
| Returns (a : A)
| Raises (e : exn).
Arguments Returns {A} a.
Arguments Raises {A} e.

Definition bind {A B : Type} (m : outcome A) (k : A -> outcome B) : outcome B :=
  match m with
  | Returns a => k a
  | Raises e => Raises e
  end.

Notation "x <- m ;; k" := (bind m (fun x => k))
  (at level 61, m at next level, right associativity).

(** [isinstance(e, c)] for the classes above. *)
Definition isinstance (e : exn) (c : exn_class) : bool :=
  match c, exn_cls e with
  | ValueError, (ValueError | AddressValueError | NetmaskValueError) => true
  | AddressValueError, AddressValueError => true
  | NetmaskValueError, NetmaskValueError => true
  | TypeError, TypeError => true
  | OSError, OSError => true
  | RuntimeError, RuntimeError => true
  | _, _ => false
  end.

(** [try: body  except c: handler] *)
Definition try_except {A : Type} (body : outcome A) (c : exn_class)
    (handler : exn -> outcome A) : outcome A :=
  match body with
  | Returns a => Returns a
  | Raises e => if isinstance e c then handler e else Raises e
  end.

(** [try: body  except: handler] (a bare [except] catches everything). *)
Definition try_except_all {A : Type} (body : outcome A)
    (handler : outcome A) : outcome A :=
  match body with
  | Returns a => Returns a
  | Raises _ => handler
  end.

Fixpoint mapM {A B : Type} (f : A -> outcome B) (l : list A) : outcome (list B) :=
  match l with
  | [] => Returns []
  | x :: l' => y <- f x ;; ys <- mapM f l' ;; Returns (y :: ys)
  end.

(** ** Strings *)

Definition code (c : ascii) : N := N_of_ascii c.

Definition chars (s : string) : list ascii := list_ascii_of_string s.

(** [c in s] for a one-character [c]. *)
Fixpoint contains (c : ascii) (s : string) : bool :=
  match s with
  | EmptyString => false
  | String d s' => Ascii.eqb d c || contains c s'
  end.

(** [s.split(sep)] for a one-character separator. *)
Fixpoint split (sep : ascii) (s : string) : list string :=
  match s with
  | EmptyString => [EmptyString]
  | String c s' =>
      if Ascii.eqb c sep then EmptyString :: split sep s'
      else match split sep s' with
           | hd :: tl => String c hd :: tl
           | [] => [String c EmptyString]
           end
  end.

(** Position-free form of [s.rsplit(sep, 1)]: the text before and after the
    last separator, when there is one. *)
Fixpoint rsplit_last (sep : ascii) (s : string) : option (string * string) :=
  match s with
  | EmptyString => None
  | String c s' =>
      match rsplit_last sep s' with
      | Some (l, r) => Some (String c l, r)
      | None => if Ascii.eqb c sep then Some (EmptyString, s') else None
      end
  end.

(** [s.rsplit(sep, 1)] *)
Definition rsplit1 (sep : ascii) (s : string) : list string :=
  match rsplit_last sep s with
  | Some (l, r) => [l; r]
  | None => [s]
  end.

(** [sep.join(parts)] *)
Fixpoint join (sep : string) (parts : list string) : string :=
  match parts with
  | [] => EmptyString
  | [p] => p
  | p :: rest => p ++ sep ++ join sep rest
  end.

(** [s.isascii()] *)
Definition isascii (s : string) : bool :=
  forallb (fun c => (code c <? 128)%N) (chars s).

Definition is_digit (c : ascii) : bool :=
  ((48 <=? code c) && (code c <=? 57))%N.

(** [s.isdigit()]: besides the ASCII digits, the code points below 256 with
    the digit property are the superscripts two, three and one. *)
Definition isdigit (s : string) : bool :=
  match s with
  | EmptyString => false
  | _ => forallb (fun c => is_digit c
                           || (code c =? 178)%N || (code c =? 179)%N
                           || (code c =? 185)%N) (chars s)
  end.

(** [str(i)] for an integer. *)
Definition str_int (i : Z) : string := NilEmpty.string_of_int (Z.to_int i).

Definition hex_digit (n : N) : ascii :=
  ascii_of_N (if (n <? 10)%N then 48 + n else 87 + n)%N.

(** [repr(s)] for a string. *)
Definition repr_char (quote : ascii) (c : ascii) : string :=
  let n := code c in
  if Ascii.eqb c quote || Ascii.eqb c "\"%char then String "\" (String c EmptyString)
  else if (n =? 9)%N then "\t"
  else if (n =? 10)%N then "\n"
  else if (n =? 13)%N then "\r"
  else if (n <? 32)%N || ((127 <=? n) && (n <=? 160))%N || (n =? 173)%N
       then String "\" (String "x" (String (hex_digit (n / 16)) (String (hex_digit (n mod 16)) EmptyString)))
  else String c EmptyString.

Definition double_quote : ascii := ascii_of_N 34.

Definition repr (s : string) : string :=
  let quote := if contains "'" s && negb (contains double_quote s)
               then double_quote else "'"%char in
  String quote (String.concat EmptyString (map (repr_char quote) (chars s)))
    ++ String quote EmptyString.

(** ** [int(s)] *)

(** White space [int] skips around the literal. *)
Definition int_space (c : ascii) : bool :=
  let n := code c in
  (((9 <=? n) && (n <=? 13)) || (n =? 32) || (n =? 133) || (n =? 160))%N.

Fixpoint lstrip (s : string) : string :=
  match s with
  | String c s' => if int_space c then lstrip s' else s
  | EmptyString => EmptyString
  end.

Definition take_sign (s : string) : bool * string :=
  match s with
  | String c s' =>
      if Ascii.eqb c "+" then (false, s')
      else if Ascii.eqb c "-" then (true, s')
      else (false, s)
  | EmptyString => (false, s)
  end.

(** Scan the digits of the literal, dropping single underscores between
    digits; [None] for a doubled or trailing underscore.  Returns the digits
    and the unread rest. *)
Fixpoint scan_digits (prev_underscore : bool) (s : string) : option (string * string) :=
  match s with
  | String c s' =>
      if is_digit c then
        match scan_digits false s' with
        | Some (ds, rest) => Some (String c ds, rest)
        | None => None
        end
      else if Ascii.eqb c "_" then
        if prev_underscore then None else scan_digits true s'
      else if prev_underscore then None else Some (EmptyString, s)
  | EmptyString => if prev_underscore then None else Some (EmptyString, EmptyString)
  end.

(** The interpreter's default limit on the number of digits of a decimal
    literal ([sys.get_int_max_str_digits()]). *)
Definition int_max_str_digits : nat := 4300.

Definition invalid_literal (s : string) : exn :=
  Exn ValueError ("invalid literal for int() with base 10: " ++ repr s).

Definition too_many_digits (n : nat) : exn :=
  Exn ValueError ("Exceeds the limit (4300 digits) for integer string conversion: value has "
                  ++ str_int (Z.of_nat n)
                  ++ " digits; use sys.set_int_max_str_digits() to increase the limit").

Definition int_of_digits (ds : string) : option Z :=
  option_map Z.of_uint (NilEmpty.uint_of_string ds).

(** [int(s)] for a string [s]. *)
Definition int (s : string) : outcome Z :=
  let (neg, body) := take_sign (lstrip s) in
  match body with
  | String c _ =>
      if Ascii.eqb c "_" then Raises (invalid_literal s)
      else
        match scan_digits false body with
        | None => Raises (invalid_literal s)
        | Some (ds, rest) =>
            if (int_max_str_digits <? String.length ds)%nat
            then Raises (too_many_digits (String.length ds))
            else
              match ds, lstrip rest, int_of_digits ds with
              | String _ _, EmptyString, Some v => Returns (if neg then - v else v)
              | _, _, _ => Raises (invalid_literal s)
              end
        end
  | EmptyString => Raises (invalid_literal s)
  end.

(** [range(a, b)] as a list. *)
Definition range (a b : Z) : list Z :=
  map (fun k => a + Z.of_nat k) (seq 0 (Z.to_nat (b - a))).

(** ** CPython's [ipaddress] module, IPv4 part

    An [IPv4Address] object is represented by its [_ip] integer.  The
    functions keep the names they have in [ipaddress.py]. *)

Definition IPV4LENGTH : Z := 32.
Definition _ALL_ONES : Z := 2 ^ IPV4LENGTH - 1.
Definition _max_prefixlen : Z := IPV4LENGTH.

(** [int.from_bytes(octets, 'big')] *)
Definition from_bytes_big (octets : list Z) : Z :=
  fold_left (fun acc b => acc * 256 + b) octets 0.

(** [n.to_bytes(4, 'big')] *)
Definition to_bytes4 (n : Z) : list Z :=
  [n / 16777216 mod 256; n / 65536 mod 256; n / 256 mod 256; n mod 256].

Definition _parse_octet (octet_str : string) : outcome Z :=
  match octet_str with
  | EmptyString => Raises (Exn ValueError "Empty octet not permitted")
  | String c0 _ =>
      if negb (isascii octet_str && isdigit octet_str) then
        Raises (Exn ValueError ("Only decimal digits permitted in " ++ repr octet_str))
      else if (3 <? String.length octet_str)%nat then
        Raises (Exn ValueError ("At most 3 characters permitted in " ++ repr octet_str))
      else if negb (String.eqb octet_str "0") && Ascii.eqb c0 "0" then
        Raises (Exn ValueError ("Leading zeros are not permitted in " ++ repr octet_str))
      else
        octet_int <- int octet_str ;;
        if 255 <? octet_int then
          Raises (Exn ValueError ("Octet " ++ str_int octet_int ++ " (> 255) not permitted"))
        else Returns octet_int
  end.

Definition _ip_int_from_string (ip_str : string) : outcome Z :=
  match ip_str with
  | EmptyString => Raises (Exn AddressValueError "Address cannot be empty")
  | _ =>
      let octets := split "." ip_str in
      if negb (length octets =? 4)%nat then
        Raises (Exn AddressValueError ("Expected 4 octets in " ++ repr ip_str))
      else
        try_except
          (bs <- mapM _parse_octet octets ;; Returns (from_bytes_big bs))
          ValueError
          (fun exc => Raises (Exn AddressValueError (exn_msg exc ++ " in " ++ repr ip_str)))
  end.

(** [IPv4Address(address)] for a string argument. *)
Definition IPv4Address (address : string) : outcome Z :=
  if contains "/" address then
    Raises (Exn AddressValueError ("Unexpected '/' in " ++ repr address))
  else _ip_int_from_string address.

Definition _string_from_ip_int (ip_int : Z) : string :=
  join "." (map str_int (to_bytes4 ip_int)).

(** [str(a)] for an [IPv4Address]. *)
Definition str_address (a : Z) : string := _string_from_ip_int a.

Definition _split_optional_netmask (address : string) : outcome (list string) :=
  let addr := split "/" address in
  if (2 <? length addr)%nat then
    Raises (Exn AddressValueError ("Only one '/' permitted in " ++ repr address))
  else Returns addr.

(** The mask handed to [_make_netmask]: the text after the slash, or the
    integer [_max_prefixlen] when there is no slash. *)
Inductive mask_arg : Type :=
| MaskStr (s : string)
| MaskInt (n : Z).

Definition _split_addr_prefix (address : string) : outcome (string * mask_arg) :=
  parts <- _split_optional_netmask address ;;
  match parts with
  | [a; m] => Returns (a, MaskStr m)
  | a :: _ => Returns (a, MaskInt _max_prefixlen)
  | [] => Returns (EmptyString, MaskInt _max_prefixlen)
  end.

Definition _report_invalid_netmask {A : Type} (netmask_str : string) : outcome A :=
  Raises (Exn NetmaskValueError (repr netmask_str ++ " is not a valid netmask")).

Definition _prefix_from_prefix_string (prefixlen_str : string) : outcome Z :=
  if negb (isascii prefixlen_str && isdigit prefixlen_str) then
    _report_invalid_netmask prefixlen_str
  else
    prefixlen <- try_except (int prefixlen_str) ValueError
                   (fun _ => _report_invalid_netmask prefixlen_str) ;;
    if negb ((0 <=? prefixlen) && (prefixlen <=? _max_prefixlen)) then
      _report_invalid_netmask prefixlen_str
    else Returns prefixlen.

(** [n.bit_length()] *)
Definition bit_length (n : Z) : Z :=
  if n =? 0 then 0 else Z.log2 (Z.abs n) + 1.

Definition _count_righthand_zero_bits (number bits : Z) : Z :=
  if number =? 0 then bits
  else Z.min bits (bit_length (Z.land (Z.lnot number) (number - 1))).

(** The [ValueError] of [_prefix_from_ip_int] never leaves the module (both
    call sites catch it), so the byte-string detail of its text is left out. *)
Definition _prefix_from_ip_int (ip_int : Z) : outcome Z :=
  let trailing_zeroes := _count_righthand_zero_bits ip_int _max_prefixlen in
  let prefixlen := _max_prefixlen - trailing_zeroes in
  let leading_ones := Z.shiftr ip_int trailing_zeroes in
  let all_ones := Z.shiftl 1 prefixlen - 1 in
  if negb (leading_ones =? all_ones) then
    Raises (Exn ValueError "Netmask pattern mixes zeroes & ones")
  else Returns prefixlen.

Definition _prefix_from_ip_string (ip_str : string) : outcome Z :=
  ip_int <- try_except (_ip_int_from_string ip_str) AddressValueError
              (fun _ => _report_invalid_netmask ip_str) ;;
  try_except (_prefix_from_ip_int ip_int) ValueError
    (fun _ =>
       let ip_int' := Z.lxor ip_int _ALL_ONES in
       try_except (_prefix_from_ip_int ip_int') ValueError
         (fun _ => _report_invalid_netmask ip_str)).

Definition _ip_int_from_prefix (prefixlen : Z) : Z :=
  Z.lxor _ALL_ONES (Z.shiftr _ALL_ONES prefixlen).

(** [_make_netmask(arg)]: the netmask and the prefix length.  (The cache of
    the original only memoises this function.) *)
Definition _make_netmask (arg : mask_arg) : outcome (Z * Z) :=
  prefixlen <-
    match arg with
    | MaskInt n =>
        if negb ((0 <=? n) && (n <=? _max_prefixlen)) then
          _report_invalid_netmask (str_int n)
        else Returns n
    | MaskStr s =>
        try_except (_prefix_from_prefix_string s) NetmaskValueError
          (fun _ => _prefix_from_ip_string s)
    end ;;
  Returns (_ip_int_from_prefix prefixlen, prefixlen).

(** An [IPv4Network] object.  [net_addr] is the address text the
    constructor was given: the [hosts] override of a /32 network closes over
    it. *)
Record IPv4Network_obj : Type := {
  net_addr : string;
  network_address : Z;
  netmask : Z;
  _prefixlen : Z
}.

Definition with_prefixlen (na pl : Z) : string :=
  _string_from_ip_int na ++ "/" ++ str_int pl.

(** [IPv4Network(address, strict)] for a string argument. *)
Definition IPv4Network (address : string) (strict : bool) : outcome IPv4Network_obj :=
  am <- _split_addr_prefix address ;;
  let (addr, mask) := am in
  packed <- IPv4Address addr ;;
  np <- _make_netmask mask ;;
  let (nm, pl) := np in
  if negb (Z.land packed nm =? packed) then
    if strict then
      Raises (Exn ValueError (with_prefixlen packed pl ++ " has host bits set"))
    else
      Returns {| net_addr := addr; network_address := Z.land packed nm;
                 netmask := nm; _prefixlen := pl |}
  else
    Returns {| net_addr := addr; network_address := packed;
               netmask := nm; _prefixlen := pl |}.

Definition hostmask (n : IPv4Network_obj) : Z := Z.lxor (netmask n) _ALL_ONES.

Definition broadcast_address (n : IPv4Network_obj) : Z :=
  Z.lor (network_address n) (hostmask n).

(** [str(n)] for a network. *)
Definition str_network (n : IPv4Network_obj) : string :=
  with_prefixlen (network_address n) (_prefixlen n).

(** [list(n.hosts())].  The constructor replaces [hosts] by [__iter__] for a
    /31 network and by the one-element list of the given address for a /32
    network. *)
Definition hosts (n : IPv4Network_obj) : outcome (list Z) :=
  if _prefixlen n =? _max_prefixlen - 1 then
    Returns (range (network_address n) (broadcast_address n + 1))
  else if _prefixlen n =? _max_prefixlen then
    a <- IPv4Address (net_addr n) ;; Returns [a]
  else
    Returns (range (network_address n + 1) (broadcast_address n)).

(** [ipaddress.ip_network(address, strict)].  Only the IPv4 attempt is
    modelled: where [IPv4Network] rejects the text, the original goes on to
    try [IPv6Network] before raising, and here that second attempt always
    fails.  The two agree on every text [IPv4Network] accepts; statements
    about scans are made for such expressions, see [ipv4_expression]. *)
Definition ip_network (address : string) (strict : bool) : outcome IPv4Network_obj :=
  match IPv4Network address strict with
  | Returns n => Returns n
  | Raises e =>
      if isinstance e AddressValueError || isinstance e NetmaskValueError then
        Raises (Exn ValueError (repr address ++ " does not appear to be an IPv4 or IPv6 network"))
      else Raises e
  end.

(** ** [sorted(l, key=...)] *)

(** Insert a decorated element in front of the first element whose key is
    not smaller: the sort is stable. *)
Fixpoint insert_keyed {A : Type} (x : Z * A) (l : list (Z * A)) : list (Z * A) :=
  match l with
  | [] => [x]
  | y :: l' => if fst x <=? fst y then x :: y :: l' else y :: insert_keyed x l'
  end.

Definition sort_keyed {A : Type} (l : list (Z * A)) : list (Z * A) :=
  fold_right insert_keyed [] l.

(** [sorted(l, key=key)]: every key is computed first (the first failure is
    raised), then the elements are sorted by key, stably. *)
Definition sorted {A : Type} (key : A -> outcome Z) (l : list A) : outcome (list A) :=
  keys <- mapM key l ;;
  Returns (map snd (sort_keyed (combine keys l))).

(** ** class [NetworkScanner] *)

(** [_()]: the message catalogue lookup; with no catalogue installed it
    returns its argument. *)
Definition gettext (msgid : string) : string := msgid.

(** [a, b = parts] *)
Definition unpack2 (parts : list string) : outcome (string * string) :=
  match parts with
  | [a; b] => Returns (a, b)
  | _ :: _ :: _ :: _ => Raises (Exn ValueError "too many values to unpack (expected 2)")
  | _ => Raises (Exn ValueError
                   ("not enough values to unpack (expected 2, got "
                    ++ str_int (Z.of_nat (length parts)) ++ ")"))
  end.

Definition validate_ip_range (ip_range : string) : bool * string :=
  match ip_range with
  | EmptyString => (false, gettext "Please enter an IP range")
  | _ =>
      match
        (if contains "/" ip_range then
           _ <- ip_network ip_range false ;; Returns tt
         else if contains "-" ip_range then
           br <- unpack2 (rsplit1 "-" ip_range) ;;
           let (base_ip, range_part) := br in
           let base_parts := split "." base_ip in
           if (length base_parts =? 4)%nat then
             _ <- IPv4Address base_ip ;; _ <- int range_part ;; Returns tt
           else if (length base_parts =? 3)%nat then
             _ <- IPv4Address (base_ip ++ ".1") ;; _ <- int range_part ;; Returns tt
           else Raises (Exn ValueError (gettext "Invalid range format!"))
         else
           _ <- IPv4Address ip_range ;; Returns tt)
      with
      | Returns _ => (true, gettext "Valid IP range")
      | Raises e => (false, gettext "Invalid IP range: " ++ exn_msg e)
      end
  end.

Definition parse_ip_range (ip_range : string) : outcome (list Z) :=
  if contains "/" ip_range then
    net <- ip_network ip_range false ;;
    hosts net
  else if contains "-" ip_range then
    br <- unpack2 (rsplit1 "-" ip_range) ;;
    let (base_ip, range_part) := br in
    let base_parts := split "." base_ip in
    bounds <-
      (if (length base_parts =? 4)%nat then
         start_ip <- int (nth 3 base_parts EmptyString) ;;
         end_ip <- int range_part ;;
         Returns (join "." (firstn 3 base_parts), start_ip, end_ip)
       else if (length base_parts =? 3)%nat then
         end_ip <- int range_part ;;
         Returns (base_ip, 1, end_ip)
       else Raises (Exn ValueError (gettext "Invalid range format!"))) ;;
    let '(base_network, start_ip, end_ip) := bounds in
    mapM (fun i => IPv4Address (base_network ++ "." ++ str_int i))
         (range start_ip (end_ip + 1))
  else
    a <- IPv4Address ip_range ;; Returns [a].

(** [get_local_ip_range]: the two resolver calls are the environment's. *)
Definition get_local_ip_range (gethostname : outcome string)
    (gethostbyname : string -> outcome string) : outcome string :=
  hostname <- gethostname ;;
  local_ip <- gethostbyname hostname ;;
  network <- IPv4Network (local_ip ++ "/24") false ;;
  Returns (str_network network).

(** The helper is declared in the class body with no parameter and without
    [staticmethod].  Looked up on the class it is a plain function; looked up
    on an instance it is a bound method, and the call passes the instance to
    a function that takes nothing. *)
Inductive receiver : Type :=
| on_class
| on_instance.

Definition call_get_local_ip_range (r : receiver) (gethostname : outcome string)
    (gethostbyname : string -> outcome string) : outcome string :=
  match r with
  | on_class => get_local_ip_range gethostname gethostbyname
  | on_instance =>
      Raises (Exn TypeError
        "NetworkScanner.get_local_ip_range() takes 0 positional arguments but 1 was given")
  end.

(** A device dictionary. *)
Record device : Type := {
  hostname : string;
  ip : string;
  ports : string
}.

(** The instance attributes ([common_ports] is constant). *)
Record NetworkScanner : Type := {
  is_scanning : bool;
  hosts_scanned : Z;
  total_hosts : Z;
  partial_results : list device
}.

Definition common_ports : list Z := [22; 80; 443; 3389; 53; 21; 23; 8080; 8443; 8006; 5000].

(** [__init__] *)
Definition init : NetworkScanner :=
  {| is_scanning := false; hosts_scanned := 0; total_hosts := 0; partial_results := [] |}.

Definition set_is_scanning (b : bool) (s : NetworkScanner) : NetworkScanner :=
  {| is_scanning := b; hosts_scanned := hosts_scanned s;
     total_hosts := total_hosts s; partial_results := partial_results s |}.

Definition set_hosts_scanned (n : Z) (s : NetworkScanner) : NetworkScanner :=
  {| is_scanning := is_scanning s; hosts_scanned := n;
     total_hosts := total_hosts s; partial_results := partial_results s |}.

Definition set_total_hosts (n : Z) (s : NetworkScanner) : NetworkScanner :=
  {| is_scanning := is_scanning s; hosts_scanned := hosts_scanned s;
     total_hosts := n; partial_results := partial_results s |}.

Definition set_partial_results (l : list device) (s : NetworkScanner) : NetworkScanner :=
  {| is_scanning := is_scanning s; hosts_scanned := hosts_scanned s;
     total_hosts := total_hosts s; partial_results := l |}.

Definition stop_scan (s : NetworkScanner) : NetworkScanner :=
  set_is_scanning false s.

(** The sort key of both result lists: [ipaddress.IPv4Address(x['ip'])]. *)
Definition ip_key (x : device) : outcome Z := IPv4Address (ip x).

Definition get_partial_results (s : NetworkScanner) : outcome (list device) :=
  sorted ip_key (partial_results s).

(** What the network answers at one step of a task, and what the runtime
    does at one step of the scan thread. *)
Record env : Type := {
  connect_ex : string -> Z -> outcome Z;
  ping : string -> outcome bool;
  gethostbyaddr : string -> outcome string;
  fault : option exn
}.

Definition is_port_open (e : env) (ip_str : string) (port : Z) : outcome bool :=
  try_except_all (c <- connect_ex e ip_str port ;; Returns (c =? 0)) (Returns false).

(** Callbacks handed to [GLib.idle_add], in the order they are queued. *)
Inductive event : Type :=
| Progress (scanned total : Z)
| Complete (devices : list device)
| Error (message : string).

(** Program points of [scan_single_ip]. *)
Inductive worker_pc : Type :=
| W_pending
| W_entry
| W_ports (rest : list Z) (alive : bool) (open_ports : list Z)
| W_fallback (alive : bool) (open_ports : list Z)
| W_guard (alive : bool) (open_ports : list Z)
| W_resolve (open_ports : list Z)
| W_record (host_name : string) (open_ports : list Z)
| W_count
| W_finished
| W_stopped
| W_raised (e : exn)
| W_cancelled.

Definition ports_text (open_ports : list Z) : string :=
  match open_ports with
  | [] => gettext "Host alive (no open ports detected)"
  | _ => join ", " (map str_int open_ports)
  end.

(** The fallback liveness check of lines 87-96. *)
Definition fallback_alive (e : env) (ip_str : string) (alive : bool) : outcome bool :=
  try_except_all
    (c <- connect_ex e ip_str 80 ;;
     if c =? 0 then Returns true
     else p <- ping e ip_str ;; Returns (if p then true else alive))
    (Returns alive).

(** Lines 99-103. *)
Definition resolve_hostname (e : env) (ip_str : string) : outcome string :=
  try_except_all (gethostbyaddr e ip_str) (Returns ip_str).

(** One step of [scan_single_ip(ip_str, lock, devices, progress_callback)]
    from program point [pc]: the next program point and the new values of
    the scanner attributes, of [devices] and of the callback queue. *)
Definition scan_single_ip (e : env) (progress_callback : bool)
    (self : NetworkScanner) (devices : list device) (queue : list event)
    (ip_str : string) (pc : worker_pc)
  : option (worker_pc * NetworkScanner * list device * list event) :=
  match pc with
  | W_entry =>
      if negb (is_scanning self) then Some (W_stopped, self, devices, queue)
      else Some (W_ports common_ports false [], self, devices, queue)
  | W_ports [] alive open_ports =>
      Some (W_fallback alive open_ports, self, devices, queue)
  | W_ports (port :: rest) alive open_ports =>
      if negb (is_scanning self) then Some (W_stopped, self, devices, queue)
      else
        match is_port_open e ip_str port with
        | Returns true => Some (W_ports rest true (open_ports ++ [port])%list, self, devices, queue)
        | Returns false => Some (W_ports rest alive open_ports, self, devices, queue)
        | Raises x => Some (W_raised x, self, devices, queue)
        end
  | W_fallback alive open_ports =>
      if negb alive && is_scanning self then
        match fallback_alive e ip_str alive with
        | Returns a => Some (W_guard a open_ports, self, devices, queue)
        | Raises x => Some (W_raised x, self, devices, queue)
        end
      else Some (W_guard alive open_ports, self, devices, queue)
  | W_guard alive open_ports =>
      if alive && is_scanning self then Some (W_resolve open_ports, self, devices, queue)
      else Some (W_count, self, devices, queue)
  | W_resolve open_ports =>
      match resolve_hostname e ip_str with
      | Returns h => Some (W_record h open_ports, self, devices, queue)
      | Raises x => Some (W_raised x, self, devices, queue)
      end
  | W_record h open_ports =>
      let device := {| hostname := h; ip := ip_str; ports := ports_text open_ports |} in
      Some (W_count,
            set_partial_results (partial_results self ++ [device])%list self,
            (devices ++ [device])%list, queue)
  | W_count =>
      let self' := set_hosts_scanned (hosts_scanned self + 1) self in
      Some (W_finished, self', devices,
            if progress_callback
            then (queue ++ [Progress (hosts_scanned self') (total_hosts self')])%list
            else queue)
  | W_pending | W_finished | W_stopped | W_raised _ | W_cancelled => None
  end.

(** A task submitted to the pool: its argument and where it stands. *)
Record worker : Type := { w_ip : string; w_pc : worker_pc }.

(** Program points of [do_scan], named after the statement about to run. *)
Inductive coord_pc : Type :=
| C_start                          (* line 152: self.is_scanning = True *)
| C_clear                          (* line 153: self.partial_results = [] *)
| C_reset                          (* line 154: self.hosts_scanned = 0 *)
| C_parse                          (* lines 156-159: hosts = parse_ip_range(..) *)
| C_total (hosts : list Z)         (* line 160 *)
| C_progress0 (hosts : list Z)     (* lines 163-166: first progress, pool *)
| C_submit (rest : list Z)         (* lines 168-172: head of the submit loop *)
| C_wait (k : nat)                 (* lines 175-184: head of the wait loop *)
| C_shutdown (pending : option exn) (* leaving the [with] block *)
| C_final                          (* line 187 *)
| C_complete1                      (* line 188 *)
| C_complete2                      (* lines 189-190 *)
| C_except (e : exn)               (* line 193 *)
| C_report (e : exn)               (* line 194 *)
| C_exit.

(** The thread started by [scan_network]: the arguments [do_scan] closes
    over ([progress_callback] is present or [None]), its locals and the
    callbacks it and its tasks have queued. *)
Record scan_thread : Type := {
  t_ip_range : string;
  t_progress : bool;
  t_pc : coord_pc;
  t_devices : list device;
  t_futures : list worker;
  t_queue : list event
}.

Definition with_pc (pc : coord_pc) (t : scan_thread) : scan_thread :=
  {| t_ip_range := t_ip_range t; t_progress := t_progress t; t_pc := pc;
     t_devices := t_devices t; t_futures := t_futures t; t_queue := t_queue t |}.

Definition with_futures (ws : list worker) (t : scan_thread) : scan_thread :=
  {| t_ip_range := t_ip_range t; t_progress := t_progress t; t_pc := t_pc t;
     t_devices := t_devices t; t_futures := ws; t_queue := t_queue t |}.

Definition with_queue (q : list event) (t : scan_thread) : scan_thread :=
  {| t_ip_range := t_ip_range t; t_progress := t_progress t; t_pc := t_pc t;
     t_devices := t_devices t; t_futures := t_futures t; t_queue := q |}.

Definition max_workers : nat := 100.

(** A future that is neither running nor waiting to run. *)
Definition settled (pc : worker_pc) : bool :=
  match pc with
  | W_finished | W_stopped | W_raised _ | W_cancelled => true
  | _ => false
  end.

Definition running (pc : worker_pc) : bool :=
  match pc with
  | W_pending => false
  | _ => negb (settled pc)
  end.

(** [future.cancel()]: only a future that has not started is cancelled. *)
Definition cancel (w : worker) : worker :=
  match w_pc w with
  | W_pending => {| w_ip := w_ip w; w_pc := W_cancelled |}
  | _ => w
  end.

(** One step of [do_scan] from its current program point.  [None]: the
    thread has returned, or waits for its tasks. *)
Definition do_scan (e : env) (self : NetworkScanner) (t : scan_thread)
  : option (NetworkScanner * scan_thread) :=
  match t_pc t with
  | C_start => Some (set_is_scanning true self, with_pc C_clear t)
  | C_clear => Some (set_partial_results [] self, with_pc C_reset t)
  | C_reset => Some (set_hosts_scanned 0 self, with_pc C_parse t)
  | C_parse =>
      match parse_ip_range (t_ip_range t) with
      | Returns hosts => Some (self, with_pc (C_total hosts) t)
      | Raises x => Some (self, with_pc (C_except x) t)
      end
  | C_total hosts =>
      Some (set_total_hosts (Z.of_nat (length hosts)) self, with_pc (C_progress0 hosts) t)
  | C_progress0 hosts =>
      match fault e with
      | Some x => Some (self, with_pc (C_except x) t)
      | None =>
          Some (self,
                with_pc (C_submit hosts)
                  (if t_progress t
                   then with_queue (t_queue t ++ [Progress 0 (total_hosts self)])%list t
                   else t))
      end
  | C_submit [] => Some (self, with_pc (C_wait 0) t)
  | C_submit (host :: rest) =>
      if negb (is_scanning self) then Some (self, with_pc (C_wait 0) t)
      else
        match fault e with
        | Some x => Some (self, with_pc (C_shutdown (Some x)) t)
        | None =>
            Some (self,
                  with_pc (C_submit rest)
                    (with_futures
                       (t_futures t ++ [{| w_ip := str_address host; w_pc := W_pending |}])%list
                       t))
        end
  | C_wait k =>
      if (k <? length (t_futures t))%nat then
        if negb (is_scanning self) then
          Some (self, with_pc (C_shutdown None) (with_futures (map cancel (t_futures t)) t))
        else Some (self, with_pc (C_wait (S k)) t)
      else Some (self, with_pc (C_shutdown None) t)
  | C_shutdown pending =>
      if forallb (fun w => settled (w_pc w)) (t_futures t) then
        match pending with
        | Some x => Some (self, with_pc (C_except x) t)
        | None => Some (self, with_pc C_final t)
        end
      else None
  | C_final =>
      if is_scanning self then Some (self, with_pc C_complete1 t)
      else Some (self, with_pc C_exit t)
  | C_complete1 => Some (set_is_scanning false self, with_pc C_complete2 t)
  | C_complete2 =>
      match fault e with
      | Some x => Some (self, with_pc (C_except x) t)
      | None =>
          match sorted ip_key (t_devices t) with
          | Returns devices_sorted =>
              Some (self,
                    with_pc C_exit
                      (with_queue (t_queue t ++ [Complete devices_sorted])%list t))
          | Raises x => Some (self, with_pc (C_except x) t)
          end
      end
  | C_except x => Some (set_is_scanning false self, with_pc (C_report x) t)
  | C_report x =>
      Some (self,
            with_pc C_exit
              (with_queue (t_queue t ++ [Error (gettext "Scan failed: " ++ exn_msg x)])%list t))
  | C_exit => None
  end.

(** ** One scanner and its scan thread

    The scanner with one scan thread at a time: the scanner object, and the
    thread of the latest [scan_network] call that started one.  This is the
    scanner as long as no scan is started while the thread of an earlier one
    is still alive; the scanner with all its threads follows below. *)
Record system : Type := {
  self : NetworkScanner;
  thread : option scan_thread
}.

Definition boot : system := {| self := init; thread := None |}.

Definition new_thread (ip_range : string) (progress_callback : bool) : scan_thread :=
  {| t_ip_range := ip_range; t_progress := progress_callback; t_pc := C_start;
     t_devices := []; t_futures := []; t_queue := [] |}.

Definition returned (t : option scan_thread) : bool :=
  match t with
  | None => true
  | Some t => match t_pc t with C_exit => true | _ => false end
  end.

(** [scan_network] when at most one scan thread is alive.  A call that
    finds the flag clear while the previous scan thread has not returned
    starts a second thread next to it: that is not an action of the scanner
    with one thread ([None]), see [scan_network] below. *)
Definition scan_network_alone (ip_range : string) (progress_callback : bool) (st : system)
  : option system :=
  if negb (is_scanning (self st)) then
    if returned (thread st) then
      Some {| self := self st; thread := Some (new_thread ip_range progress_callback) |}
    else None
  else Some st.

Fixpoint set_nth {A : Type} (i : nat) (x : A) (l : list A) : list A :=
  match l, i with
  | [], _ => []
  | _ :: l', O => x :: l'
  | y :: l', S i' => y :: set_nth i' x l'
  end.

Definition count_running (ws : list worker) : nat :=
  length (filter (fun w => running (w_pc w)) ws).

(** What can happen next: a call from the user interface, a step of the
    scan thread, or a step of the [i]-th submitted task. *)
Inductive action : Type :=
| call_scan_network (ip_range : string) (progress_callback : bool)
| call_stop_scan
| step_thread (e : env)
| step_worker (i : nat) (e : env).

Definition step (a : action) (st : system) : option system :=
  match a with
  | call_scan_network ip_range progress_callback =>
      scan_network_alone ip_range progress_callback st
  | call_stop_scan =>
      Some {| self := stop_scan (self st); thread := thread st |}
  | step_thread e =>
      match thread st with
      | Some t =>
          match do_scan e (self st) t with
          | Some (self', t') => Some {| self := self'; thread := Some t' |}
          | None => None
          end
      | None => None
      end
  | step_worker i e =>
      match thread st with
      | Some t =>
          match nth_error (t_futures t) i with
          | Some w =>
              match w_pc w with
              | W_pending =>
                  (* a pool thread picks the task up *)
                  if (count_running (t_futures t) <? max_workers)%nat then
                    Some {| self := self st;
                            thread := Some (with_futures
                                              (set_nth i {| w_ip := w_ip w; w_pc := W_entry |}
                                                       (t_futures t)) t) |}
                  else None
              | pc =>
                  match scan_single_ip e (t_progress t) (self st) (t_devices t)
                                       (t_queue t) (w_ip w) pc with
                  | Some (pc', self', devices', queue') =>
                      Some {| self := self';
                              thread := Some {| t_ip_range := t_ip_range t;
                                                t_progress := t_progress t;
                                                t_pc := t_pc t;
                                                t_devices := devices';
                                                t_futures := set_nth i {| w_ip := w_ip w; w_pc := pc' |}
                                                                     (t_futures t);
                                                t_queue := queue' |} |}
                  | None => None
                  end
              end
          | None => None
          end
      | None => None
      end
  end.

(** Run a schedule; [None] when some action of it is not possible. *)
Fixpoint run (sched : list action) (st : system) : option system :=
  match sched with
  | [] => Some st
  | a :: sched' =>
      match step a st with
      | Some st' => run sched' st'
      | None => None
      end
  end.

Definition reachable (st : system) : Prop :=
  exists sched, run sched boot = Some st.

(** ** One scanner and all its scan threads

    [scan_network] starts a thread whenever it finds the running flag clear,
    also while the thread of an earlier scan is still alive.  The threads
    share the scanner's attributes; each has its own device list, lock,
    executor, tasks and callbacks.  The steps are those of the scanner with
    one thread: the append of lines 111-113 and the count of lines 116-119
    are one step each, as under the lock of the scan.  Tasks of different
    scans hold different locks, so between them the update of the counter
    could interleave more finely than these steps do; no statement made
    below for every play depends on the value of the counter. *)
Record world : Type := {
  scanner : NetworkScanner;
  threads : list scan_thread
}.

Definition fresh : world := {| scanner := init; threads := [] |}.

(** [scan_network(ip_range, callback, error_callback, progress_callback)]:
    lines 196-197. *)
Definition scan_network (ip_range : string) (progress_callback : bool) (w : world)
  : world :=
  if negb (is_scanning (scanner w)) then
    {| scanner := scanner w;
       threads := (threads w ++ [new_thread ip_range progress_callback])%list |}
  else w.

(** One step of the [i]-th task of a scan thread: a pool thread picks the
    task up, or the task runs on. *)
Definition run_task (e : env) (self : NetworkScanner) (t : scan_thread) (i : nat)
  : option (NetworkScanner * scan_thread) :=
  match nth_error (t_futures t) i with
  | Some w =>
      match w_pc w with
      | W_pending =>
          if (count_running (t_futures t) <? max_workers)%nat then
            Some (self,
                  with_futures (set_nth i {| w_ip := w_ip w; w_pc := W_entry |}
                                        (t_futures t)) t)
          else None
      | pc =>
          match scan_single_ip e (t_progress t) self (t_devices t) (t_queue t)
                               (w_ip w) pc with
          | Some (pc', self', devices', queue') =>
              Some (self',
                    {| t_ip_range := t_ip_range t;
                       t_progress := t_progress t;
                       t_pc := t_pc t;
                       t_devices := devices';
                       t_futures := set_nth i {| w_ip := w_ip w; w_pc := pc' |}
                                            (t_futures t);
                       t_queue := queue' |})
          | None => None
          end
      end
  | None => None
  end.

(** What can happen next: a call from the user interface, a step of the
    [j]-th scan thread, or a step of the [i]-th task of the [j]-th thread. *)
Inductive move : Type :=
| user_scan_network (ip_range : string) (progress_callback : bool)
| user_stop_scan
| thread_step (j : nat) (e : env)
| task_step (j i : nat) (e : env).

Definition act (m : move) (w : world) : option world :=
  match m with
  | user_scan_network ip_range progress_callback =>
      Some (scan_network ip_range progress_callback w)
  | user_stop_scan =>
      Some {| scanner := stop_scan (scanner w); threads := threads w |}
  | thread_step j e =>
      match nth_error (threads w) j with
      | Some t =>
          match do_scan e (scanner w) t with
          | Some (self', t') =>
              Some {| scanner := self'; threads := set_nth j t' (threads w) |}
          | None => None
          end
      | None => None
      end
  | task_step j i e =>
      match nth_error (threads w) j with
      | Some t =>
          match run_task e (scanner w) t i with
          | Some (self', t') =>
              Some {| scanner := self'; threads := set_nth j t' (threads w) |}
          | None => None
          end
      | None => None
      end
  end.

(** Play a list of moves; [None] when one of them is not possible. *)
Fixpoint play (ms : list move) (w : world) : option world :=
  match ms with
  | [] => Some w
  | m :: ms' =>
      match act m w with
      | Some w' => play ms' w'
      | None => None
      end
  end.

(** The thread of the latest scan that started. *)
Definition current (w : world) : option scan_thread :=
  match rev (threads w) with
  | t :: _ => Some t
  | [] => None
  end.

(** ** Vocabulary of the statements *)

Definition all_digits (s : string) : bool := forallb is_digit (chars s).

Definition octet (z : Z) : Prop := 0 <= z <= 255.

(** Dotted decimal text of a list of integers. *)
Definition dotted (parts : list Z) : string := join "." (map str_int parts).

(** The address with the four given octets. *)
Definition addr4 (a b c d : Z) : Z := ((a * 256 + b) * 256 + c) * 256 + d.

(** The range expressions [a.b.c.s-e] and [a.b.c-e]. *)
Definition range4_expr (a b c s e : Z) : string :=
  dotted [a; b; c; s] ++ "-" ++ str_int e.

Definition range3_expr (a b c e : Z) : string :=
  dotted [a; b; c] ++ "-" ++ str_int e.

Definition raises {A : Type} (o : outcome A) : Prop := exists x, o = Raises x.

(** Values an [IPv4Address] object can hold. *)
Definition address (a : Z) : Prop := 0 <= a < 2 ^ 32.

(** [a in n] for an address [a] and a network [n] ([__contains__]). *)
Definition in_network (n : IPv4Network_obj) (a : Z) : bool :=
  Z.land a (netmask n) =? network_address n.


(** *** Vocabulary for the interleaving model *)

Definition before_submit (pc : coord_pc) : bool :=
  match pc with
  | C_start | C_clear | C_reset | C_parse | C_total _ | C_progress0 _ => true
  | _ => false
  end.

Definition after_shutdown (pc : coord_pc) : bool :=
  match pc with
  | C_final | C_complete1 | C_complete2 | C_except _ | C_report _ | C_exit => true
  | _ => false
  end.

(** The hosts the submit loop has still to go through. *)
Definition rest_hosts (pc : coord_pc) : list Z :=
  match pc with
  | C_total h | C_progress0 h | C_submit h => h
  | _ => []
  end.

Definition finished (w : worker) : bool :=
  match w_pc w with W_finished => true | _ => false end.

Definition count_finished (ws : list worker) : Z :=
  Z.of_nat (length (filter finished ws)).

(** A task that may still append a device. *)
Definition unrecorded (w : worker) : bool :=
  match w_pc w with
  | W_pending | W_entry | W_ports _ _ _ | W_fallback _ _ | W_guard _ _
  | W_resolve _ | W_record _ _ => true
  | _ => false
  end.


Definition is_complete (ev : event) : bool :=
  match ev with Complete _ => true | _ => false end.

Definition is_error (ev : event) : bool :=
  match ev with Error _ => true | _ => false end.

Definition is_final (ev : event) : bool := is_complete ev || is_error ev.

(** The [scanned] arguments of the progress callbacks, in queue order. *)
Definition progress_values (q : list event) : list Z :=
  flat_map (fun ev => match ev with Progress n _ => [n] | _ => [] end) q.

(** The text of an address. *)
Definition ok_ip (s : string) : Prop := exists a, address a /\ s = str_address a.

(** Numeric IP of a device, when its [ip] text is an address. *)
Definition numeric_ip (d : device) (a : Z) : Prop := ip_key d = Returns a.

(** [l] is ordered by numeric IP: the device at position [i] comes before the
    one at position [j] exactly when its numeric IP is smaller. *)
Definition ip_ordered (l : list device) : Prop :=
  forall i j da db a b,
    nth_error l i = Some da -> nth_error l j = Some db ->
    numeric_ip da a -> numeric_ip db b ->
    ((i < j)%nat <-> a < b).

Inductive subseq {A : Type} : list A -> list A -> Prop :=
| subseq_nil : subseq [] []
| subseq_skip x l1 l2 : subseq l1 l2 -> subseq l1 (x :: l2)
| subseq_take x l1 l2 : subseq l1 l2 -> subseq (x :: l1) (x :: l2).

(** The moves of a task that touch nothing shared; [flag] is the running
    flag the task reads. *)
Inductive worker_move (flag : bool) : worker_pc -> worker_pc -> Prop :=
| wm_entry_stop :
    flag = false -> worker_move flag W_entry W_stopped
| wm_entry_go :
    flag = true -> worker_move flag W_entry (W_ports common_ports false [])
| wm_ports_done alive open_ports :
    worker_move flag (W_ports [] alive open_ports) (W_fallback alive open_ports)
| wm_ports_stop p rest alive open_ports :
    flag = false -> worker_move flag (W_ports (p :: rest) alive open_ports) W_stopped
| wm_ports_open p rest alive open_ports :
    flag = true ->
    worker_move flag (W_ports (p :: rest) alive open_ports)
                     (W_ports rest true (open_ports ++ [p])%list)
| wm_ports_closed p rest alive open_ports :
    flag = true ->
    worker_move flag (W_ports (p :: rest) alive open_ports)
                     (W_ports rest alive open_ports)
| wm_fallback alive alive' open_ports :
    (alive = true -> alive' = true) ->
    worker_move flag (W_fallback alive open_ports) (W_guard alive' open_ports)
| wm_guard_resolve open_ports :
    flag = true -> worker_move flag (W_guard true open_ports) (W_resolve open_ports)
| wm_guard_skip alive open_ports :
    alive && flag = false -> worker_move flag (W_guard alive open_ports) W_count
| wm_resolve open_ports h :
    worker_move flag (W_resolve open_ports) (W_record h open_ports).

(** The scan thread with new values for what its tasks change. *)
Definition upd_thread (t : scan_thread) (devs : list device) (ws : list worker)
    (q : list event) : scan_thread :=
  {| t_ip_range := t_ip_range t; t_progress := t_progress t; t_pc := t_pc t;
     t_devices := devs; t_futures := ws; t_queue := q |}.

Definition at_pc (w : worker) (pc : worker_pc) : worker :=
  {| w_ip := w_ip w; w_pc := pc |}.

Definition no_start (a : action) : bool :=
  match a with call_scan_network _ _ => false | _ => true end.

(** Structure of a scan: before the submit loop nothing has been submitted,
    collected or queued; once the pool is shut down every task is settled;
    after the resets the accumulator is the scan's device list and the
    counter counts the tasks that ran to their end. *)
Definition wf (st : system) : Prop :=
  match thread st with
  | None => True
  | Some t =>
      (before_submit (t_pc t) = true ->
       t_futures t = [] /\ t_devices t = [] /\ t_queue t = []) /\
      (after_shutdown (t_pc t) = true ->
       Forall (fun w => settled (w_pc w) = true) (t_futures t)) /\
      (match t_pc t with C_start | C_clear => True
       | _ => partial_results (self st) = t_devices t end) /\
      (match t_pc t with C_start | C_clear | C_reset => True
       | _ => hosts_scanned (self st) = count_finished (t_futures t) end) /\
      Forall (fun w => forall x, w_pc w <> W_raised x) (t_futures t)
  end.

(** Completion and error callbacks: none is queued before the scan thread
    returns and at most one when it does; once one is queued the running
    flag is clear; and tasks exist only for a range that parsed. *)
Definition final_inv (st : system) : Prop :=
  match thread st with
  | None => True
  | Some t =>
      (length (filter is_final (t_queue t))
       <= match t_pc t with C_exit => 1 | _ => 0 end)%nat /\
      (match t_pc t with
       | C_complete2 | C_report _ => True
       | _ => filter is_final (t_queue t) <> []
       end -> is_scanning (self st) = false) /\
      (t_futures t <> [] \/
       match t_pc t with
       | C_total _ | C_progress0 _ | C_submit _ => True
       | _ => False
       end -> exists hosts, parse_ip_range (t_ip_range t) = Returns hosts)
  end.

Definition mid_scan (pc : coord_pc) : bool :=
  match pc with
  | C_submit _ | C_wait _ | C_shutdown _ | C_final | C_complete1 | C_complete2 => true
  | _ => false
  end.

(** A task that was neither stopped early nor cancelled. *)
Definition undisturbed (w : worker) : Prop :=
  w_pc w <> W_stopped /\ w_pc w <> W_cancelled.

Definition has_complete (q : list event) : Prop := exists ds, In (Complete ds) q.

(** Progress of a scan: the progress callbacks count 0, 1, 2, ... up to the
    scanned-count and all carry the total; while the flag has stayed set
    every host was submitted and no task was stopped or cancelled. *)
Definition progress_inv (st : system) : Prop :=
  match thread st with
  | None => True
  | Some t =>
      let s := self st in
      let q := t_queue t in
      (t_progress t = false -> progress_values q = []) /\
      (t_progress t = true ->
       (progress_values q = [] /\ t_futures t = []) \/
       progress_values q = range 0 (hosts_scanned s + 1)) /\
      (t_progress t = true ->
       mid_scan (t_pc t) = true \/ has_complete q ->
       progress_values q = range 0 (hosts_scanned s + 1)) /\
      Forall (fun ev => match ev with
                        | Progress _ tot => tot = total_hosts s
                        | _ => True
                        end) q /\
      match t_pc t with
      | C_progress0 h => total_hosts s = Z.of_nat (length h)
      | C_submit rest => total_hosts s = Z.of_nat (length (t_futures t) + length rest)
      | _ => True
      end /\
      (is_scanning s = true ->
       match t_pc t with
       | C_submit _ | C_wait _ | C_shutdown None | C_final =>
           Forall undisturbed (t_futures t)
       | _ => True
       end) /\
      (is_scanning s = true ->
       match t_pc t with
       | C_wait _ | C_shutdown None | C_final =>
           total_hosts s = Z.of_nat (length (t_futures t))
       | _ => True
       end) /\
      (match t_pc t with
       | C_complete1 | C_complete2 => True
       | _ => has_complete q
       end ->
       total_hosts s = Z.of_nat (length (t_futures t)) /\
       Forall undisturbed (t_futures t))
  end.

(** The total-count is the length of the parsed host list. *)
Definition total_inv (st : system) : Prop :=
  match thread st with
  | None => True
  | Some t =>
      match t_pc t with
      | C_total h => parse_ip_range (t_ip_range t) = Returns h
      | C_progress0 h =>
          parse_ip_range (t_ip_range t) = Returns h /\
          total_hosts (self st) = Z.of_nat (length h)
      | _ => True
      end /\
      (mid_scan (t_pc t) = true \/ has_complete (t_queue t) ->
       exists hosts, parse_ip_range (t_ip_range t) = Returns hosts /\
                     total_hosts (self st) = Z.of_nat (length hosts))
  end.

(** The text handed to the error callback. *)
Definition scan_failed (x : exn) : string := gettext "Scan failed: " ++ exn_msg x.

(** Every queued error callback carries such a text. *)
Definition error_inv (st : system) : Prop :=
  match thread st with
  | None => True
  | Some t =>
      Forall (fun ev => match ev with
                        | Error m => exists x, m = scan_failed x
                        | _ => True
                        end) (t_queue t)
  end.

(** Open ports are collected in probing order: inside the port loop they
    form a subsequence of the ports probed so far, afterwards and in every
    recorded device a subsequence of [common_ports]. *)
Definition ports_ok (pc : worker_pc) : Prop :=
  match pc with
  | W_ports rest _ open_ports =>
      exists probed, common_ports = (probed ++ rest)%list /\ subseq open_ports probed
  | W_fallback _ open_ports | W_guard _ open_ports | W_resolve open_ports
  | W_record _ open_ports => subseq open_ports common_ports
  | _ => True
  end.

Definition ports_inv (st : system) : Prop :=
  match thread st with
  | None => True
  | Some t =>
      Forall (fun w => ports_ok (w_pc w)) (t_futures t) /\
      Forall (fun d => exists open_ports,
                  subseq open_ports common_ports /\ ports d = ports_text open_ports)
             (t_devices t)
  end.

(** Whether the port accepts a connection, as [is_port_open] sees it. *)
Definition accepts (e : env) (ip_str : string) (port : Z) : bool :=
  match is_port_open e ip_str port with
  | Returns b => b
  | Raises _ => false
  end.

(** [n] consecutive steps of one task, nothing else running in between. *)
Fixpoint worker_steps (n : nat) (e : env) (pr : bool) (s : NetworkScanner)
    (devs : list device) (q : list event) (ip_str : string) (pc : worker_pc)
  : option (worker_pc * NetworkScanner * list device * list event) :=
  match n with
  | O => Some (pc, s, devs, q)
  | S n' =>
      match scan_single_ip e pr s devs q ip_str pc with
      | Some (pc', s', devs', q') => worker_steps n' e pr s' devs' q' ip_str pc'
      | None => None
      end
  end.

(** *** Vocabulary for the device lists and for stopping *)

(** The address texts a scan has recorded or may still record: those of its
    devices, of its tasks that may still append one, and of the hosts it has
    still to submit. *)
Definition scan_ips (t : scan_thread) : list string :=
  (map ip (t_devices t) ++ map w_ip (filter unrecorded (t_futures t))
   ++ map str_address (rest_hosts (t_pc t)))%list.

(** Distinct texts of addresses. *)
Definition distinct_ips (l : list string) : Prop := NoDup l /\ Forall ok_ip l.

Definition ip_count (l : list string) (x : string) : nat := count_occ string_dec l x.

(** Every text occurs in [l'] at most as often as in [l]. *)
Definition sub_ips (l' l : list string) : Prop :=
  forall x, (ip_count l' x <= ip_count l x)%nat.

(** The accumulator and the scan's device list hold distinct addresses, and
    a queued completion callback carries the scan's device list, sorted. *)
Definition devices_inv (st : system) : Prop :=
  distinct_ips (map ip (partial_results (self st))) /\
  match thread st with
  | None => True
  | Some t =>
      distinct_ips (scan_ips t) /\
      (forall ds, In (Complete ds) (t_queue t) ->
                  sorted ip_key (t_devices t) = Returns ds)
  end.

(** A step of the scan thread during which the runtime raises nothing. *)
Definition fault_free (a : action) : bool :=
  match a with
  | step_thread e => match fault e with None => true | Some _ => false end
  | _ => true
  end.

(** A scan of a range that parses is outside its exception handler and has
    queued no error callback. *)
Definition no_failure (st : system) : Prop :=
  match thread st with
  | None => True
  | Some t =>
      (exists hosts, parse_ip_range (t_ip_range t) = Returns hosts) ->
      match t_pc t with
      | C_except _ | C_report _ | C_shutdown (Some _) => False
      | _ => True
      end /\
      filter is_error (t_queue t) = []
  end.








(** *** Vocabulary for tasks, devices and termination *)

(** Tasks are submitted in host order: the addresses of the tasks, followed
    by the hosts still to submit, are the parsed hosts. *)
Definition submitted_inv (st : system) : Prop :=
  match thread st with
  | None => True
  | Some t =>
      match t_pc t with
      | C_total h | C_progress0 h => parse_ip_range (t_ip_range t) = Returns h
      | C_submit rest =>
          exists hosts,
            parse_ip_range (t_ip_range t) = Returns hosts /\
            map str_address hosts
            = (map w_ip (t_futures t) ++ map str_address rest)%list
      | _ =>
          t_futures t = [] \/
          exists hosts rest,
            parse_ip_range (t_ip_range t) = Returns hosts /\
            map str_address hosts
            = (map w_ip (t_futures t) ++ map str_address rest)%list
      end
  end.

(** A task at or past the counting statement (line 116). *)
Definition counted (pc : worker_pc) : bool :=
  match pc with
  | W_count | W_finished => true
  | _ => false
  end.

(** Every device was appended by a task that went on to the counting
    statement. *)
Definition recorded_inv (st : system) : Prop :=
  match thread st with
  | None => True
  | Some t =>
      Forall (fun d => exists w, In w (t_futures t) /\ w_ip w = ip d /\
                                 counted (w_pc w) = true)
             (t_devices t)
  end.

(** Once the submit loop is left there are at most total-count tasks, and
    every queued progress callback reports a count within the total. *)
Definition bound_inv (st : system) : Prop :=
  0 <= total_hosts (self st) /\
  match thread st with
  | None => True
  | Some t =>
      match t_pc t with
      | C_start | C_clear | C_reset | C_parse | C_total _ | C_progress0 _
      | C_submit _ => True
      | _ => Z.of_nat (length (t_futures t)) <= total_hosts (self st)
      end /\
      Forall (fun ev => match ev with
                        | Progress n tot => 0 <= n <= tot
                        | _ => True
                        end) (t_queue t)
  end.

(** A step of the scan thread or of a task, as opposed to a call. *)
Definition is_step (a : action) : bool :=
  match a with
  | step_thread _ | step_worker _ _ => true
  | _ => false
  end.

(** The steps a task has at most left to take. *)
Definition worker_rank (pc : worker_pc) : nat :=
  match pc with
  | W_pending => 8 + length common_ports
  | W_entry => 7 + length common_ports
  | W_ports rest _ _ => 6 + length rest
  | W_fallback _ _ => 5
  | W_guard _ _ => 4
  | W_resolve _ => 3
  | W_record _ _ => 2
  | W_count => 1
  | W_finished | W_stopped | W_raised _ | W_cancelled => 0
  end.

Definition tasks_rank (ws : list worker) : nat :=
  list_sum (map (fun w => worker_rank (w_pc w)) ws).

(** The number of hosts of a range, 0 when it does not parse. *)
Definition hosts_count (ip_range : string) : nat :=
  match parse_ip_range ip_range with
  | Returns h => length h
  | Raises _ => 0
  end.

(** The steps the scan thread has at most left to take, with those of the
    tasks it has still to submit. *)
Definition thread_rank (t : scan_thread) : nat :=
  let f := length (t_futures t) in
  match t_pc t with
  | C_exit => 0
  | C_report _ => 1
  | C_except _ => 2
  | C_complete2 => 3
  | C_complete1 => 4
  | C_final => 5
  | C_shutdown _ => 6
  | C_wait k => 7 + (f - k)
  | C_submit rest => 8 + f + 21 * length rest
  | C_progress0 h => 9 + f + 21 * length h
  | C_total h => 10 + f + 21 * length h
  | C_parse => 11 + f + 21 * hosts_count (t_ip_range t)
  | C_reset => 12 + f + 21 * hosts_count (t_ip_range t)
  | C_clear => 13 + f + 21 * hosts_count (t_ip_range t)
  | C_start => 14 + f + 21 * hosts_count (t_ip_range t)
  end.

(** A bound on the steps a scan has left. *)
Definition steps_left (st : system) : nat :=
  match thread st with
  | None => 0
  | Some t => thread_rank t + tasks_rank (t_futures t)
  end.


(** *** Vocabulary for several scan threads *)

(** Every scan thread has returned. *)
Definition returned_all (w : world) : bool :=
  forallb (fun t => returned (Some t)) (threads w).

(** An expression that never reaches the IPv6 attempt of [ip_network]: it
    has no slash, or [IPv4Network] accepts it. *)
Definition ipv4_expression (s : string) : bool :=
  negb (contains "/" s)
  || match IPv4Network s false with
     | Returns _ => true
     | Raises _ => false
     end.

(** Moves in which every scan that starts is of an IPv4 expression and
    starts when the threads of all earlier scans have returned. *)
Fixpoint orderly (ms : list move) (w : world) : bool :=
  match ms with
  | [] => true
  | m :: ms' =>
      match m with
      | user_scan_network ip_range _ =>
          is_scanning (scanner w) || (returned_all w && ipv4_expression ip_range)
      | _ => true
      end
      && match act m w with
         | Some w' => orderly ms' w'
         | None => true
         end
  end.

(** A move as an action of the scanner with one scan thread. *)
Definition as_action (m : move) : action :=
  match m with
  | user_scan_network ip_range progress_callback =>
      call_scan_network ip_range progress_callback
  | user_stop_scan => call_stop_scan
  | thread_step _ e => step_thread e
  | task_step _ i e => step_worker i e
  end.

(** A scan thread that has returned, with all its tasks settled. *)
Definition retired (t : scan_thread) : Prop :=
  t_pc t = C_exit /\ Forall (fun w => settled (w_pc w) = true) (t_futures t).

(** The world seen as the scanner with its latest scan thread, all earlier
    threads having retired. *)
Definition one_scan (w : world) (st : system) : Prop :=
  self st = scanner w /\
  ((threads w = [] /\ thread st = None) \/
   exists old t, threads w = (old ++ [t])%list /\ thread st = Some t /\
                 Forall retired old).

(** A step of a scan thread during which the runtime raises nothing. *)
Definition calm (m : move) : bool :=
  match m with
  | thread_step _ e => match fault e with None => true | Some _ => false end
  | _ => true
  end.

(** Whether a connection attempt to the port returns 0. *)
Definition port_answers (e : env) (ip_str : string) (port : Z) : bool :=
  match connect_ex e ip_str port with
  | Returns c => c =? 0
  | Raises _ => false
  end.



(** Program points of a scan thread that has set the running flag (line
    152) and is not done with it: it has not cleared the flag itself (lines
    188, 193) and has not found it cleared at its last look (line 187). *)
Definition flag_holder (pc : coord_pc) : bool :=
  match pc with
  | C_start | C_complete2 | C_report _ | C_exit => false
  | _ => true
  end.

(** What holds of every scan thread by itself, whatever the other threads
    do: it has queued no completion or error callback before it returns and
    at most one when it has returned; an error callback carries the text of
    [scan_failed]; no task has ended in an exception; and the open ports of
    its tasks and devices are in probing order. *)
Definition thread_ok (t : scan_thread) : Prop :=
  (length (filter is_final (t_queue t))
   <= match t_pc t with C_exit => 1 | _ => 0 end)%nat /\
  error_inv {| self := init; thread := Some t |} /\
  Forall (fun k => forall x, w_pc k <> W_raised x) (t_futures t) /\
  ports_inv {| self := init; thread := Some t |}.
(** *** Sample networks and schedules *)

(** A network on which nothing answers. *)
Definition quiet_net : env :=
  {| connect_ex := fun _ _ => Returns 111;
     ping := fun _ => Returns false;
     gethostbyaddr := fun _ => Raises (Exn OSError "Unknown host");
     fault := None |}.

(** A network on which ports 22, 3389 and 53 accept, every other connection
    attempt fails inside the socket layer, and reverse DNS answers. *)
Definition lan_net : env :=
  {| connect_ex := fun _ port =>
       if (port =? 22) || (port =? 3389) || (port =? 53) then Returns 0
       else Raises (Exn OSError "timed out");
     ping := fun _ => Returns false;
     gethostbyaddr := fun _ => Returns "box.lan"%string;
     fault := None |}.

(** A scan of [10.0.0.1-2] with a progress callback that runs to its end:
    the first host answers, the second does not. *)
Definition sample_scan : list action :=
  ([call_scan_network "10.0.0.1-2" true]
   ++ repeat (step_thread quiet_net) 8
   ++ repeat (step_worker 0%nat lan_net) 19
   ++ repeat (step_worker 1%nat quiet_net) 17
   ++ repeat (step_thread quiet_net) 8)%list.


(** A scan of [10.0.0.1-2] on which both hosts answer and the task of the
    second host records its device first. *)
Definition out_of_order_scan : list action :=
  ([call_scan_network "10.0.0.1-2" false]
   ++ repeat (step_thread quiet_net) 8
   ++ repeat (step_worker 1%nat lan_net) 19
   ++ repeat (step_worker 0%nat lan_net) 19
   ++ repeat (step_thread quiet_net) 8)%list.



(** A scan of [10.0.0.1] is stopped while its task is inside the port loop,
    and the same range is scanned again at once.  The new thread sets the
    flag and resets the attributes; then the old task, finding the flag set
    when it next looks, runs on to its end, the new task runs, and the new
    scan thread completes. *)
Definition restart_moves : list move :=
  ([user_scan_network "10.0.0.1" true]
   ++ repeat (thread_step 0 quiet_net) 7
   ++ repeat (task_step 0 0 lan_net) 3
   ++ [user_stop_scan; user_scan_network "10.0.0.1" true]
   ++ repeat (thread_step 1 quiet_net) 7
   ++ repeat (task_step 0 0 lan_net) 16
   ++ repeat (task_step 1 0 lan_net) 19
   ++ repeat (thread_step 1 quiet_net) 7)%list.

(** The moves of [out_of_order_scan] and of [sample_scan]. *)
Definition out_of_order_moves : list move :=
  ([user_scan_network "10.0.0.1-2" false]
   ++ repeat (thread_step 0 quiet_net) 8
   ++ repeat (task_step 0 1 lan_net) 19
   ++ repeat (task_step 0 0 lan_net) 19
   ++ repeat (thread_step 0 quiet_net) 8)%list.

Definition sample_moves : list move :=
  ([user_scan_network "10.0.0.1-2" true]
   ++ repeat (thread_step 0 quiet_net) 8
   ++ repeat (task_step 0 0 lan_net) 19
   ++ repeat (task_step 0 1 quiet_net) 17
   ++ repeat (thread_step 0 quiet_net) 8)%list.

(** A runtime that cannot start a thread. *)
Definition exhausted_runtime : env :=
  {| connect_ex := fun _ _ => Returns 111;
     ping := fun _ => Returns false;
     gethostbyaddr := fun _ => Raises (Exn OSError "Unknown host");
     fault := Some (Exn RuntimeError "can't start new thread") |}.


(** A scan of [10.0.0.1] whose thread has left its loops and waits at the
    pool shutdown for its only task, which is resolving the host name. *)
Definition waiting_moves : list move :=
  ([user_scan_network "10.0.0.1" false]
   ++ repeat (thread_step 0 quiet_net) 10
   ++ repeat (task_step 0 0 lan_net) 16)%list.

(** The moves of [scan_in_port_loop]. *)
Definition port_loop_moves : list move :=
  ([user_scan_network "10.0.0.1" false]
   ++ repeat (thread_step 0 quiet_net) 7
   ++ repeat (task_step 0 0 lan_net) 5)%list.
(** * Properties *)

(** ** Strings *)

Lemma append_nil_r (s : string) : (s ++ EmptyString)%string = s.
Proof. induction s; simpl; congruence. Qed.

Lemma append_assoc (a b c : string) : ((a ++ b) ++ c)%string = (a ++ (b ++ c))%string.
Proof. induction a; simpl; congruence. Qed.

Lemma contains_app (c : ascii) (s1 s2 : string) :
  contains c (s1 ++ s2) = contains c s1 || contains c s2.
Proof.
  induction s1 as [|d s1 IH]; simpl; [reflexivity|].
  rewrite IH. now rewrite orb_assoc.
Qed.

Lemma split_not_nil (sep : ascii) (s : string) : split sep s <> [].
Proof.
  destruct s as [|c s]; simpl; [discriminate|].
  destruct (Ascii.eqb c sep); [discriminate|].
  destruct (split sep s); discriminate.
Qed.

Lemma split_no_sep (sep : ascii) (s : string) :
  contains sep s = false -> split sep s = [s].
Proof.
  induction s as [|c s IH]; simpl; intros H; [reflexivity|].
  apply orb_false_iff in H as [Hc Hs].
  rewrite Hc, (IH Hs). reflexivity.
Qed.

Lemma split_app_sep (sep : ascii) (s1 s2 : string) :
  contains sep s1 = false ->
  split sep (s1 ++ String sep s2) = s1 :: split sep s2.
Proof.
  induction s1 as [|c s1 IH]; simpl; intros H.
  - now rewrite Ascii.eqb_refl.
  - apply orb_false_iff in H as [Hc Hs].
    rewrite Hc, (IH Hs). reflexivity.
Qed.

(** The pieces [split] returns do not contain the separator. *)
Lemma split_parts_no_sep (sep : ascii) (s : string) :
  Forall (fun p => contains sep p = false) (split sep s).
Proof.
  induction s as [|c s IH]; simpl.
  - constructor; [reflexivity | constructor].
  - destruct (Ascii.eqb c sep) eqn:Hc.
    + constructor; [reflexivity | exact IH].
    + destruct (split sep s) as [|hd tl]; inversion IH; subst;
        constructor; simpl; rewrite ?Hc; auto.
Qed.

Lemma join_split (sep : ascii) (s : string) :
  join (String sep EmptyString) (split sep s) = s.
Proof.
  induction s as [|c s IH]; simpl; [reflexivity|].
  destruct (Ascii.eqb c sep) eqn:Hc.
  - apply Ascii.eqb_eq in Hc; subst c.
    pose proof (split_not_nil sep s) as Hn.
    destruct (split sep s) as [|hd tl]; [congruence|].
    simpl in *. now rewrite IH.
  - pose proof (split_not_nil sep s) as Hn.
    destruct (split sep s) as [|hd tl]; [congruence|].
    destruct tl; simpl in *; now rewrite <- IH.
Qed.

Lemma split_join (sep : ascii) (parts : list string) :
  parts <> [] ->
  Forall (fun p => contains sep p = false) parts ->
  split sep (join (String sep EmptyString) parts) = parts.
Proof.
  induction parts as [|p rest IH]; intros Hn HF; [congruence|].
  inversion HF as [|? ? Hp Hrest]; subst.
  destruct rest as [|q rest'].
  - simpl. now apply split_no_sep.
  - change (join (String sep EmptyString) (p :: q :: rest'))
      with (p ++ String sep (join (String sep EmptyString) (q :: rest')))%string.
    rewrite (split_app_sep _ _ _ Hp), IH; auto. discriminate.
Qed.

Lemma join_snoc (sep : string) (parts : list string) (x : string) :
  parts <> [] ->
  join sep (parts ++ [x]) = (join sep parts ++ sep ++ x)%string.
Proof.
  induction parts as [|p rest IH]; intros Hn; [congruence|].
  destruct rest as [|q rest'].
  - reflexivity.
  - change (join sep ((p :: q :: rest') ++ [x]))
      with (p ++ sep ++ join sep ((q :: rest') ++ [x]))%string.
    rewrite IH by discriminate.
    change (join sep (p :: q :: rest')) with (p ++ sep ++ join sep (q :: rest'))%string.
    now rewrite !append_assoc.
Qed.

Lemma rsplit_last_none (sep : ascii) (s : string) :
  contains sep s = false -> rsplit_last sep s = None.
Proof.
  induction s as [|c s IH]; simpl; intros H; [reflexivity|].
  apply orb_false_iff in H as [Hc Hs].
  now rewrite (IH Hs), Hc.
Qed.

Lemma rsplit_last_app (sep : ascii) (s1 s2 : string) :
  contains sep s2 = false ->
  rsplit_last sep (s1 ++ String sep s2) = Some (s1, s2).
Proof.
  intros H. induction s1 as [|c s1 IH]; simpl.
  - now rewrite (rsplit_last_none _ _ H), Ascii.eqb_refl.
  - now rewrite IH.
Qed.

Lemma rsplit_last_some (sep : ascii) (s : string) :
  contains sep s = true -> exists l r, rsplit_last sep s = Some (l, r).
Proof.
  induction s as [|c s IH]; simpl; intros H; [discriminate|].
  destruct (rsplit_last sep s) as [[l r]|] eqn:E.
  - eauto.
  - destruct (Ascii.eqb c sep) eqn:Hc; [eauto|].
    simpl in H. destruct (IH H) as (l & r & Hlr). discriminate.
Qed.

(** [rsplit_last] cuts the text at a separator. *)
Lemma rsplit_last_spec (sep : ascii) (s l r : string) :
  rsplit_last sep s = Some (l, r) ->
  s = (l ++ String sep r)%string /\ contains sep r = false.
Proof.
  revert l r. induction s as [|c s IH]; simpl; intros l r H; [discriminate|].
  destruct (rsplit_last sep s) as [[l' r']|] eqn:E.
  - inversion H; subst. destruct (IH _ _ eq_refl) as [-> Hr]. auto.
  - destruct (Ascii.eqb c sep) eqn:Hc; [|discriminate].
    inversion H; subst. apply Ascii.eqb_eq in Hc; subst.
    split; [reflexivity|].
    clear IH H. induction r as [|d r IHr]; [reflexivity|].
    simpl in *. destruct (rsplit_last sep r) as [[? ?]|]; [discriminate|].
    destruct (Ascii.eqb d sep); [discriminate|]. simpl. now apply IHr.
Qed.

(** ** Results *)

Lemma mapM_returns {A B : Type} (f : A -> outcome B) (l : list A) (r : list B) :
  mapM f l = Returns r -> Forall2 (fun x y => f x = Returns y) l r.
Proof.
  revert r. induction l as [|x l IH]; simpl; intros r H.
  - inversion H. constructor.
  - destruct (f x) as [y|] eqn:Hx; simpl in H; [|discriminate].
    destruct (mapM f l) as [ys|] eqn:Hl; simpl in H; [|discriminate].
    inversion H; subst. constructor; auto.
Qed.

Lemma mapM_map {A B : Type} (f : A -> outcome B) (g : A -> B) (l : list A) :
  (forall x, In x l -> f x = Returns (g x)) -> mapM f l = Returns (map g l).
Proof.
  induction l as [|x l IH]; simpl; intros H; [reflexivity|].
  rewrite (H x) by auto. simpl. rewrite IH by auto. reflexivity.
Qed.

Lemma mapM_raises {A B : Type} (f : A -> outcome B) (l : list A) (x : A) :
  In x l -> (exists e, f x = Raises e) -> exists e, mapM f l = Raises e.
Proof.
  induction l as [|y l IH]; simpl; intros Hin Hx; [contradiction|].
  destruct (f y) as [b|e] eqn:Hy; simpl; [|eauto].
  destruct Hin as [->|Hin].
  - destruct Hx as [e He]. congruence.
  - destruct (IH Hin Hx) as [e He]. rewrite He. simpl. eauto.
Qed.

Lemma in_range (a b i : Z) : In i (range a b) <-> a <= i < b.
Proof.
  unfold range. rewrite in_map_iff. split.
  - intros (k & <- & Hk). apply in_seq in Hk. lia.
  - intros H. exists (Z.to_nat (i - a)). split; [lia|].
    apply in_seq. lia.
Qed.

Lemma range_length (a b : Z) : length (range a b) = Z.to_nat (b - a).
Proof. unfold range. now rewrite length_map, length_seq. Qed.

Lemma range_empty (a b : Z) : b <= a -> range a b = [].
Proof.
  intros H. unfold range. replace (Z.to_nat (b - a)) with O by lia. reflexivity.
Qed.

Lemma range_cons (a b : Z) : a < b -> range a b = a :: range (a + 1) b.
Proof.
  intros H. unfold range.
  replace (Z.to_nat (b - a)) with (S (Z.to_nat (b - (a + 1)))) by lia.
  simpl. f_equal; [lia|].
  rewrite <- seq_shift, map_map. apply map_ext. intros k. lia.
Qed.

(** ** Decimal numerals *)

Lemma all_digits_cons (c : ascii) (s : string) :
  all_digits (String c s) = is_digit c && all_digits s.
Proof. reflexivity. Qed.

(** What a digit is not. *)
Lemma digit_char (c : ascii) :
  is_digit c = true ->
  int_space c = false /\ Ascii.eqb c "+" = false /\ Ascii.eqb c "-" = false /\
  Ascii.eqb c "_" = false /\ Ascii.eqb c "." = false /\ Ascii.eqb c "/" = false /\
  (code c <? 128)%N = true.
Proof.
  destruct c as [[|] [|] [|] [|] [|] [|] [|] [|]];
    vm_compute; intros H; try discriminate H; repeat split.
Qed.

Lemma string_of_uint_digits (d : Decimal.uint) :
  all_digits (NilEmpty.string_of_uint d) = true.
Proof. induction d; simpl; auto. Qed.

Lemma string_of_uint_nil (d : Decimal.uint) :
  NilEmpty.string_of_uint d = EmptyString -> d = Decimal.Nil.
Proof. destruct d; simpl; intros H; congruence. Qed.

Lemma scan_digits_all (s : string) :
  all_digits s = true -> scan_digits false s = Some (s, EmptyString).
Proof.
  induction s as [|c s IH]; simpl; intros H; [reflexivity|].
  rewrite all_digits_cons in H. apply andb_true_iff in H as [Hc Hs].
  now rewrite Hc, (IH Hs).
Qed.

Lemma all_digits_no (c : ascii) (s : string) :
  is_digit c = false -> all_digits s = true -> contains c s = false.
Proof.
  intros Hc. induction s as [|d s IH]; simpl; intros H; [reflexivity|].
  rewrite all_digits_cons in H. apply andb_true_iff in H as [Hd Hs].
  rewrite (IH Hs), orb_false_r.
  destruct (Ascii.eqb d c) eqn:E; [|reflexivity].
  apply Ascii.eqb_eq in E. congruence.
Qed.

Lemma all_digits_isascii_isdigit (s : string) :
  s <> EmptyString -> all_digits s = true -> isascii s && isdigit s = true.
Proof.
  intros Hn H. destruct s as [|c s]; [congruence|].
  unfold isascii, isdigit.
  assert (G : forall t, all_digits t = true ->
            forallb (fun c => (code c <? 128)%N) (chars t) = true /\
            forallb (fun c => is_digit c || (code c =? 178)%N || (code c =? 179)%N
                              || (code c =? 185)%N) (chars t) = true).
  { induction t as [|d t IH]; simpl; intros Ht; [auto|].
    rewrite all_digits_cons in Ht. apply andb_true_iff in Ht as [Hd Ht].
    destruct (IH Ht) as [I1 I2].
    destruct (digit_char d Hd) as (_ & _ & _ & _ & _ & _ & Ha).
    rewrite Ha, Hd, I1, I2. auto. }
  destruct (G _ H) as [G1 G2]. now rewrite G1, G2.
Qed.

(** [int] on a string of digits: the numeral's value, unless the numeral is
    longer than the interpreter allows. *)
Lemma int_digits (s : string) (d : Decimal.uint) :
  s <> EmptyString -> all_digits s = true ->
  NilEmpty.uint_of_string s = Some d ->
  int s = if (int_max_str_digits <? String.length s)%nat
          then Raises (too_many_digits (String.length s))
          else Returns (Z.of_uint d).
Proof.
  intros Hn Hd Hu. destruct s as [|c s]; [congruence|].
  pose proof Hd as Hd'. rewrite all_digits_cons in Hd'.
  apply andb_true_iff in Hd' as [Hc _].
  destruct (digit_char c Hc) as (Hsp & Hplus & Hminus & Hus & _).
  unfold int. cbn [lstrip]. rewrite Hsp. cbn [take_sign]. rewrite Hplus, Hminus.
  rewrite Hus, (scan_digits_all _ Hd).
  destruct (int_max_str_digits <? String.length (String c s))%nat; [reflexivity|].
  unfold int_of_digits. rewrite Hu. reflexivity.
Qed.

Lemma int_minus_digits (s : string) (d : Decimal.uint) :
  s <> EmptyString -> all_digits s = true ->
  NilEmpty.uint_of_string s = Some d ->
  int (String "-" s) = if (int_max_str_digits <? String.length s)%nat
                       then Raises (too_many_digits (String.length s))
                       else Returns (- Z.of_uint d).
Proof.
  intros Hn Hd Hu. destruct s as [|c s]; [congruence|].
  pose proof Hd as Hd'. rewrite all_digits_cons in Hd'.
  apply andb_true_iff in Hd' as [Hc _].
  destruct (digit_char c Hc) as (Hsp & Hplus & Hminus & Hus & _).
  unfold int. cbn [lstrip]. change (int_space "-") with false. cbv iota.
  cbn [take_sign]. change (Ascii.eqb "-" "+") with false.
  change (Ascii.eqb "-" "-") with true. cbv iota.
  rewrite Hus, (scan_digits_all _ Hd).
  destruct (int_max_str_digits <? String.length (String c s))%nat; [reflexivity|].
  unfold int_of_digits. rewrite Hu. reflexivity.
Qed.

Lemma of_uint_to_uint (p : positive) : Z.of_uint (Pos.to_uint p) = Z.pos p.
Proof. unfold Z.of_uint. now rewrite DecimalPos.Unsigned.of_to. Qed.

(** [int(str(z))] gives [z] back, within the numeral length limit. *)
Lemma int_str_int (z : Z) :
  int (str_int z) = Returns z \/ exists e, int (str_int z) = Raises e.
Proof.
  destruct z as [|p|p]; unfold str_int; simpl Z.to_int.
  - left. reflexivity.
  - cbn [NilEmpty.string_of_int].
    rewrite (int_digits _ (Pos.to_uint p)).
    + destruct (_ <? _)%nat; [right; eauto | left].
      now rewrite of_uint_to_uint.
    + intros H. apply string_of_uint_nil in H.
      now apply DecimalPos.Unsigned.to_uint_nonnil in H.
    + apply string_of_uint_digits.
    + apply NilEmpty.usu.
  - cbn [NilEmpty.string_of_int].
    rewrite (int_minus_digits _ (Pos.to_uint p)).
    + destruct (_ <? _)%nat; [right; eauto | left].
      now rewrite of_uint_to_uint.
    + intros H. apply string_of_uint_nil in H.
      now apply DecimalPos.Unsigned.to_uint_nonnil in H.
    + apply string_of_uint_digits.
    + apply NilEmpty.usu.
Qed.

Lemma int_str_int_value (z v : Z) : int (str_int z) = Returns v -> v = z.
Proof.
  intros H. destruct (int_str_int z) as [E|[e E]]; congruence.
Qed.

(** The text of an integer has no dot and no slash; that of a non-negative
    one has no minus sign either. *)
Lemma str_int_no_char (c : ascii) (z : Z) :
  is_digit c = false -> Ascii.eqb "-" c = false -> contains c (str_int z) = false.
Proof.
  intros Hc Hm. destruct z as [|p|p]; unfold str_int; simpl Z.to_int;
    cbn [NilEmpty.string_of_int].
  - change (contains c (String "0" EmptyString) = false). cbn [contains].
    destruct (Ascii.eqb "0" c) eqn:E; [|reflexivity].
    apply Ascii.eqb_eq in E; subst c. discriminate.
  - apply all_digits_no; [assumption | apply string_of_uint_digits].
  - cbn [contains]. rewrite Hm. apply all_digits_no; [assumption | apply string_of_uint_digits].
Qed.

Lemma str_int_no_dot (z : Z) : contains "." (str_int z) = false.
Proof. now apply str_int_no_char. Qed.

Lemma str_int_no_slash (z : Z) : contains "/" (str_int z) = false.
Proof. now apply str_int_no_char. Qed.

Lemma str_int_no_minus (z : Z) : 0 <= z -> contains "-" (str_int z) = false.
Proof.
  intros H. destruct z as [|p|p]; [reflexivity| |lia].
  unfold str_int; simpl Z.to_int; cbn [NilEmpty.string_of_int].
  apply all_digits_no; [reflexivity | apply string_of_uint_digits].
Qed.

(** An octet text that [_parse_octet] accepts for [str(z)] is [z], and [z]
    is an octet. *)
Lemma parse_octet_str_int (z v : Z) :
  _parse_octet (str_int z) = Returns v -> v = z /\ 0 <= z <= 255.
Proof.
  destruct z as [|p|p].
  - change (_parse_octet (str_int 0)) with (Returns (A:=Z) 0).
    intros H; inversion H. lia.
  - unfold _parse_octet. destruct (str_int (Z.pos p)) as [|c0 s0] eqn:Es; [discriminate|].
    destruct (negb _); [discriminate|].
    destruct (3 <? _)%nat; [discriminate|].
    destruct (_ && _); [discriminate|].
    rewrite <- Es.
    destruct (int (str_int (Z.pos p))) as [w|] eqn:Ei; simpl; [|discriminate].
    apply int_str_int_value in Ei; subst w.
    destruct (255 <? Z.pos p) eqn:Hz; [discriminate|].
    intros H; inversion H; subst v. apply Z.ltb_ge in Hz. lia.
  - unfold str_int; simpl Z.to_int; cbn [NilEmpty.string_of_int].
    unfold _parse_octet.
    replace (isdigit (String "-" (NilEmpty.string_of_uint (Pos.to_uint p))))
      with false by reflexivity.
    rewrite andb_false_r. cbn [negb]. discriminate.
Qed.

Lemma parse_octet_ok (i : Z) : octet i -> _parse_octet (str_int i) = Returns i.
Proof.
  intros H.
  assert (C : forallb (fun i => match _parse_octet (str_int i) with
                                | Returns v => v =? i
                                | Raises _ => false
                                end) (range 0 256) = true) by (vm_compute; reflexivity).
  rewrite forallb_forall in C. specialize (C i).
  destruct (_parse_octet (str_int i)) as [v|].
  - f_equal. apply Z.eqb_eq, C, in_range. unfold octet in H. lia.
  - discriminate C. apply in_range. unfold octet in H. lia.
Qed.

Lemma int_str_int_octet (i : Z) : octet i -> int (str_int i) = Returns i.
Proof.
  intros H.
  assert (C : forallb (fun i => match int (str_int i) with
                                | Returns v => v =? i
                                | Raises _ => false
                                end) (range 0 256) = true) by (vm_compute; reflexivity).
  rewrite forallb_forall in C. specialize (C i).
  destruct (int (str_int i)) as [v|].
  - f_equal. apply Z.eqb_eq, C, in_range. unfold octet in H. lia.
  - discriminate C. apply in_range. unfold octet in H. lia.
Qed.

Lemma contains_join (c : ascii) (sep : string) (parts : list string) :
  contains c sep = false ->
  Forall (fun p => contains c p = false) parts ->
  contains c (join sep parts) = false.
Proof.
  intros Hsep. induction parts as [|p rest IH]; intros HF; [reflexivity|].
  inversion HF as [|? ? Hp Hrest]; subst.
  destruct rest as [|q rest']; [exact Hp|].
  change (join sep (p :: q :: rest')) with (p ++ sep ++ join sep (q :: rest'))%string.
  rewrite !contains_app, Hp, Hsep, (IH Hrest). reflexivity.
Qed.

Lemma dotted_no_slash (parts : list Z) : contains "/" (dotted parts) = false.
Proof.
  apply contains_join; [reflexivity|].
  apply Forall_forall. intros p Hp. apply in_map_iff in Hp as (z & <- & _).
  apply str_int_no_slash.
Qed.

Lemma split_dotted (parts : list Z) :
  parts <> [] -> split "." (dotted parts) = map str_int parts.
Proof.
  intros H. apply split_join.
  - destruct parts; [congruence | discriminate].
  - apply Forall_forall. intros p Hp. apply in_map_iff in Hp as (z & <- & _).
    apply str_int_no_dot.
Qed.

Lemma dotted_snoc (parts : list Z) (x : Z) :
  parts <> [] -> dotted (parts ++ [x]) = (dotted parts ++ "." ++ str_int x)%string.
Proof.
  intros H. unfold dotted. rewrite map_app. apply join_snoc.
  destruct parts; [congruence | discriminate].
Qed.

(** [_ip_int_from_string] on a text with four dot-separated pieces. *)
Lemma ip_int_from_string_split (s p0 p1 p2 p3 : string) :
  split "." s = [p0; p1; p2; p3] ->
  _ip_int_from_string s =
  try_except (bs <- mapM _parse_octet [p0; p1; p2; p3] ;; Returns (from_bytes_big bs))
    ValueError
    (fun exc => Raises (Exn AddressValueError (exn_msg exc ++ " in " ++ repr s))).
Proof.
  intros H. destruct s as [|c s]; [discriminate|].
  unfold _ip_int_from_string. rewrite H. reflexivity.
Qed.

Lemma IPv4Address_dotted (a b c d : Z) :
  octet a -> octet b -> octet c -> octet d ->
  IPv4Address (dotted [a; b; c; d]) = Returns (addr4 a b c d).
Proof.
  intros Ha Hb Hc Hd. unfold IPv4Address.
  rewrite dotted_no_slash.
  rewrite (ip_int_from_string_split _ (str_int a) (str_int b) (str_int c) (str_int d))
    by (now rewrite split_dotted).
  cbn [mapM]. rewrite !parse_octet_ok by assumption. reflexivity.
Qed.

(** The text [p.q.r.<i>] is rejected whenever [i] is not an octet, whatever
    the first three pieces are. *)
Lemma IPv4Address_bad_last (base : list Z) (i : Z) :
  length base = 3%nat -> ~ octet i ->
  raises (IPv4Address (dotted base ++ "." ++ str_int i)).
Proof.
  intros Hl Hi. destruct base as [|a [|b [|c [|]]]]; try discriminate.
  rewrite <- (dotted_snoc [a; b; c]) by discriminate. cbn [app].
  unfold IPv4Address. rewrite dotted_no_slash.
  rewrite (ip_int_from_string_split _ (str_int a) (str_int b) (str_int c) (str_int i))
    by (now rewrite split_dotted).
  assert (R : raises (mapM _parse_octet [str_int a; str_int b; str_int c; str_int i])).
  { apply (mapM_raises _ _ (str_int i)); [simpl; auto|].
    destruct (_parse_octet (str_int i)) as [v|x] eqn:E; [|eauto].
    apply parse_octet_str_int in E. exfalso. apply Hi. apply E. }
  destruct R as [x ->]. cbn [bind try_except].
  destruct (isinstance x ValueError); unfold raises; eauto.
Qed.

(** ** The range parser on suffix ranges *)

Lemma range_expr_shape (base : list Z) (e : Z) :
  0 <= e ->
  contains "/" (dotted base ++ "-" ++ str_int e) = false /\
  contains "-" (dotted base ++ "-" ++ str_int e) = true /\
  rsplit1 "-" (dotted base ++ "-" ++ str_int e) = [dotted base; str_int e].
Proof.
  intros He. repeat split.
  - rewrite !contains_app, dotted_no_slash, str_int_no_slash. reflexivity.
  - rewrite !contains_app. cbn [contains]. rewrite Ascii.eqb_refl.
    now rewrite orb_true_r.
  - unfold rsplit1.
    change ("-" ++ str_int e)%string with (String "-" (str_int e)).
    now rewrite rsplit_last_app by (now apply str_int_no_minus).
Qed.

(** What [parse_ip_range] computes on [a.b.c.s-e]. *)
Lemma parse_range4_unfold (a b c s e : Z) :
  0 <= e ->
  parse_ip_range (range4_expr a b c s e) =
  (start_ip <- int (str_int s) ;;
   end_ip <- int (str_int e) ;;
   mapM (fun i => IPv4Address (dotted [a; b; c] ++ "." ++ str_int i))
        (range start_ip (end_ip + 1))).
Proof.
  intros He. unfold parse_ip_range, range4_expr.
  destruct (range_expr_shape [a; b; c; s] e He) as (-> & -> & ->).
  cbn [unpack2 bind]. rewrite split_dotted by discriminate.
  cbn [map length Nat.eqb nth firstn].
  destruct (int (str_int s)) as [start_ip|]; cbn [bind]; [|reflexivity].
  destruct (int (str_int e)) as [end_ip|]; cbn [bind]; reflexivity.
Qed.

(** What [parse_ip_range] computes on [a.b.c-e]. *)
Lemma parse_range3_unfold (a b c e : Z) :
  0 <= e ->
  parse_ip_range (range3_expr a b c e) =
  (end_ip <- int (str_int e) ;;
   mapM (fun i => IPv4Address (dotted [a; b; c] ++ "." ++ str_int i))
        (range 1 (end_ip + 1))).
Proof.
  intros He. unfold parse_ip_range, range3_expr.
  destruct (range_expr_shape [a; b; c] e He) as (-> & -> & ->).
  cbn [unpack2 bind]. rewrite split_dotted by discriminate.
  cbn [map length Nat.eqb].
  destruct (int (str_int e)) as [end_ip|]; cbn [bind]; reflexivity.
Qed.

Lemma range_hosts_ok (a b c lo hi : Z) :
  octet a -> octet b -> octet c -> 0 <= lo -> hi <= 256 ->
  mapM (fun i => IPv4Address (dotted [a; b; c] ++ "." ++ str_int i)) (range lo hi)
  = Returns (map (addr4 a b c) (range lo hi)).
Proof.
  intros Ha Hb Hc Hlo Hhi. apply mapM_map. intros i Hi.
  apply in_range in Hi.
  rewrite <- (dotted_snoc [a; b; c]) by discriminate.
  apply IPv4Address_dotted; unfold octet in *; auto; lia.
Qed.

Lemma range_hosts_bad (a b c lo hi : Z) :
  lo < hi -> (lo < 0 \/ 256 < hi) ->
  raises (mapM (fun i => IPv4Address (dotted [a; b; c] ++ "." ++ str_int i)) (range lo hi)).
Proof.
  intros Hlt Hout.
  assert (W : exists i, lo <= i < hi /\ ~ octet i).
  { destruct Hout; [exists lo | exists (hi - 1)]; unfold octet; lia. }
  destruct W as (i & Hin & Hbad).
  apply (mapM_raises _ _ i); [now apply in_range|].
  now apply (IPv4Address_bad_last [a; b; c]).
Qed.

Lemma parse_range4_ok (a b c s e : Z) :
  octet a -> octet b -> octet c -> 0 <= s -> s <= e -> e <= 255 ->
  parse_ip_range (range4_expr a b c s e) = Returns (map (addr4 a b c) (range s (e + 1))).
Proof.
  intros Ha Hb Hc Hs Hse He.
  rewrite parse_range4_unfold by lia.
  rewrite !int_str_int_octet by (unfold octet; lia). cbn [bind].
  apply range_hosts_ok; auto; lia.
Qed.

Lemma parse_range3_ok (a b c e : Z) :
  octet a -> octet b -> octet c -> 1 <= e -> e <= 255 ->
  parse_ip_range (range3_expr a b c e) = Returns (map (addr4 a b c) (range 1 (e + 1))).
Proof.
  intros Ha Hb Hc H1 He.
  rewrite parse_range3_unfold by lia.
  rewrite int_str_int_octet by (unfold octet; lia). cbn [bind].
  apply range_hosts_ok; auto; lia.
Qed.

Lemma parse_range4_out_of_bounds (a b c s e : Z) :
  s <= e -> 0 <= e -> (s < 0 \/ 255 < s \/ 255 < e) ->
  raises (parse_ip_range (range4_expr a b c s e)).
Proof.
  intros Hse He Hout. rewrite parse_range4_unfold by lia.
  destruct (int_str_int s) as [->|[x ->]]; [|unfold raises; cbn [bind]; eauto].
  destruct (int_str_int e) as [->|[x ->]]; [|unfold raises; cbn [bind]; eauto].
  cbn [bind]. apply range_hosts_bad; lia.
Qed.

Lemma parse_range3_out_of_bounds (a b c e : Z) :
  255 < e -> raises (parse_ip_range (range3_expr a b c e)).
Proof.
  intros He. rewrite parse_range3_unfold by lia.
  destruct (int_str_int e) as [->|[x ->]]; [|unfold raises; cbn [bind]; eauto].
  cbn [bind]. apply range_hosts_bad; lia.
Qed.

(** An end bound below the start is not an error: the host list is empty,
    and the first three pieces are not even looked at. *)
Lemma parse_range4_reversed (a b c s e : Z) :
  0 <= e -> e < s -> s <= 255 ->
  parse_ip_range (range4_expr a b c s e) = Returns [].
Proof.
  intros He Hes Hs. rewrite parse_range4_unfold by lia.
  rewrite !int_str_int_octet by (unfold octet; lia). cbn [bind].
  now rewrite range_empty by lia.
Qed.

Lemma scan_digits_stop (ds : string) (c : ascii) (r : string) :
  all_digits ds = true -> is_digit c = false -> Ascii.eqb c "_" = false ->
  scan_digits false (ds ++ String c r) = Some (ds, String c r).
Proof.
  intros Hd Hc Hu. induction ds as [|d ds IH]; simpl.
  - now rewrite Hc, Hu.
  - rewrite all_digits_cons in Hd. apply andb_true_iff in Hd as [Hd1 Hd2].
    now rewrite Hd1, (IH Hd2).
Qed.

(** A numeral followed by a minus sign is no integer literal. *)
Lemma int_digits_then_minus (ds : string) :
  ds <> EmptyString -> all_digits ds = true ->
  raises (int (ds ++ "-")) /\ raises (int (String "-" (ds ++ "-"))).
Proof.
  intros Hn Hd. destruct ds as [|c ds]; [congruence|].
  pose proof Hd as Hd'. rewrite all_digits_cons in Hd'.
  apply andb_true_iff in Hd' as [Hc _].
  destruct (digit_char c Hc) as (Hsp & Hplus & Hminus & Hus & _).
  assert (S : scan_digits false (String c ds ++ "-") = Some (String c ds, "-"%string))
    by (now apply scan_digits_stop).
  change (String c ds ++ "-")%string with (String c (ds ++ "-")) in *.
  split; unfold int, raises.
  - cbn [lstrip]. rewrite Hsp. cbn [take_sign]. rewrite Hplus, Hminus, Hus, S.
    destruct (_ <? _)%nat; [eauto|].
    change (lstrip "-") with "-"%string. cbv iota. eauto.
  - cbn [lstrip]. change (int_space "-") with false. cbv iota.
    cbn [take_sign]. change (Ascii.eqb "-" "+") with false.
    change (Ascii.eqb "-" "-") with true. cbv iota.
    rewrite Hus, S. destruct (_ <? _)%nat; [eauto|].
    change (lstrip "-") with "-"%string. cbv iota. eauto.
Qed.

Lemma int_str_int_then_minus (z : Z) : raises (int (str_int z ++ "-")).
Proof.
  destruct z as [|p|p]; unfold str_int; simpl Z.to_int; cbn [NilEmpty.string_of_int].
  - unfold raises. vm_compute. eauto.
  - apply int_digits_then_minus; [|apply string_of_uint_digits].
    intros H. apply string_of_uint_nil in H.
    now apply DecimalPos.Unsigned.to_uint_nonnil in H.
  - change (String "-" (NilEmpty.string_of_uint (Pos.to_uint p)) ++ "-")%string
      with (String "-" (NilEmpty.string_of_uint (Pos.to_uint p) ++ "-")).
    apply int_digits_then_minus; [|apply string_of_uint_digits].
    intros H. apply string_of_uint_nil in H.
    now apply DecimalPos.Unsigned.to_uint_nonnil in H.
Qed.

(** A negative end bound: the last minus sign of [a.b.c.s-e] is the sign of
    [e], so the base ends in a minus sign and its last piece is no integer. *)
Lemma parse_range4_negative_end (a b c s e : Z) :
  e < 0 -> raises (parse_ip_range (range4_expr a b c s e)).
Proof.
  intros He. destruct e as [|p|p]; try lia.
  set (ds := NilEmpty.string_of_uint (Pos.to_uint p)).
  assert (Hds : all_digits ds = true) by apply string_of_uint_digits.
  assert (E : range4_expr a b c s (Z.neg p)
              = (join "." [str_int a; str_int b; str_int c; (str_int s ++ "-")%string]
                 ++ String "-" ds)%string).
  { unfold range4_expr, dotted, str_int at 5. simpl Z.to_int.
    cbn [NilEmpty.string_of_int map join]. fold ds.
    rewrite !append_assoc. reflexivity. }
  rewrite E. unfold parse_ip_range.
  assert (P : Forall (fun p => contains "." p = false)
                [str_int a; str_int b; str_int c; (str_int s ++ "-")%string]).
  { repeat constructor; rewrite ?contains_app; now rewrite ?str_int_no_dot. }
  assert (Q : Forall (fun p => contains "/" p = false)
                [str_int a; str_int b; str_int c; (str_int s ++ "-")%string]).
  { repeat constructor; rewrite ?contains_app; now rewrite ?str_int_no_slash. }
  rewrite contains_app, (contains_join "/" "." _ eq_refl Q).
  cbn [contains orb]. change (Ascii.eqb "-" "/") with false. cbn [orb].
  rewrite (all_digits_no "/" ds eq_refl Hds).
  rewrite contains_app. cbn [contains]. rewrite Ascii.eqb_refl, orb_true_r.
  unfold rsplit1. rewrite rsplit_last_app by (now apply all_digits_no).
  cbn [unpack2 bind]. rewrite split_join by (auto; discriminate).
  cbn [length Nat.eqb nth].
  destruct (int_str_int_then_minus s) as [x ->]. unfold raises. cbn [bind]. eauto.
Qed.

(** C1, the part that fails: for [192.168.1.20-10] the end bound is below the
    start, and the parser returns the empty list instead of raising. *)
Lemma parse_reversed_range_no_error :
  parse_ip_range "192.168.1.20-10" = Returns [] /\
  ~ raises (parse_ip_range "192.168.1.20-10").
Proof.
  assert (E : parse_ip_range "192.168.1.20-10" = Returns []) by (vm_compute; reflexivity).
  split; [exact E|]. intros [x Hx]. rewrite E in Hx. discriminate.
Qed.

(** C1 (amended): on [a.b.c.s-e] with octets [a], [b], [c] and
    [0 <= s <= e <= 255] the parser returns the addresses [a.b.c.s] to
    [a.b.c.e] in order; on [a.b.c-e] with [1 <= e <= 255] it returns
    [a.b.c.1] to [a.b.c.e]; [192.168.1.10-20] gives the 11 addresses
    [192.168.1.10 .. 192.168.1.20] and [192.168.1-5] gives
    [192.168.1.1 .. 192.168.1.5].  It raises when the start is at most the
    end bound and an endpoint lies outside 0-255.  When the end bound is
    below the start (both octets) it returns the empty list. *)
Theorem parse_suffix_range :
  (forall a b c s e : Z,
      octet a -> octet b -> octet c -> 0 <= s -> s <= e -> e <= 255 ->
      parse_ip_range (range4_expr a b c s e)
      = Returns (map (addr4 a b c) (range s (e + 1)))) /\
  (forall a b c e : Z,
      octet a -> octet b -> octet c -> 1 <= e -> e <= 255 ->
      parse_ip_range (range3_expr a b c e)
      = Returns (map (addr4 a b c) (range 1 (e + 1)))) /\
  (parse_ip_range "192.168.1.10-20" = Returns (map (addr4 192 168 1) (range 10 21)) /\
   length (range 10 21) = 11%nat /\
   map str_address (map (addr4 192 168 1) (range 10 21))
   = ["192.168.1.10"; "192.168.1.11"; "192.168.1.12"; "192.168.1.13";
      "192.168.1.14"; "192.168.1.15"; "192.168.1.16"; "192.168.1.17";
      "192.168.1.18"; "192.168.1.19"; "192.168.1.20"]%string) /\
  (parse_ip_range "192.168.1-5" = Returns (map (addr4 192 168 1) (range 1 6)) /\
   map str_address (map (addr4 192 168 1) (range 1 6))
   = ["192.168.1.1"; "192.168.1.2"; "192.168.1.3"; "192.168.1.4";
      "192.168.1.5"]%string) /\
  (forall a b c s e : Z,
      s <= e -> (s < 0 \/ 255 < s \/ e < 0 \/ 255 < e) ->
      raises (parse_ip_range (range4_expr a b c s e))) /\
  (forall a b c e : Z,
      1 <= e -> 255 < e -> raises (parse_ip_range (range3_expr a b c e))) /\
  (forall a b c s e : Z,
      0 <= e -> e < s -> s <= 255 ->
      parse_ip_range (range4_expr a b c s e) = Returns []).
Proof.
  split; [exact parse_range4_ok|].
  split; [exact parse_range3_ok|].
  split; [repeat split; vm_compute; reflexivity|].
  split; [repeat split; vm_compute; reflexivity|].
  split.
  { intros a b c s e Hse Hout. destruct (Z_lt_le_dec e 0).
    - now apply parse_range4_negative_end.
    - apply parse_range4_out_of_bounds; lia. }
  split.
  { intros a b c e _ He. now apply parse_range3_out_of_bounds. }
  exact parse_range4_reversed.
Qed.

Lemma parse_suffix_range_witness :
  parse_ip_range (range4_expr 10 0 0 250 254)
  = Returns (map (addr4 10 0 0) (range 250 (254 + 1))) /\
  raises (parse_ip_range (range4_expr 10 0 0 250 300)) /\
  parse_ip_range (range4_expr 10 0 0 9 3) = Returns [].
Proof.
  destruct parse_suffix_range as (H4 & _ & _ & _ & Hbad & _ & Hrev).
  split; [apply H4; unfold octet; lia|].
  split; [apply Hbad; lia | apply Hrev; lia].
Defined.

(** ** Addresses *)

Lemma ascii_digit_char (c : ascii) :
  (code c <? 128)%N = true ->
  is_digit c || (code c =? 178)%N || (code c =? 179)%N || (code c =? 185)%N = true ->
  is_digit c = true.
Proof.
  destruct c as [[|] [|] [|] [|] [|] [|] [|] [|]];
    vm_compute; intros H1 H2; try discriminate; reflexivity.
Qed.

Lemma isascii_isdigit_all_digits (s : string) :
  isascii s && isdigit s = true -> s <> EmptyString /\ all_digits s = true.
Proof.
  intros H. apply andb_true_iff in H as [Ha Hd].
  destruct s as [|c s]; [discriminate|]. split; [discriminate|].
  unfold isascii in Ha. unfold isdigit in Hd. unfold all_digits.
  revert Ha Hd. generalize (chars (String c s)). intros l.
  induction l as [|d l IH]; simpl; intros Ha Hd; [reflexivity|].
  apply andb_true_iff in Ha as [Ha1 Ha2]. apply andb_true_iff in Hd as [Hd1 Hd2].
  now rewrite (ascii_digit_char d Ha1 Hd1), IH.
Qed.

Lemma uint_of_digits (s : string) :
  all_digits s = true -> exists d, NilEmpty.uint_of_string s = Some d.
Proof.
  induction s as [|c s IH]; simpl; intros H; [eauto|].
  rewrite all_digits_cons in H. apply andb_true_iff in H as [Hc Hs].
  destruct (IH Hs) as [d ->].
  destruct c as [[|] [|] [|] [|] [|] [|] [|] [|]]; try discriminate Hc;
    simpl; eauto.
Qed.

Lemma of_uint_nonneg (d : Decimal.uint) : 0 <= Z.of_uint d.
Proof. unfold Z.of_uint. apply N2Z.is_nonneg. Qed.

(** An accepted octet is between 0 and 255. *)
Lemma parse_octet_range (s : string) (v : Z) :
  _parse_octet s = Returns v -> octet v.
Proof.
  unfold _parse_octet. destruct s as [|c0 s0]; [discriminate|].
  destruct (isascii (String c0 s0) && isdigit (String c0 s0)) eqn:Hd;
    cbn [negb]; [|discriminate].
  destruct (3 <? _)%nat; [discriminate|].
  destruct (negb _ && Ascii.eqb c0 _); [discriminate|].
  apply isascii_isdigit_all_digits in Hd as [Hn Hd].
  destruct (uint_of_digits _ Hd) as [d Hu].
  rewrite (int_digits _ d Hn Hd Hu).
  destruct (_ <? _)%nat; cbn [bind]; [discriminate|].
  destruct (255 <? Z.of_uint d) eqn:Hz; [discriminate|].
  intros H; inversion H; subst v. apply Z.ltb_ge in Hz.
  pose proof (of_uint_nonneg d). unfold octet. lia.
Qed.

Lemma ip_int_from_string_range (s : string) (v : Z) :
  _ip_int_from_string s = Returns v -> address v.
Proof.
  unfold _ip_int_from_string. destruct s as [|c s]; [discriminate|].
  destruct (split "." (String c s)) as [|p0 [|p1 [|p2 [|p3 [|p4 ps]]]]];
    cbn [length Nat.eqb negb]; try discriminate.
  destruct (mapM _parse_octet [p0; p1; p2; p3]) as [bs|x] eqn:E; cbn [bind try_except].
  - intros H; inversion H; subst v. apply mapM_returns in E.
    inversion E as [|? o0 ? ? H0 E1]; subst.
    inversion E1 as [|? o1 ? ? H1 E2]; subst.
    inversion E2 as [|? o2 ? ? H2 E3]; subst.
    inversion E3 as [|? o3 ? ? H3 E4]; subst. inversion E4; subst.
    apply parse_octet_range in H0, H1, H2, H3.
    unfold octet in *. unfold address, from_bytes_big. cbn [fold_left]. lia.
  - destruct (isinstance x ValueError); discriminate.
Qed.

Lemma IPv4Address_range (s : string) (v : Z) :
  IPv4Address s = Returns v -> address v.
Proof.
  unfold IPv4Address. destruct (contains "/" s); [discriminate|].
  apply ip_int_from_string_range.
Qed.

(** ** Networks *)

Lemma range_forallb (f : Z -> bool) (lo hi : Z) :
  forallb f (range lo hi) = true -> forall i, lo <= i < hi -> f i = true.
Proof.
  intros H i Hi. rewrite forallb_forall in H. apply H. now apply in_range.
Qed.

(** The netmask and host mask of each prefix length. *)
Lemma masks_of_prefix (p : Z) :
  0 <= p <= 32 ->
  _ip_int_from_prefix p = 2 ^ 32 - 2 ^ (32 - p) /\
  Z.lxor (_ip_int_from_prefix p) _ALL_ONES = Z.ones (32 - p) /\
  (- 2 ^ (32 - p)) mod 2 ^ 32 = 2 ^ 32 - 2 ^ (32 - p).
Proof.
  intros Hp.
  assert (C : forallb (fun p =>
                (_ip_int_from_prefix p =? 2 ^ 32 - 2 ^ (32 - p))
                && (Z.lxor (_ip_int_from_prefix p) _ALL_ONES =? Z.ones (32 - p))
                && ((- 2 ^ (32 - p)) mod 2 ^ 32 =? 2 ^ 32 - 2 ^ (32 - p)))
              (range 0 33) = true) by (vm_compute; reflexivity).
  pose proof (range_forallb _ _ _ C p ltac:(lia)) as H. cbv beta in H.
  apply andb_true_iff in H as [H H3]. apply andb_true_iff in H as [H1 H2].
  apply Z.eqb_eq in H1, H2, H3. auto.
Qed.

(** Masking an address with the netmask of host width [k] clears its low
    [k] bits. *)
Lemma land_netmask (a k : Z) :
  address a -> 0 <= k <= 32 ->
  Z.land a (2 ^ 32 - 2 ^ k) = 2 ^ k * (a / 2 ^ k).
Proof.
  intros Ha Hk. unfold address in Ha.
  destruct (masks_of_prefix (32 - k) ltac:(lia)) as (_ & _ & Hm).
  replace (32 - (32 - k)) with k in Hm by lia.
  rewrite <- Hm, <- Z.land_ones by lia.
  rewrite Z.land_assoc, (Z.land_comm a), <- Z.land_assoc.
  rewrite (Z.land_ones a) by lia. rewrite Z.mod_small by lia.
  replace (- 2 ^ k) with (Z.lnot (Z.ones k)).
  - rewrite Z.land_comm, <- Z.ldiff_land, Z.ldiff_ones_r by lia.
    rewrite Z.shiftl_mul_pow2, Z.shiftr_div_pow2 by lia. lia.
  - rewrite Z.ones_equiv. unfold Z.lnot. lia.
Qed.

Lemma lor_hostmask (m k : Z) :
  0 <= k -> Z.lor (2 ^ k * m) (Z.ones k) = 2 ^ k * m + 2 ^ k - 1.
Proof.
  intros Hk. assert (Hpos : 0 < 2 ^ k) by (apply Z.pow_pos_nonneg; lia).
  pose proof (Z.add_lor_land (2 ^ k * m) (Z.ones k)) as H.
  rewrite Z.land_ones in H by lia.
  replace ((2 ^ k * m) mod 2 ^ k) with 0 in H
    by (rewrite (Z.mul_comm (2 ^ k)); symmetry; apply Z.mod_mul; lia).
  rewrite Z.ones_equiv in *. lia.
Qed.

(** Between the network address and the broadcast address lie exactly the
    addresses with the network's prefix. *)
Lemma same_prefix_interval (a q k : Z) :
  0 <= k -> (2 ^ k * (a / 2 ^ k) = 2 ^ k * q <-> 2 ^ k * q <= a < 2 ^ k * q + 2 ^ k).
Proof.
  intros Hk. assert (Hpos : 0 < 2 ^ k) by (apply Z.pow_pos_nonneg; lia).
  split.
  - intros H. pose proof (Z.div_mod a (2 ^ k) ltac:(lia)) as D.
    pose proof (Z.mod_pos_bound a (2 ^ k) Hpos). lia.
  - intros H. f_equal. symmetry.
    apply (Z.div_unique a (2 ^ k) q (a - 2 ^ k * q)); lia.
Qed.

Lemma try_except_returns {A : Type} (body : outcome A) (c : exn_class)
    (handler : exn -> outcome A) (a : A) :
  try_except body c handler = Returns a ->
  body = Returns a \/ exists x, body = Raises x /\ handler x = Returns a.
Proof.
  destruct body as [b|x]; cbn [try_except]; [auto|].
  destruct (isinstance x c); [eauto | discriminate].
Qed.

Lemma prefix_from_prefix_string_range (s : string) (p : Z) :
  _prefix_from_prefix_string s = Returns p -> 0 <= p <= 32.
Proof.
  unfold _prefix_from_prefix_string, _report_invalid_netmask.
  destruct (negb _); [discriminate|].
  destruct (try_except (int s) ValueError _) as [q|]; cbn [bind]; [|discriminate].
  destruct ((0 <=? q) && (q <=? _max_prefixlen)) eqn:E; cbn [negb]; [|discriminate].
  intros H; inversion H; subst. apply andb_true_iff in E as [E1 E2].
  apply Z.leb_le in E1, E2. unfold _max_prefixlen, IPV4LENGTH in E2. lia.
Qed.

Lemma prefix_from_ip_int_range (x p : Z) :
  _prefix_from_ip_int x = Returns p -> 0 <= p <= 32.
Proof.
  unfold _prefix_from_ip_int.
  assert (T : 0 <= _count_righthand_zero_bits x _max_prefixlen <= 32).
  { unfold _count_righthand_zero_bits, _max_prefixlen, IPV4LENGTH, bit_length.
    destruct (x =? 0); [lia|].
    destruct (_ =? 0); [lia|].
    pose proof (Z.log2_nonneg (Z.abs (Z.land (Z.lnot x) (x - 1)))). lia. }
  revert T. generalize (_count_righthand_zero_bits x _max_prefixlen). intros tz T.
  destruct (negb _); [discriminate|].
  intros H. assert (E : p = _max_prefixlen - tz) by congruence.
  change _max_prefixlen with 32 in E. lia.
Qed.

Lemma prefix_from_ip_string_range (s : string) (p : Z) :
  _prefix_from_ip_string s = Returns p -> 0 <= p <= 32.
Proof.
  unfold _prefix_from_ip_string, _report_invalid_netmask.
  destruct (try_except (_ip_int_from_string s) AddressValueError _) as [x|];
    cbn [bind]; [|discriminate].
  intros H. apply try_except_returns in H as [H|(e & _ & H)].
  - now apply prefix_from_ip_int_range in H.
  - apply try_except_returns in H as [H|(e' & _ & H)]; [|discriminate].
    now apply prefix_from_ip_int_range in H.
Qed.

Lemma make_netmask_range (arg : mask_arg) (nm pl : Z) :
  _make_netmask arg = Returns (nm, pl) ->
  0 <= pl <= 32 /\ nm = _ip_int_from_prefix pl.
Proof.
  unfold _make_netmask. destruct arg as [s|n].
  - destruct (try_except (_prefix_from_prefix_string s) NetmaskValueError _)
      as [q|] eqn:E; cbn [bind]; [|discriminate].
    intros H; inversion H; subst. split; [|reflexivity].
    apply try_except_returns in E as [E|(e & _ & E)].
    + now apply prefix_from_prefix_string_range in E.
    + now apply prefix_from_ip_string_range in E.
  - destruct ((0 <=? n) && (n <=? _max_prefixlen)) eqn:E; cbn [negb bind];
      [|discriminate].
    intros H; inversion H; subst. split; [|reflexivity].
    apply andb_true_iff in E as [E1 E2].
    apply Z.leb_le in E1, E2. unfold _max_prefixlen, IPV4LENGTH in E2. lia.
Qed.

(** What a successfully built network looks like: host width [k], the given
    address [packed], and the three derived values. *)
Lemma network_shape (s : string) (strict : bool) (n : IPv4Network_obj) :
  IPv4Network s strict = Returns n ->
  exists packed k,
    0 <= k <= 32 /\ _prefixlen n = 32 - k /\
    address packed /\ IPv4Address (net_addr n) = Returns packed /\
    netmask n = 2 ^ 32 - 2 ^ k /\
    network_address n = 2 ^ k * (packed / 2 ^ k) /\
    broadcast_address n = network_address n + 2 ^ k - 1.
Proof.
  unfold IPv4Network.
  destruct (_split_addr_prefix s) as [[addr mask]|]; cbn [bind]; [|discriminate].
  destruct (IPv4Address addr) as [packed|] eqn:Ea; cbn [bind]; [|discriminate].
  destruct (_make_netmask mask) as [[nm pl]|] eqn:Em; cbn [bind]; [|discriminate].
  apply make_netmask_range in Em as [Hpl ->].
  pose proof (IPv4Address_range _ _ Ea) as Hpacked.
  destruct (masks_of_prefix pl Hpl) as (Hnm & Hhm & _).
  assert (Hland : Z.land packed (_ip_int_from_prefix pl)
                  = 2 ^ (32 - pl) * (packed / 2 ^ (32 - pl))).
  { rewrite Hnm. apply land_netmask; [assumption | lia]. }
  assert (G : forall na, na = 2 ^ (32 - pl) * (packed / 2 ^ (32 - pl)) ->
    exists packed' k,
      0 <= k <= 32 /\ pl = 32 - k /\ address packed' /\
      IPv4Address addr = Returns packed' /\
      _ip_int_from_prefix pl = 2 ^ 32 - 2 ^ k /\
      na = 2 ^ k * (packed' / 2 ^ k) /\
      Z.lor na (Z.lxor (_ip_int_from_prefix pl) _ALL_ONES) = na + 2 ^ k - 1).
  { intros na Hna. exists packed, (32 - pl).
    split; [lia|]. split; [lia|]. split; [assumption|]. split; [assumption|].
    split; [assumption|]. split; [assumption|].
    rewrite Hhm, Hna. apply lor_hostmask. lia. }
  destruct (negb (Z.land packed (_ip_int_from_prefix pl) =? packed)) eqn:Eb.
  - destruct strict; [discriminate|].
    intros H; inversion H; subst n. clear H.
    unfold broadcast_address, hostmask. cbn [net_addr network_address netmask _prefixlen].
    apply G. exact Hland.
  - intros H; inversion H; subst n. clear H.
    unfold broadcast_address, hostmask. cbn [net_addr network_address netmask _prefixlen].
    apply G. apply negb_false_iff, Z.eqb_eq in Eb. congruence.
Qed.

(** Membership in a network, as an interval. *)
Lemma in_network_interval (s : string) (strict : bool) (n : IPv4Network_obj) (a : Z) :
  IPv4Network s strict = Returns n -> address a ->
  (in_network n a = true <-> network_address n <= a <= broadcast_address n).
Proof.
  intros Hn Ha.
  destruct (network_shape _ _ _ Hn) as (packed & k & Hk & _ & _ & _ & Hnm & Hna & Hbc).
  unfold in_network. rewrite Z.eqb_eq, Hnm, land_netmask, Hbc, Hna by assumption.
  rewrite same_prefix_interval by lia. lia.
Qed.

Lemma network_bounds (s : string) (strict : bool) (n : IPv4Network_obj) :
  IPv4Network s strict = Returns n ->
  0 <= network_address n /\ broadcast_address n < 2 ^ 32.
Proof.
  intros Hn.
  destruct (network_shape _ _ _ Hn) as (packed & k & Hk & _ & Hp & _ & _ & Hna & Hbc).
  unfold address in Hp.
  assert (Hpos : 0 < 2 ^ k) by (apply Z.pow_pos_nonneg; lia).
  assert (Hq : 0 <= packed / 2 ^ k) by (apply Z.div_pos; lia).
  assert (Hq2 : packed / 2 ^ k < 2 ^ (32 - k)).
  { apply Z.div_lt_upper_bound; [lia|].
    rewrite <- Z.pow_add_r by lia. replace (k + (32 - k)) with 32 by lia. lia. }
  assert (E : 2 ^ k * 2 ^ (32 - k) = 2 ^ 32).
  { rewrite <- Z.pow_add_r by lia. f_equal. lia. }
  split; [nia|]. rewrite Hbc, Hna. nia.
Qed.

Lemma range_sorted (a b : Z) : StronglySorted Z.lt (range a b).
Proof.
  remember (Z.to_nat (b - a)) as m eqn:Hm. revert a Hm.
  induction m as [|m IH]; intros a Hm.
  - rewrite range_empty by lia. constructor.
  - rewrite range_cons by lia. constructor.
    + apply IH. lia.
    + apply Forall_forall. intros i Hi. apply in_range in Hi. lia.
Qed.

Lemma sorted_lt_nodup (l : list Z) : StronglySorted Z.lt l -> NoDup l.
Proof.
  induction 1 as [|a l _ IH Hall]; constructor; [|assumption].
  intros Hin. rewrite Forall_forall in Hall. specialize (Hall _ Hin). lia.
Qed.

(** C3, the part that fails: the host list of [10.0.0.0/31] is the network
    address followed by the broadcast address; neither is left out. *)
Lemma cidr31_keeps_network_and_broadcast :
  let n := {| net_addr := "10.0.0.0"; network_address := 167772160;
              netmask := 4294967294; _prefixlen := 31 |} in
  IPv4Network "10.0.0.0/31" false = Returns n /\
  broadcast_address n = 167772161 /\
  parse_ip_range "10.0.0.0/31" = Returns [network_address n; broadcast_address n].
Proof. repeat split; vm_compute; reflexivity. Qed.

(** C3 (amended): for every expression with a slash that [IPv4Network]
    accepts, the parser returns a non-empty, strictly ascending (hence
    duplicate-free) list of addresses of that network.  For a prefix length
    of at most 30 these are exactly the addresses of the network other than
    its network and broadcast addresses; for /31 they are the network and the
    broadcast address; for /32 the single address of the network. *)
Theorem parse_cidr_hosts (s : string) (n : IPv4Network_obj) :
  contains "/" s = true ->
  IPv4Network s false = Returns n ->
  exists hs,
    parse_ip_range s = Returns hs /\
    hs <> [] /\ StronglySorted Z.lt hs /\ NoDup hs /\ Forall address hs /\
    (forall a, address a ->
       (in_network n a = true <-> network_address n <= a <= broadcast_address n)) /\
    (_prefixlen n <= 30 ->
       forall a, In a hs <->
                 (address a /\ in_network n a = true /\
                  a <> network_address n /\ a <> broadcast_address n)) /\
    (_prefixlen n = 31 ->
       hs = [network_address n; broadcast_address n] /\
       network_address n <> broadcast_address n) /\
    (_prefixlen n = 32 ->
       hs = [network_address n] /\ broadcast_address n = network_address n).
Proof.
  intros Hs Hn.
  pose proof (network_bounds _ _ _ Hn) as [Hlo Hhi].
  pose proof (fun a => in_network_interval _ _ _ a Hn) as Hin.
  destruct (network_shape _ _ _ Hn) as (packed & k & Hk & Hp & Hpk & Haddr & _ & Hna & Hbc).
  assert (Hpos : 0 < 2 ^ k) by (apply Z.pow_pos_nonneg; lia).
  assert (P : parse_ip_range s = hosts n).
  { unfold parse_ip_range, ip_network. now rewrite Hs, Hn. }
  assert (G : forall hs, hosts n = Returns hs ->
              hs <> [] -> StronglySorted Z.lt hs ->
              (forall a, In a hs -> network_address n <= a <= broadcast_address n) ->
              parse_ip_range s = Returns hs /\ hs <> [] /\ StronglySorted Z.lt hs /\
              NoDup hs /\ Forall address hs /\
              (forall a, address a ->
                 (in_network n a = true <->
                  network_address n <= a <= broadcast_address n))).
  { intros hs H1 H2 H3 H4. rewrite P.
    split; [assumption|]. split; [assumption|]. split; [assumption|].
    split; [now apply sorted_lt_nodup|].
    split; [|intros a Ha; now apply Hin].
    apply Forall_forall. intros a Ha. specialize (H4 a Ha). unfold address. lia. }
  unfold hosts in *. change _max_prefixlen with 32 in *.
  destruct (Z.eq_dec k 1) as [->|K1]; [|destruct (Z.eq_dec k 0) as [->|K0]].
  - (* /31 *)
    assert (X1 : (_prefixlen n =? 32 - 1) = true) by (apply Z.eqb_eq; lia).
    rewrite X1 in *.
    assert (E : range (network_address n) (broadcast_address n + 1)
                = [network_address n; broadcast_address n]).
    { rewrite Hbc. change (2 ^ 1) with 2.
      rewrite range_cons, range_cons, range_empty by lia.
      f_equal. f_equal. lia. }
    rewrite E in *. change (2 ^ 1) with 2 in *.
    exists [network_address n; broadcast_address n].
    destruct (G _ eq_refl) as (G1 & G2 & G3 & G4 & G5 & G6).
    + discriminate.
    + repeat constructor. lia.
    + simpl. intros a [<-|[<-|[]]]; lia.
    + do 6 (split; [assumption|]).
      split; [intros; lia|]. split; [intros _; split; [reflexivity | lia]|].
      intros; lia.
  - (* /32 *)
    assert (X1 : (_prefixlen n =? 32 - 1) = false) by (apply Z.eqb_neq; lia).
    rewrite X1 in *.
    assert (X2 : (_prefixlen n =? 32) = true) by (apply Z.eqb_eq; lia).
    rewrite X2 in *.
    rewrite Haddr in *. cbn [bind] in *. change (2 ^ 0) with 1 in *.
    assert (E : packed = network_address n) by (rewrite Hna, Z.div_1_r; lia).
    rewrite E in *. exists [network_address n].
    destruct (G _ eq_refl) as (G1 & G2 & G3 & G4 & G5 & G6).
    + discriminate.
    + repeat constructor.
    + simpl. intros a [<-|[]]; lia.
    + do 6 (split; [assumption|]).
      split; [intros; lia|]. split; [intros; lia|].
      intros _. split; [reflexivity | lia].
  - (* at most /30 *)
    assert (X1 : (_prefixlen n =? 32 - 1) = false) by (apply Z.eqb_neq; lia).
    rewrite X1 in *.
    assert (X2 : (_prefixlen n =? 32) = false) by (apply Z.eqb_neq; lia).
    rewrite X2 in *.
    assert (H4 : 4 <= 2 ^ k).
    { change 4 with (2 ^ 2). apply Z.pow_le_mono_r; lia. }
    exists (range (network_address n + 1) (broadcast_address n)).
    destruct (G _ eq_refl) as (G1 & G2 & G3 & G4 & G5 & G6).
    + rewrite range_cons by lia. discriminate.
    + apply range_sorted.
    + intros a Ha. apply in_range in Ha. lia.
    + do 6 (split; [assumption|]).
      split; [|split; intros; lia].
      intros _ a. rewrite Forall_forall in G5. split.
      * intros Ha. pose proof (G5 a Ha) as Hadr. apply in_range in Ha.
        split; [assumption|]. split; [apply (Hin a Hadr); lia|]. lia.
      * intros (Ha & Hi & Hn1 & Hn2). apply (Hin a Ha) in Hi.
        apply in_range. lia.
Qed.

Lemma parse_cidr_hosts_witness :
  exists n hs,
    IPv4Network "10.0.0.9/29" false = Returns n /\
    parse_ip_range "10.0.0.9/29" = Returns hs /\
    map str_address hs
    = ["10.0.0.9"; "10.0.0.10"; "10.0.0.11"; "10.0.0.12"; "10.0.0.13"; "10.0.0.14"]%string.
Proof.
  set (n := {| net_addr := "10.0.0.9"; network_address := 167772168;
               netmask := 4294967288; _prefixlen := 29 |}).
  assert (Hn : IPv4Network "10.0.0.9/29" false = Returns n) by (vm_compute; reflexivity).
  destruct (parse_cidr_hosts "10.0.0.9/29" n eq_refl Hn) as (hs & Hp & _).
  exists n, hs. split; [exact Hn|]. split; [exact Hp|].
  assert (E : parse_ip_range "10.0.0.9/29"
              = Returns [167772169; 167772170; 167772171; 167772172; 167772173; 167772174])
    by (vm_compute; reflexivity).
  rewrite E in Hp. inversion Hp; subst hs. vm_compute. reflexivity.
Defined.

(** ** The validator against the parser *)

Lemma validate_message_nonempty (s : string) :
  fst (validate_ip_range s) = false -> snd (validate_ip_range s) <> EmptyString.
Proof.
  unfold validate_ip_range. destruct s as [|c s]; [discriminate|].
  match goal with |- context [match ?o with Returns _ => _ | Raises _ => _ end] =>
    destruct o end; cbn [fst snd]; discriminate.
Qed.

Lemma hosts_returns (s : string) (strict : bool) (n : IPv4Network_obj) :
  IPv4Network s strict = Returns n -> exists hs, hosts n = Returns hs.
Proof.
  intros Hn. destruct (network_shape _ _ _ Hn) as (packed & k & _ & _ & _ & Ha & _).
  unfold hosts. destruct (_ =? _); [eauto|]. destruct (_ =? _); [|eauto].
  rewrite Ha. cbn [bind]. eauto.
Qed.

(** On expressions with a slash the two agree. *)
Lemma validate_parse_agree_cidr (s : string) :
  contains "/" s = true ->
  (fst (validate_ip_range s) = true <-> exists hs, parse_ip_range s = Returns hs).
Proof.
  intros Hs. unfold validate_ip_range, parse_ip_range, ip_network. rewrite Hs.
  destruct s as [|c s]; [discriminate|].
  destruct (IPv4Network (String c s) false) as [n|x] eqn:Hn.
  - cbn [bind fst]. split; [intros _|reflexivity].
    apply (hosts_returns _ _ _ Hn).
  - destruct (isinstance x AddressValueError || isinstance x NetmaskValueError);
      cbn [bind fst]; (split; [discriminate | intros [hs H]; discriminate]).
Qed.

(** On single addresses the two agree. *)
Lemma validate_parse_agree_single (s : string) :
  contains "/" s = false -> contains "-" s = false ->
  (fst (validate_ip_range s) = true <-> exists hs, parse_ip_range s = Returns hs).
Proof.
  intros Hs Hd. unfold validate_ip_range, parse_ip_range. rewrite Hs, Hd.
  destruct s as [|c s].
  - cbn. split; [discriminate | intros [hs H]; discriminate].
  - destruct (IPv4Address (String c s)) as [a|x]; cbn [bind fst].
    + split; eauto.
    + split; [discriminate | intros [hs H]; discriminate].
Qed.

(** C2: on the suffix range [192.168.1.10-300] the validator answers
    "Valid IP range" while the parser raises; the empty expression is
    rejected with a message, and [10.0.0.0/24] is accepted. *)
Theorem validate_accepts_range_parse_rejects :
  validate_ip_range "192.168.1.10-300" = (true, "Valid IP range"%string) /\
  parse_ip_range "192.168.1.10-300"
  = Raises (Exn AddressValueError "Octet 256 (> 255) not permitted in '192.168.1.256'") /\
  validate_ip_range "999.1.1.20-10"
  = (false, "Invalid IP range: Octet 999 (> 255) not permitted in '999.1.1.20'"%string) /\
  parse_ip_range "999.1.1.20-10" = Returns [] /\
  validate_ip_range EmptyString = (false, "Please enter an IP range"%string) /\
  validate_ip_range "10.0.0.0/24" = (true, "Valid IP range"%string).
Proof. repeat split; vm_compute; reflexivity. Qed.

(** ** The local network helper *)

Lemma to_bytes4_addr4 (a b c d : Z) :
  octet a -> octet b -> octet c -> octet d ->
  to_bytes4 (addr4 a b c d) = [a; b; c; d].
Proof.
  unfold octet, to_bytes4, addr4. intros Ha Hb Hc Hd.
  assert (E3 : (((a * 256 + b) * 256 + c) * 256 + d) / 256 = (a * 256 + b) * 256 + c).
  { symmetry. apply (Z.div_unique _ 256 _ d); lia. }
  assert (E2 : (((a * 256 + b) * 256 + c) * 256 + d) / 65536 = a * 256 + b).
  { symmetry. apply (Z.div_unique _ 65536 _ (c * 256 + d)); lia. }
  assert (E1 : (((a * 256 + b) * 256 + c) * 256 + d) / 16777216 = a).
  { symmetry. apply (Z.div_unique _ 16777216 _ ((b * 256 + c) * 256 + d)); lia. }
  rewrite E1, E2, E3.
  f_equal; [apply Z.mod_small; lia|].
  f_equal; [symmetry; apply (Z.mod_unique _ 256 a); lia|].
  f_equal; [symmetry; apply (Z.mod_unique _ 256 (a * 256 + b)); lia|].
  f_equal. symmetry. apply (Z.mod_unique _ 256 ((a * 256 + b) * 256 + c)); lia.
Qed.

Lemma str_address_addr4 (a b c d : Z) :
  octet a -> octet b -> octet c -> octet d ->
  str_address (addr4 a b c d) = dotted [a; b; c; d].
Proof.
  intros. unfold str_address, _string_from_ip_int. now rewrite to_bytes4_addr4.
Qed.

Lemma addr4_range (a b c d : Z) :
  octet a -> octet b -> octet c -> octet d -> address (addr4 a b c d).
Proof. unfold octet, address, addr4. lia. Qed.

(** The /24 network of a dotted address. *)
Lemma network24 (a b c d : Z) :
  octet a -> octet b -> octet c -> octet d ->
  exists n,
    IPv4Network (dotted [a; b; c; d] ++ "/24") false = Returns n /\
    _prefixlen n = 24 /\ network_address n = addr4 a b c 0 /\
    in_network n (addr4 a b c d) = true.
Proof.
  intros Ha Hb Hc Hd.
  assert (Hsplit : split "/" (dotted [a; b; c; d] ++ "/24") = [dotted [a; b; c; d]; "24"%string]).
  { change (dotted [a; b; c; d] ++ "/24")%string
      with (dotted [a; b; c; d] ++ String "/" "24")%string.
    rewrite split_app_sep by apply dotted_no_slash. reflexivity. }
  assert (Hland : Z.land (addr4 a b c d) 4294967040 = addr4 a b c 0).
  { change 4294967040 with (2 ^ 32 - 2 ^ 8).
    rewrite land_netmask by (try apply addr4_range; auto; lia).
    change (2 ^ 8) with 256. unfold addr4.
    replace ((((a * 256 + b) * 256 + c) * 256 + d) / 256) with ((a * 256 + b) * 256 + c).
    - lia.
    - unfold octet in *. apply (Z.div_unique _ 256 _ d); lia. }
  unfold IPv4Network, _split_addr_prefix, _split_optional_netmask.
  rewrite Hsplit. cbn [length Nat.ltb Nat.leb bind].
  rewrite IPv4Address_dotted by assumption. cbn [bind].
  change (_make_netmask (MaskStr "24")) with (Returns (A:=Z * Z) (4294967040, 24)).
  cbn [bind]. rewrite Hland.
  destruct (negb (addr4 a b c 0 =? addr4 a b c d)) eqn:E.
  - eexists. split; [reflexivity|]. cbn. split; [reflexivity|]. split; [reflexivity|].
    unfold in_network. cbn. apply Z.eqb_eq. exact Hland.
  - apply negb_false_iff, Z.eqb_eq in E.
    eexists. split; [reflexivity|]. cbn. split; [reflexivity|]. split; [congruence|].
    unfold in_network. cbn. apply Z.eqb_eq. congruence.
Qed.

(** C10, the part that fails: the helper takes no parameter, so calling it on
    a scanner instance raises [TypeError] whatever the resolver answers. *)
Lemma helper_on_instance_raises :
  call_get_local_ip_range on_instance (Returns "box"%string)
    (fun _ => Returns "192.168.1.37"%string)
  = Raises (Exn TypeError
      "NetworkScanner.get_local_ip_range() takes 0 positional arguments but 1 was given").
Proof. reflexivity. Qed.

(** C10 (amended): called through the class, when the host name resolves to
    the address [a.b.c.d], the helper returns the text [a.b.c.0/24]: the
    string form of the /24 network that contains that address. *)
Theorem local_ip_range_is_slash24 (host_name : string)
    (gethostbyname : string -> outcome string) (a b c d : Z) :
  octet a -> octet b -> octet c -> octet d ->
  gethostbyname host_name = Returns (dotted [a; b; c; d]) ->
  exists n,
    IPv4Network (dotted [a; b; c; d] ++ "/24") false = Returns n /\
    _prefixlen n = 24 /\
    in_network n (addr4 a b c d) = true /\
    call_get_local_ip_range on_class (Returns host_name) gethostbyname
    = Returns (str_network n) /\
    str_network n = (dotted [a; b; c; 0] ++ "/24")%string.
Proof.
  intros Ha Hb Hc Hd Hres.
  destruct (network24 a b c d Ha Hb Hc Hd) as (n & Hn & Hp & Hna & Hin).
  exists n. split; [exact Hn|]. split; [exact Hp|]. split; [exact Hin|].
  split.
  - unfold call_get_local_ip_range, get_local_ip_range. cbn [bind].
    rewrite Hres. cbn [bind]. rewrite Hn. reflexivity.
  - unfold str_network, with_prefixlen. rewrite Hna, Hp.
    change (_string_from_ip_int (addr4 a b c 0)) with (str_address (addr4 a b c 0)).
    rewrite str_address_addr4 by (unfold octet in *; auto; lia). reflexivity.
Qed.

Lemma local_ip_range_is_slash24_witness :
  exists n,
    call_get_local_ip_range on_class (Returns "box"%string)
      (fun _ => Returns "192.168.1.37"%string)
    = Returns (str_network n) /\
    str_network n = "192.168.1.0/24"%string.
Proof.
  destruct (local_ip_range_is_slash24 "box" (fun _ => Returns "192.168.1.37"%string)
              192 168 1 37) as (n & _ & _ & _ & Hcall & Hstr);
    try (unfold octet; lia); [reflexivity|].
  exists n. split; [exact Hcall | exact Hstr].
Defined.

(** ** The probe of one host *)

Lemma is_port_open_returns (e : env) (ip_str : string) (port : Z) :
  exists b, is_port_open e ip_str port = Returns b.
Proof.
  unfold is_port_open. destruct (connect_ex e ip_str port); cbn; eauto.
Qed.

Lemma is_port_open_failure (e : env) (ip_str : string) (port : Z) (x : exn) :
  connect_ex e ip_str port = Raises x -> is_port_open e ip_str port = Returns false.
Proof. unfold is_port_open. now intros ->. Qed.

Lemma fallback_alive_returns (e : env) (ip_str : string) (alive : bool) :
  exists b, fallback_alive e ip_str alive = Returns b /\ (alive = true -> b = true).
Proof.
  unfold fallback_alive.
  destruct (connect_ex e ip_str 80) as [c|]; cbn; [|eauto].
  destruct (c =? 0); cbn; [eauto|].
  destruct (ping e ip_str) as [[|]|]; cbn; eauto.
Qed.

Lemma fallback_alive_failure (e : env) (ip_str : string) (x : exn) :
  connect_ex e ip_str 80 = Raises x \/
  (exists c, connect_ex e ip_str 80 = Returns c /\ c <> 0 /\ ping e ip_str = Raises x) ->
  fallback_alive e ip_str false = Returns false.
Proof.
  unfold fallback_alive. intros [->|(c & -> & Hc & ->)]; cbn; [reflexivity|].
  apply Z.eqb_neq in Hc. now rewrite Hc.
Qed.

Lemma resolve_hostname_returns (e : env) (ip_str : string) :
  exists h, resolve_hostname e ip_str = Returns h.
Proof.
  unfold resolve_hostname. destruct (gethostbyaddr e ip_str); cbn; eauto.
Qed.

Lemma resolve_hostname_failure (e : env) (ip_str : string) (x : exn) :
  gethostbyaddr e ip_str = Raises x -> resolve_hostname e ip_str = Returns ip_str.
Proof. unfold resolve_hostname. now intros ->. Qed.

(** The three kinds of step of a task. *)
Lemma scan_single_ip_cases (e : env) (pr : bool) (s s' : NetworkScanner)
    (devs devs' : list device) (q q' : list event) (ip_str : string)
    (pc pc' : worker_pc) :
  scan_single_ip e pr s devs q ip_str pc = Some (pc', s', devs', q') ->
  (worker_move (is_scanning s) pc pc' /\ s' = s /\ devs' = devs /\ q' = q) \/
  (exists h open_ports,
      pc = W_record h open_ports /\ pc' = W_count /\
      s' = set_partial_results
             (partial_results s
              ++ [{| hostname := h; ip := ip_str; ports := ports_text open_ports |}])%list s /\
      devs' = (devs ++ [{| hostname := h; ip := ip_str;
                           ports := ports_text open_ports |}])%list /\
      q' = q) \/
  (pc = W_count /\ pc' = W_finished /\
   s' = set_hosts_scanned (hosts_scanned s + 1) s /\ devs' = devs /\
   q' = if pr then (q ++ [Progress (hosts_scanned s + 1) (total_hosts s)])%list else q).
Proof.
  unfold scan_single_ip. destruct pc as [| |rest alive op|alive op|alive op|op|h op| | | | |];
    try discriminate.
  - destruct (is_scanning s) eqn:F; cbn [negb]; intros H; inversion H; subst;
      left; repeat split; now constructor.
  - destruct rest as [|p rest].
    + intros H; inversion H; subst. left; repeat split. constructor.
    + destruct (is_scanning s) eqn:F; cbn [negb].
      * destruct (is_port_open_returns e ip_str p) as [b ->].
        destruct b; intros H; inversion H; subst; left; repeat split; now constructor.
      * intros H; inversion H; subst. left; repeat split. now constructor.
  - destruct (fallback_alive_returns e ip_str alive) as (b & Hb & Himp).
    destruct (negb alive && is_scanning s).
    + rewrite Hb. intros H; inversion H; subst. left; repeat split. now constructor.
    + intros H; inversion H; subst. left; repeat split. now constructor.
  - destruct (alive && is_scanning s) eqn:G; intros H; inversion H; subst.
    + apply andb_true_iff in G as [-> G]. left; repeat split. now constructor.
    + left; repeat split. now constructor.
  - destruct (resolve_hostname_returns e ip_str) as [h ->].
    intros H; inversion H; subst. left; repeat split. constructor.
  - intros H; inversion H; subst. right; left. eauto 10.
  - intros H; inversion H; subst. right; right. cbn. repeat split.
Qed.

(** ** Steps of the model *)

Lemma set_nth_split {A : Type} (l : list A) (i : nat) (w : A) :
  nth_error l i = Some w ->
  exists l1 l2, l = (l1 ++ w :: l2)%list /\
                forall x, set_nth i x l = (l1 ++ x :: l2)%list.
Proof.
  revert i. induction l as [|y l IH]; intros [|i] H; simpl in H; try discriminate.
  - inversion H; subst. exists [], l. split; reflexivity.
  - destruct (IH i H) as (l1 & l2 & -> & Hset).
    exists (y :: l1), l2. split; [reflexivity|].
    intros x. simpl. now rewrite Hset.
Qed.

(** A step of task [i]: it is picked up by a pool thread, or it moves
    without touching shared state, or it records its device, or it counts
    itself. *)
Lemma step_worker_view (i : nat) (e : env) (st st' : system) :
  step (step_worker i e) st = Some st' ->
  exists t l1 w l2,
    thread st = Some t /\ t_futures t = (l1 ++ w :: l2)%list /\
    ((w_pc w = W_pending /\
      st' = {| self := self st;
               thread := Some (upd_thread t (t_devices t)
                                 (l1 ++ at_pc w W_entry :: l2) (t_queue t)) |}) \/
     (exists pc',
         worker_move (is_scanning (self st)) (w_pc w) pc' /\
         st' = {| self := self st;
                  thread := Some (upd_thread t (t_devices t)
                                    (l1 ++ at_pc w pc' :: l2) (t_queue t)) |}) \/
     (exists h open_ports,
         w_pc w = W_record h open_ports /\
         let d := {| hostname := h; ip := w_ip w; ports := ports_text open_ports |} in
         st' = {| self := set_partial_results (partial_results (self st) ++ [d])%list (self st);
                  thread := Some (upd_thread t (t_devices t ++ [d])%list
                                    (l1 ++ at_pc w W_count :: l2) (t_queue t)) |}) \/
     (w_pc w = W_count /\
      st' = {| self := set_hosts_scanned (hosts_scanned (self st) + 1) (self st);
               thread := Some (upd_thread t (t_devices t)
                                 (l1 ++ at_pc w W_finished :: l2)
                                 (if t_progress t
                                  then (t_queue t
                                        ++ [Progress (hosts_scanned (self st) + 1)
                                                     (total_hosts (self st))])%list
                                  else t_queue t)) |})).
Proof.
  cbn [step]. destruct (thread st) as [t|] eqn:Ht; [|discriminate].
  destruct (nth_error (t_futures t) i) as [w|] eqn:Hw; [|discriminate].
  destruct (set_nth_split _ _ _ Hw) as (l1 & l2 & Hl & Hset).
  intros H. exists t, l1, w, l2. split; [reflexivity|]. split; [exact Hl|].
  destruct (w_pc w) eqn:Hpc;
    try (destruct (scan_single_ip e (t_progress t) (self st) (t_devices t) (t_queue t)
                     (w_ip w) _) as [[[[pc' s'] devs'] q']|] eqn:Hs; [|discriminate];
         apply scan_single_ip_cases in Hs;
         destruct Hs as [(Hm & -> & -> & ->)|[(h & op & Hr & -> & -> & -> & ->)|(Hc & -> & -> & -> & ->)]];
         inversion H; subst; rewrite Hset;
         [right; left; eauto | right; right; left; eauto 10 | right; right; right; eauto]).
  destruct (_ <? _)%nat; [|discriminate].
  inversion H; subst. rewrite Hset. left. split; reflexivity.
Qed.

Lemma run_invariant (P : system -> Prop) :
  (forall a st st', step a st = Some st' -> P st -> P st') ->
  forall sched st st', run sched st = Some st' -> P st -> P st'.
Proof.
  intros Hstep sched. induction sched as [|a sched IH]; intros st st' H HP.
  - inversion H; subst. exact HP.
  - cbn [run] in H. destruct (step a st) as [st1|] eqn:E; [|discriminate].
    eapply IH; eauto.
Qed.

Lemma run_app (s1 s2 : list action) (st : system) :
  run (s1 ++ s2) st = match run s1 st with Some st1 => run s2 st1 | None => None end.
Proof.
  revert st. induction s1 as [|a s1 IH]; intros st; [reflexivity|].
  cbn [app run]. destruct (step a st); [apply IH | reflexivity].
Qed.

(** ** The structural invariant *)

Lemma worker_move_source (flag : bool) (pc pc' : worker_pc) :
  worker_move flag pc pc' ->
  settled pc = false /\ pc <> W_pending /\ pc <> W_count /\
  unrecorded {| w_ip := EmptyString; w_pc := pc |} = true.
Proof. intros H; inversion H; subst; repeat split; discriminate. Qed.

Lemma worker_move_target (flag : bool) (pc pc' : worker_pc) :
  worker_move flag pc pc' ->
  pc' <> W_finished /\ pc' <> W_pending /\ pc' <> W_cancelled /\
  (forall x, pc' <> W_raised x) /\
  (pc' = W_stopped -> flag = false).
Proof.
  intros H; inversion H; subst; repeat split; try discriminate; auto;
    intros; discriminate.
Qed.

Lemma count_finished_app (l1 l2 : list worker) :
  count_finished (l1 ++ l2) = count_finished l1 + count_finished l2.
Proof. unfold count_finished. rewrite filter_app, length_app. lia. Qed.

Lemma count_finished_cons (w : worker) (l : list worker) :
  count_finished (w :: l) = (if finished w then 1 else 0) + count_finished l.
Proof.
  unfold count_finished. cbn [filter]. destruct (finished w); cbn [length]; lia.
Qed.

Lemma count_finished_update (l1 l2 : list worker) (w w' : worker) :
  finished w = finished w' ->
  count_finished (l1 ++ w' :: l2) = count_finished (l1 ++ w :: l2).
Proof.
  intros H. now rewrite !count_finished_app, !count_finished_cons, H.
Qed.

Lemma Forall_update {A : Type} (P : A -> Prop) (l1 l2 : list A) (w w' : A) :
  Forall P (l1 ++ w :: l2) -> P w' -> Forall P (l1 ++ w' :: l2).
Proof.
  intros H Hw. apply Forall_app in H as [H1 H2]. inversion H2; subst.
  apply Forall_app. split; [assumption|]. constructor; assumption.
Qed.

Lemma Forall_mid {A : Type} (P : A -> Prop) (l1 l2 : list A) (w : A) :
  Forall P (l1 ++ w :: l2) -> P w.
Proof.
  intros H. apply Forall_app in H as [_ H]. now inversion H.
Qed.

Lemma count_finished_cancel (l : list worker) :
  count_finished (map cancel l) = count_finished l.
Proof.
  induction l as [|w l IH]; [reflexivity|].
  cbn [map]. rewrite !count_finished_cons, IH. f_equal.
  unfold cancel, finished. destruct (w_pc w) eqn:E; cbn; rewrite ?E; reflexivity.
Qed.

Lemma forallb_settled (l : list worker) :
  forallb (fun w => settled (w_pc w)) l = true ->
  Forall (fun w => settled (w_pc w) = true) l.
Proof. intros H. apply Forall_forall. now apply forallb_forall. Qed.

Lemma not_raised_cancel (l : list worker) :
  Forall (fun w => forall x, w_pc w <> W_raised x) l ->
  Forall (fun w => forall x, w_pc w <> W_raised x) (map cancel l).
Proof.
  intros H. apply Forall_map. eapply Forall_impl; [|exact H].
  intros w Hw x. unfold cancel. destruct (w_pc w) eqn:E; cbn; rewrite ?E; try discriminate.
  exfalso. exact (Hw _ E).
Qed.

Lemma wf_boot : wf boot.
Proof. exact I. Qed.

Ltac thread_step H :=
  cbn [step] in H;
  match type of H with
  | match thread ?st with _ => _ end = _ =>
      let t := fresh "t" in
      let Ht := fresh "Ht" in
      destruct (thread st) as [t|] eqn:Ht; [|discriminate H];
      let D := fresh "D" in
      destruct (do_scan _ (self st) t) as [[? ?]|] eqn:D; [|discriminate H];
      inversion H; subst; clear H; unfold do_scan in D
  end.

Ltac inv_some :=
  repeat match goal with
         | H : Some _ = Some _ |- _ => inversion H; subst; clear H
         | H : None = Some _ |- _ => discriminate H
         | H : context [match ?x with _ => _ end] |- _ =>
             match type of H with
             | _ = Some _ => destruct x eqn:?
             end
         end.

Lemma wf_step (a : action) (st st' : system) :
  step a st = Some st' -> wf st -> wf st'.
Proof.
  intros H W. destruct a as [r p| |e|i e].
  - cbn [step] in H. unfold scan_network_alone in H.
    destruct (negb (is_scanning (self st))); [|now inversion H; subst].
    destruct (returned (thread st)); [|discriminate].
    inversion H; subst. unfold wf. cbn. repeat split; auto; discriminate.
  - cbn [step] in H. inversion H; subst. unfold wf in *. cbn [thread self].
    destruct (thread st) as [t|]; [|exact I].
    destruct W as (W1 & W2 & W3 & W4 & W5). repeat split; auto; apply W1; auto.
  - thread_step H. unfold wf in *. rewrite Ht in W. cbn [thread self].
    destruct W as (W1 & W2 & W3 & W4 & W5).
    destruct (t_pc t) eqn:Hpc; inv_some; cbn [before_submit after_shutdown] in *;
      cbn [t_pc t_futures t_devices t_queue with_pc with_futures with_queue
           partial_results hosts_scanned set_is_scanning set_partial_results
           set_hosts_scanned set_total_hosts];
      try (destruct (W1 eq_refl) as (F1 & F2 & F3));
      repeat split; intros; try discriminate; try congruence; auto;
      try (rewrite ?F1, ?F2, ?F3; reflexivity);
      try (rewrite ?F1; constructor).
    all: try (destruct (t_progress t); cbn; assumption).
    all: try (destruct (t_progress t); cbn; rewrite ?F1, ?F2; auto; constructor).
    all: try (rewrite count_finished_app, count_finished_cons; cbn; lia).
    all: try (apply Forall_app; split; [assumption|]; repeat constructor; cbn; discriminate).
    all: try (now rewrite count_finished_cancel).
    all: try (now apply not_raised_cancel).
    all: try (now apply forallb_settled).
  - apply step_worker_view in H.
    destruct H as (t & l1 & w & l2 & Ht & Hl & H).
    unfold wf in *. rewrite Ht in W. destruct W as (W1 & W2 & W3 & W4 & W5).
    assert (Hb : before_submit (t_pc t) = false).
    { destruct (before_submit (t_pc t)); [|reflexivity].
      destruct (W1 eq_refl) as (F1 & _). rewrite F1 in Hl. now destruct l1. }
    assert (Ha : settled (w_pc w) = false -> after_shutdown (t_pc t) = false).
    { intros Hs. destruct (after_shutdown (t_pc t)); [|reflexivity].
      specialize (W2 eq_refl). rewrite Hl in W2. apply Forall_mid in W2. congruence. }
    rewrite Hl in W4, W5.
    destruct H as [(Hp & ->)|[(pc' & Hm & ->)|[(h & op & Hr & ->)|(Hc & ->)]]];
      cbn [thread self upd_thread t_pc t_futures t_devices t_queue
           partial_results hosts_scanned set_partial_results set_hosts_scanned].
    + rewrite Hb, Ha by (now rewrite Hp).
      split; [discriminate|]. split; [discriminate|]. split; [exact W3|].
      split.
      * destruct (t_pc t); auto; rewrite W4; symmetry; apply count_finished_update;
          unfold finished; cbn; now rewrite Hp.
      * eapply Forall_update; [exact W5|]. cbn. discriminate.
    + destruct (worker_move_source _ _ _ Hm) as (S1 & S2 & S3 & _).
      destruct (worker_move_target _ _ _ Hm) as (T1 & T2 & T3 & T4 & _).
      rewrite Hb, Ha by assumption.
      split; [discriminate|]. split; [discriminate|]. split; [exact W3|].
      split.
      * destruct (t_pc t); auto; rewrite W4; symmetry; apply count_finished_update;
          unfold finished; cbn; inversion Hm; subst; reflexivity.
      * eapply Forall_update; [exact W5|]. cbn. exact T4.
    + rewrite Hb, Ha by (now rewrite Hr).
      split; [discriminate|]. split; [discriminate|].
      split; [destruct (t_pc t); auto; cbn in Hb; try discriminate; now rewrite W3|].
      split.
      * destruct (t_pc t); auto; rewrite W4; symmetry; apply count_finished_update;
          unfold finished; cbn; now rewrite Hr.
      * eapply Forall_update; [exact W5|]. cbn. discriminate.
    + rewrite Hb, Ha by (now rewrite Hc).
      split; [discriminate|]. split; [discriminate|]. split; [exact W3|].
      split.
      * destruct (t_pc t); auto; cbn in Hb; try discriminate; rewrite W4;
          rewrite !count_finished_app, !count_finished_cons; unfold finished;
          cbn [w_pc at_pc]; rewrite Hc; cbv iota; lia.
      * eapply Forall_update; [exact W5|]. cbn. discriminate.
Qed.

(** ** Completion and error callbacks *)

Lemma filter_final_progress (q : list event) (n t : Z) :
  filter is_final (q ++ [Progress n t]) = filter is_final q.
Proof. rewrite filter_app. cbn. apply app_nil_r. Qed.

Lemma filter_final_snoc (q : list event) (ev : event) :
  is_final ev = true ->
  filter is_final (q ++ [ev]) = (filter is_final q ++ [ev])%list.
Proof. intros H. rewrite filter_app. cbn. now rewrite H. Qed.

Lemma final_inv_step (a : action) (st st' : system) :
  step a st = Some st' -> wf st -> final_inv st -> final_inv st'.
Proof.
  intros H W V. destruct a as [r p| |e|i e].
  - cbn [step] in H. unfold scan_network_alone in H.
    destruct (negb (is_scanning (self st))); [|now inversion H; subst].
    destruct (returned (thread st)); [|discriminate].
    inversion H; subst. unfold final_inv. cbn.
    split; [lia|]. split; [congruence|]. intros [F|[]]. congruence.
  - cbn [step] in H. inversion H; subst. unfold final_inv in *. cbn [thread self].
    destruct (thread st) as [t|]; [|exact I].
    destruct V as (V1 & V2 & V3). repeat split; auto.
  - thread_step H. unfold final_inv, wf in *. rewrite Ht in W, V. cbn [thread self].
    destruct W as (W1 & _). destruct V as (V1 & V2 & V3).
    destruct (t_pc t) eqn:Hpc; inv_some; cbn [before_submit] in *;
      cbn [t_pc t_futures t_devices t_queue with_pc with_futures with_queue
           is_scanning set_is_scanning set_partial_results
           set_hosts_scanned set_total_hosts t_ip_range];
      try (destruct (W1 eq_refl) as (F1 & F2 & F3)).
    all: try (destruct (t_progress t);
              cbn [t_pc t_futures t_devices t_queue with_pc with_futures with_queue t_ip_range]).
    all: rewrite ?filter_final_progress.
    all: try (rewrite filter_final_snoc by reflexivity; rewrite length_app; cbn [length]).
    all: try (split; [lia|]).
    all: try (assert (Q0 : filter is_final (t_queue t) = [])
                by (destruct (filter is_final (t_queue t)); [reflexivity | cbn in V1; lia]);
              rewrite ?Q0 in * ).
    all: try (split; [cbn; lia|]).
    all: try (split; [solve [auto | intros X; now contradiction X | intros; apply V2; auto]|]).
    all: try solve [intros [X|X]; [apply V3; auto | contradiction X] ].
    all: try solve [intros _; eauto].
    all: try solve [intros _; apply V3; auto].
    all: try solve [intros [X|[]]; apply V3; auto].
    all: try solve [intros [X|[]]; congruence].
    all: try solve [intros [X|[]]; apply V3; left; intros E; apply X; now rewrite E].
  - apply step_worker_view in H.
    destruct H as (t & l1 & w & l2 & Ht & Hl & H).
    unfold final_inv in *. rewrite Ht in V. destruct V as (V1 & V2 & V3).
    assert (V3' : forall ws : list worker, ws <> [] \/
              match t_pc t with
              | C_total _ | C_progress0 _ | C_submit _ => True
              | _ => False
              end -> exists hosts, parse_ip_range (t_ip_range t) = Returns hosts).
    { intros ws _. apply V3. left. rewrite Hl. now destruct l1. }
    destruct H as [(Hp & ->)|[(pc' & Hm & ->)|[(h & op & Hr & ->)|(Hc & ->)]]];
      cbn [thread self upd_thread t_pc t_futures t_devices t_queue t_ip_range
           is_scanning set_partial_results set_hosts_scanned];
      try (destruct (t_progress t); rewrite ?filter_final_progress);
      (split; [exact V1|]); (split; [exact V2|]); apply V3'.
Qed.

(** ** Progress of a scan *)

Lemma progress_values_app (q1 q2 : list event) :
  progress_values (q1 ++ q2) = (progress_values q1 ++ progress_values q2)%list.
Proof. unfold progress_values. apply flat_map_app. Qed.

Lemma range_snoc (n : Z) : 0 <= n -> range 0 (n + 1) = (range 0 n ++ [n])%list.
Proof.
  intros H. unfold range.
  replace (Z.to_nat (n + 1 - 0)) with (S (Z.to_nat (n - 0))) by lia.
  rewrite seq_S, map_app. cbn [map]. do 2 f_equal. lia.
Qed.

Lemma count_finished_nonneg (ws : list worker) : 0 <= count_finished ws.
Proof. unfold count_finished. lia. Qed.

Lemma has_complete_final (q : list event) :
  has_complete q -> filter is_final q <> [].
Proof.
  intros [ds H] E.
  assert (X : In (Complete ds) (filter is_final q)) by (apply filter_In; auto).
  rewrite E in X. contradiction.
Qed.

Lemma has_complete_snoc (q : list event) (ev : event) :
  is_complete ev = false -> has_complete (q ++ [ev]) -> has_complete q.
Proof.
  intros H [ds Hd]. apply in_app_or in Hd as [Hd|[E|[]]]; [now exists ds|].
  subst ev. discriminate.
Qed.

Lemma no_final_no_complete (q : list event) :
  (length (filter is_final q) <= 0)%nat -> ~ has_complete q.
Proof.
  intros H C. apply has_complete_final in C.
  destruct (filter is_final q); [congruence | cbn in H; lia].
Qed.

Lemma not_has_complete_nil : ~ has_complete [].
Proof. intros [ds []]. Qed.

Ltac split8 :=
  split; [|split; [|split; [|split; [|split; [|split; [|split]]]]]].

Lemma progress_inv_step (a : action) (st st' : system) :
  step a st = Some st' -> wf st -> final_inv st -> progress_inv st -> progress_inv st'.
Proof.
  intros H W V P. destruct a as [r p| |e|i e].
  - cbn [step] in H. unfold scan_network_alone in H.
    destruct (negb (is_scanning (self st))); [|now inversion H; subst].
    destruct (returned (thread st)); [|discriminate].
    inversion H; subst. unfold progress_inv. cbn.
    split8; auto.
    + intros _ [X|X]; [discriminate | now apply not_has_complete_nil in X].
    + intros X. now apply not_has_complete_nil in X.
  - cbn [step] in H. inversion H; subst. unfold progress_inv in *. cbn [thread self].
    destruct (thread st) as [t|]; [|exact I].
    destruct P as (P1 & P2 & P3 & P4 & P5 & P6 & P7 & P8).
    cbn [stop_scan set_is_scanning is_scanning hosts_scanned total_hosts].
    split8; auto; discriminate.
  - thread_step H. unfold progress_inv, final_inv, wf in *. rewrite Ht in W, V, P.
    cbn [thread self].
    destruct W as (W1 & W2 & W3 & W4 & W5). destruct V as (V1 & V2 & V3).
    destruct P as (P1 & P2 & P3 & P4 & P5 & P6 & P7 & P8).
    assert (NC : match t_pc t with C_exit => True | _ => ~ has_complete (t_queue t) end).
    { destruct (t_pc t); auto; apply no_final_no_complete; exact V1. }
    destruct (t_pc t) eqn:Hpc; inv_some; cbn [before_submit mid_scan] in *;
      try (destruct (W1 eq_refl) as (F1 & F2 & F3));
      try (destruct (t_progress t) eqn:Hprog);
      cbn [t_pc t_futures t_devices t_queue t_progress with_pc with_futures with_queue
           is_scanning hosts_scanned total_hosts set_is_scanning set_partial_results
           set_hosts_scanned set_total_hosts t_ip_range mid_scan];
      rewrite ?F1, ?F3 in *.
    all: rewrite ?progress_values_app; cbn [progress_values flat_map app].
    all: rewrite ?app_nil_r.
    all: split8.
    all: try solve [auto | intros; discriminate | intros; congruence].
    all: try solve [intros _ [X|X]; [discriminate | exfalso; auto using not_has_complete_nil]].
    all: try solve [intros X; exfalso; auto using not_has_complete_nil].
    all: try solve [intros; constructor].
    all: try solve [intros; right; rewrite W4; reflexivity | intros; rewrite W4; reflexivity].
    all: try solve [intros X; apply (has_complete_snoc []) in X;
                    [now apply not_has_complete_nil in X | reflexivity]].
    all: try solve [intros X; rewrite X in *; discriminate].
    all: try solve [intros; rewrite P5; cbn [length]; f_equal; lia].
    all: try solve [rewrite P5, length_app; cbn [length]; f_equal; lia].
    all: try solve [intros X; apply Forall_app; split;
                    [apply P6; exact X | repeat constructor; cbn; discriminate]].
    all: try solve [apply Forall_app; split; [exact P4 | repeat constructor]].
    all: try solve [intros X; apply has_complete_snoc in X;
                    [exfalso; apply NC; exact X | reflexivity]].
    all: try solve [intros _ [X|X]; [discriminate|]; apply has_complete_snoc in X;
                    [exfalso; apply NC; exact X | reflexivity]].
  - apply step_worker_view in H.
    destruct H as (t & l1 & w & l2 & Ht & Hl & H).
    unfold progress_inv, final_inv, wf in *. rewrite Ht in W, V, P.
    destruct W as (W1 & W2 & W3 & W4 & W5). destruct V as (V1 & V2 & V3).
    destruct P as (P1 & P2 & P3 & P4 & P5 & P6 & P7 & P8).
    assert (Hns : settled (w_pc w) = false).
    { destruct H as [(Hp & _)|[(pc' & Hm & _)|[(h & op & Hr & _)|(Hc & _)]]];
        try (now rewrite ?Hp, ?Hr, ?Hc).
      now destruct (worker_move_source _ _ _ Hm). }
    assert (Hb : before_submit (t_pc t) = false).
    { destruct (before_submit (t_pc t)); [|reflexivity].
      destruct (W1 eq_refl) as (F1 & _). rewrite F1 in Hl. now destruct l1. }
    assert (Ha : after_shutdown (t_pc t) = false).
    { destruct (after_shutdown (t_pc t)); [|reflexivity].
      specialize (W2 eq_refl). rewrite Hl in W2. apply Forall_mid in W2. congruence. }
    assert (Hhs : 0 <= hosts_scanned (self st)).
    { destruct (t_pc t); try discriminate Hb; rewrite W4; apply count_finished_nonneg. }
    assert (Hmid : mid_scan (t_pc t) = true).
    { destruct (t_pc t); try discriminate Hb; try discriminate Ha; reflexivity. }
    assert (NC : ~ has_complete (t_queue t)).
    { destruct (t_pc t); try discriminate Ha; now apply no_final_no_complete. }
    assert (P8' : match t_pc t with
                  | C_complete1 | C_complete2 => True
                  | _ => has_complete (t_queue t)
                  end -> False).
    { destruct (t_pc t); try discriminate Ha; exact NC. }
    assert (Hlen : forall w', length (l1 ++ w' :: l2) = length (t_futures t)).
    { intros w'. rewrite Hl, !length_app. reflexivity. }
    assert (P6' : forall w', undisturbed w' ->
              is_scanning (self st) = true ->
              match t_pc t with
              | C_submit _ | C_wait _ | C_shutdown None | C_final =>
                  Forall undisturbed (l1 ++ w' :: l2)
              | _ => True
              end).
    { intros w' Hw' F. specialize (P6 F). rewrite Hl in P6.
      destruct (t_pc t) as [| | | | | | | |[x|]| | | | | |]; auto;
        eapply Forall_update; eauto. }
    assert (P7' : forall w',
              is_scanning (self st) = true ->
              match t_pc t with
              | C_wait _ | C_shutdown None | C_final =>
                  total_hosts (self st) = Z.of_nat (length (l1 ++ w' :: l2))
              | _ => True
              end).
    { intros w' F. specialize (P7 F). rewrite Hlen. exact P7. }
    assert (P5' : forall w',
              match t_pc t with
              | C_progress0 h => total_hosts (self st) = Z.of_nat (length h)
              | C_submit rest =>
                  total_hosts (self st) = Z.of_nat (length (l1 ++ w' :: l2) + length rest)
              | _ => True
              end).
    { intros w'. rewrite Hlen. exact P5. }
    destruct H as [(Hp & ->)|[(pc' & Hm & ->)|[(h & op & Hr & ->)|(Hc & ->)]]];
      cbn [thread self upd_thread t_pc t_futures t_devices t_queue t_ip_range t_progress
           is_scanning hosts_scanned total_hosts set_partial_results set_hosts_scanned].
    + split8; auto.
      * apply P5'.
      * apply P6'. split; discriminate.
      * apply P7'.
      * intros X. now apply P8' in X.
    + destruct (worker_move_target _ _ _ Hm) as (T1 & T2 & T3 & T4 & T5).
      split8; auto.
      * apply P5'.
      * intros F. apply P6'; [|exact F]. split; [|exact T3].
        intros E. apply T5 in E. congruence.
      * apply P7'.
      * intros X. now apply P8' in X.
    + split8; auto.
      * apply P5'.
      * apply P6'. split; discriminate.
      * apply P7'.
      * intros X. now apply P8' in X.
    + assert (G : t_progress t = true ->
                  progress_values (t_queue t
                                   ++ [Progress (hosts_scanned (self st) + 1)
                                                (total_hosts (self st))])
                  = range 0 (hosts_scanned (self st) + 1 + 1)).
      { intros X. rewrite progress_values_app, (P3 X (or_introl Hmid)).
        cbn [progress_values flat_map app]. now rewrite <- range_snoc by lia. }
      split8.
      * intros X. rewrite X. now apply P1.
      * intros X. rewrite X. right. now apply G.
      * intros X _. rewrite X. now apply G.
      * destruct (t_progress t); [|exact P4].
        apply Forall_app. split; [exact P4 | repeat constructor].
      * apply P5'.
      * apply P6'. split; discriminate.
      * apply P7'.
      * intros X. exfalso. apply P8'.
        destruct (t_pc t); try discriminate Ha; try discriminate Hb; auto;
          (destruct (t_progress t); [apply has_complete_snoc in X|]; auto).
Qed.


Lemma total_inv_step (a : action) (st st' : system) :
  step a st = Some st' -> wf st -> final_inv st -> total_inv st -> total_inv st'.
Proof.
  intros H W V P. destruct a as [r p| |e|i e].
  - cbn [step] in H. unfold scan_network_alone in H.
    destruct (negb (is_scanning (self st))); [|now inversion H; subst].
    destruct (returned (thread st)); [|discriminate].
    inversion H; subst. unfold total_inv. cbn.
    split; [exact I|]. intros [X|X]; [discriminate | now apply not_has_complete_nil in X].
  - cbn [step] in H. inversion H; subst. unfold total_inv in *. cbn [thread self].
    destruct (thread st) as [t|]; [|exact I]. exact P.
  - thread_step H. unfold total_inv, final_inv, wf in *. rewrite Ht in W, V, P.
    cbn [thread self].
    destruct W as (W1 & W2 & W3 & W4 & W5). destruct V as (V1 & V2 & V3).
    destruct P as (P1 & P2).
    assert (NC : match t_pc t with C_exit => True | _ => ~ has_complete (t_queue t) end).
    { destruct (t_pc t); auto; apply no_final_no_complete; exact V1. }
    destruct (t_pc t) eqn:Hpc; inv_some; cbn [before_submit mid_scan] in *;
      try (destruct (W1 eq_refl) as (F1 & F2 & F3));
      try (destruct (t_progress t) eqn:Hprog);
      cbn [t_pc t_futures t_devices t_queue t_progress with_pc with_futures with_queue
           is_scanning hosts_scanned total_hosts set_is_scanning set_partial_results
           set_hosts_scanned set_total_hosts t_ip_range mid_scan];
      rewrite ?F1, ?F3 in *.
    all: split.
    all: try solve [auto | intros [X|X]; [discriminate | exfalso; auto using not_has_complete_nil]].
    all: try solve [intros _; destruct P1; eauto].
    all: try solve [intros [X|X]; [discriminate|]; apply has_complete_snoc in X;
                    [exfalso; apply NC; exact X | reflexivity]].
  - apply step_worker_view in H.
    destruct H as (t & l1 & w & l2 & Ht & Hl & H).
    unfold total_inv in *. rewrite Ht in P. destruct P as (P1 & P2).
    destruct H as [(Hp & ->)|[(pc' & Hm & ->)|[(h & op & Hr & ->)|(Hc & ->)]]];
      cbn [thread self upd_thread t_pc t_futures t_devices t_queue t_ip_range t_progress
           is_scanning hosts_scanned total_hosts set_partial_results set_hosts_scanned];
      (split; [exact P1|]); try exact P2.
    intros [X|X]; [auto|]. apply P2. right.
    destruct (t_progress t); [apply has_complete_snoc in X|]; auto.
Qed.

(** Every reachable state satisfies the four invariants. *)
Lemma reachable_inv (st : system) :
  reachable st -> wf st /\ final_inv st /\ progress_inv st /\ total_inv st.
Proof.
  intros [sched H].
  apply (run_invariant (fun st => wf st /\ final_inv st /\ progress_inv st /\ total_inv st))
    with (sched := sched) (st := boot); [|exact H|repeat split; exact I].
  intros a s s' Hs (W & V & P & T).
  repeat split; eauto using wf_step, final_inv_step, progress_inv_step, total_inv_step.
Qed.

Lemma range_sorted_le (a b : Z) : StronglySorted Z.le (range a b).
Proof.
  pose proof (range_sorted a b) as H. induction H; constructor; auto.
  eapply Forall_impl; [|eassumption]. intros; lia.
Qed.

Lemma range_last (n : Z) : 0 <= n -> last (range 0 (n + 1)) 0 = n.
Proof. intros H. rewrite range_snoc by assumption. apply last_last. Qed.

(** When the completion callback has been queued, every task has run to its
    end. *)
Lemma completed_all_finished (st : system) (t : scan_thread) :
  reachable st -> thread st = Some t -> has_complete (t_queue t) ->
  t_pc t = C_exit /\
  Forall (fun w => w_pc w = W_finished) (t_futures t) /\
  total_hosts (self st) = Z.of_nat (length (t_futures t)) /\
  hosts_scanned (self st) = total_hosts (self st).
Proof.
  intros R Ht C. destruct (reachable_inv _ R) as (W & V & P & _).
  unfold wf, final_inv, progress_inv in *. rewrite Ht in *.
  destruct W as (W1 & W2 & W3 & W4 & W5). destruct V as (V1 & _).
  destruct P as (_ & _ & _ & _ & _ & _ & _ & P8).
  assert (E : t_pc t = C_exit).
  { destruct (t_pc t); auto; exfalso;
      apply (no_final_no_complete (t_queue t)); auto. }
  rewrite E in *. specialize (W2 eq_refl). destruct (P8 C) as (P81 & P82).
  assert (F : Forall (fun w => w_pc w = W_finished) (t_futures t)).
  { rewrite Forall_forall in *. intros w Hw.
    specialize (W2 w Hw). specialize (W5 w Hw). destruct (P82 w Hw) as [U1 U2].
    destruct (w_pc w); try discriminate; congruence. }
  split; [reflexivity|]. split; [exact F|]. split; [exact P81|].
  rewrite W4, P81. unfold count_finished. do 2 f_equal.
  clear - F. induction F as [|w l Hw _ IH]; [reflexivity|].
  cbn [filter]. unfold finished at 1. rewrite Hw. cbn [length]. now rewrite IH.
Qed.

(** Progress of a scan of the scanner with one thread. *)
Lemma progress_monotone_and_complete_alone (sched : list action) (st : system)
    (t : scan_thread) :
  run sched boot = Some st ->
  thread st = Some t ->
  StronglySorted Z.le (progress_values (t_queue t)) /\
  (exists k, progress_values (t_queue t) = range 0 k) /\
  match t_pc t with
  | C_start | C_clear | C_reset => True
  | _ => hosts_scanned (self st) = count_finished (t_futures t)
  end /\
  (has_complete (t_queue t) ->
   Forall (fun w => w_pc w = W_finished) (t_futures t) /\
   (exists hosts,
       parse_ip_range (t_ip_range t) = Returns hosts /\
       length (t_futures t) = length hosts /\
       total_hosts (self st) = Z.of_nat (length hosts)) /\
   hosts_scanned (self st) = total_hosts (self st) /\
   (t_progress t = true ->
    progress_values (t_queue t) = range 0 (total_hosts (self st) + 1) /\
    last (progress_values (t_queue t)) 0 = total_hosts (self st))).
Proof.
  intros Hrun Ht.
  assert (R : reachable st) by (now exists sched).
  destruct (reachable_inv _ R) as (W & V & P & T).
  pose proof (completed_all_finished st t R Ht) as C.
  unfold wf, progress_inv, total_inv in *. rewrite Ht in *.
  destruct W as (_ & _ & _ & W4 & _).
  destruct P as (P1 & P2 & P3 & _). destruct T as (_ & T2).
  assert (K : exists k, progress_values (t_queue t) = range 0 k).
  { destruct (t_progress t).
    - destruct (P2 eq_refl) as [[E _]|E]; [exists 0; now rewrite E | eauto].
    - exists 0. now rewrite P1. }
  split; [destruct K as [k ->]; apply range_sorted_le|].
  split; [exact K|]. split; [exact W4|].
  intros HC. destruct (C HC) as (_ & F & Hlen & Hhs).
  destruct (T2 (or_intror HC)) as (hosts & Hparse & Htot).
  split; [exact F|]. split.
  { exists hosts. split; [exact Hparse|]. split; [lia | exact Htot]. }
  split; [exact Hhs|].
  intros Hp. rewrite (P3 Hp (or_intror HC)), Hhs. split; [reflexivity|].
  apply range_last. lia.
Qed.

(** ** Failure of a scan *)

Lemma error_inv_step (a : action) (st st' : system) :
  step a st = Some st' -> error_inv st -> error_inv st'.
Proof.
  intros H P. destruct a as [r p| |e|i e].
  - cbn [step] in H. unfold scan_network_alone in H.
    destruct (negb (is_scanning (self st))); [|now inversion H; subst].
    destruct (returned (thread st)); [|discriminate].
    inversion H; subst. unfold error_inv. cbn. constructor.
  - cbn [step] in H. inversion H; subst. exact P.
  - thread_step H. unfold error_inv in *. rewrite Ht in P. cbn [thread].
    destruct (t_pc t) eqn:Hpc; inv_some;
      try (destruct (t_progress t));
      cbn [t_queue with_pc with_futures with_queue]; auto;
      apply Forall_app; (split; [exact P|]); repeat constructor.
    all: now exists e0.
  - apply step_worker_view in H.
    destruct H as (t & l1 & w & l2 & Ht & Hl & H).
    unfold error_inv in *. rewrite Ht in P.
    destruct H as [(Hp & ->)|[(pc' & Hm & ->)|[(h & op & Hr & ->)|(Hc & ->)]]];
      cbn [thread upd_thread t_queue]; auto.
    destruct (t_progress t); auto.
    apply Forall_app. split; [exact P|]. repeat constructor.
Qed.






(** ** Starting a scan while one is running *)

(** With one thread: a call while the running flag is set changes nothing. *)
Lemma scan_network_alone_ignored :
  (forall (ip_range : string) (pr : bool) (st : system),
      is_scanning (self st) = true ->
      step (call_scan_network ip_range pr) st = Some st) /\
  (forall (ip_range : string) (pr : bool) (s1 s2 : list action) (st0 st1 : system),
      run s1 st0 = Some st1 -> is_scanning (self st1) = true ->
      run (s1 ++ call_scan_network ip_range pr :: s2) st0 = run (s1 ++ s2) st0).
Proof.
  assert (A : forall ip_range pr st, is_scanning (self st) = true ->
                step (call_scan_network ip_range pr) st = Some st).
  { intros ip_range pr st H. cbn [step]. unfold scan_network_alone. now rewrite H. }
  split; [exact A|].
  intros ip_range pr s1 s2 st0 st1 H1 Hf.
  rewrite !run_app, H1. cbn [run]. now rewrite A.
Qed.

(** ** Open ports in probing order *)

Lemma subseq_nil_l {A : Type} (l : list A) : subseq [] l.
Proof. induction l; [apply subseq_nil | now apply subseq_skip]. Qed.

Lemma subseq_snoc_both {A : Type} (l1 l2 : list A) (x : A) :
  subseq l1 l2 -> subseq (l1 ++ [x]) (l2 ++ [x]).
Proof.
  induction 1; cbn.
  - apply subseq_take, subseq_nil.
  - now apply subseq_skip.
  - now apply subseq_take.
Qed.

Lemma subseq_snoc_skip {A : Type} (l1 l2 : list A) (x : A) :
  subseq l1 l2 -> subseq l1 (l2 ++ [x]).
Proof.
  induction 1; cbn.
  - apply subseq_skip, subseq_nil.
  - now apply subseq_skip.
  - now apply subseq_take.
Qed.

Lemma subseq_filter {A : Type} (f : A -> bool) (l : list A) : subseq (filter f l) l.
Proof.
  induction l as [|x l IH]; cbn; [constructor|].
  destruct (f x); [now apply subseq_take | now apply subseq_skip].
Qed.

Lemma worker_move_ports (flag : bool) (pc pc' : worker_pc) :
  worker_move flag pc pc' -> ports_ok pc -> ports_ok pc'.
Proof.
  intros H; inversion H; subst; cbn; auto.
  - intros _. exists []. split; [reflexivity | constructor].
  - intros (probed & E & S). rewrite app_nil_r in E. now subst.
  - intros (probed & E & S). exists (probed ++ [p])%list.
    split; [now rewrite <- app_assoc | now apply subseq_snoc_both].
  - intros (probed & E & S). exists (probed ++ [p])%list.
    split; [now rewrite <- app_assoc | now apply subseq_snoc_skip].
Qed.

Lemma ports_inv_step (a : action) (st st' : system) :
  step a st = Some st' -> ports_inv st -> ports_inv st'.
Proof.
  intros H P. destruct a as [r p| |e|i e].
  - cbn [step] in H. unfold scan_network_alone in H.
    destruct (negb (is_scanning (self st))); [|now inversion H; subst].
    destruct (returned (thread st)); [|discriminate].
    inversion H; subst. unfold ports_inv. cbn. split; constructor.
  - cbn [step] in H. inversion H; subst. exact P.
  - thread_step H. unfold ports_inv in *. rewrite Ht in P. cbn [thread].
    destruct P as [P1 P2].
    destruct (t_pc t) eqn:Hpc; inv_some;
      try (destruct (t_progress t));
      cbn [t_queue t_futures t_devices with_pc with_futures with_queue]; auto.
    all: split; [|exact P2].
    all: try (apply Forall_app; split; [exact P1|]; repeat constructor).
    all: apply Forall_forall; intros w' Hw'; apply in_map_iff in Hw' as (w & <- & Hw).
    all: rewrite Forall_forall in P1; specialize (P1 w Hw).
    all: unfold cancel; destruct (w_pc w) eqn:E; cbn; rewrite ?E; auto.
  - apply step_worker_view in H.
    destruct H as (t & l1 & w & l2 & Ht & Hl & H).
    unfold ports_inv in *. rewrite Ht in P. destruct P as [P1 P2]. rewrite Hl in P1.
    pose proof (Forall_mid _ _ _ _ P1) as Hw. cbv beta in Hw.
    destruct H as [(Hp & ->)|[(pc' & Hm & ->)|[(h & op & Hr & ->)|(Hc & ->)]]];
      cbn [thread upd_thread t_futures t_devices].
    + split; [|exact P2]. eapply Forall_update; [exact P1 | exact I].
    + split; [|exact P2]. eapply Forall_update; [exact P1|].
      cbn. eapply worker_move_ports; eauto.
    + split; [eapply Forall_update; [exact P1 | exact I]|].
      apply Forall_app. split; [exact P2|]. repeat constructor.
      rewrite Hr in Hw. cbn in Hw. exists op. split; [exact Hw | reflexivity].
    + split; [|exact P2]. eapply Forall_update; [exact P1 | exact I].
Qed.

Lemma reachable_ports_inv (st : system) : reachable st -> ports_inv st.
Proof.
  intros [sched H].
  apply (run_invariant ports_inv) with (sched := sched) (st := boot);
    [|exact H|exact I].
  intros a s s' Hs P. eapply ports_inv_step; eauto.
Qed.

Lemma accepts_spec (e : env) (ip_str : string) (port : Z) :
  is_port_open e ip_str port = Returns (accepts e ip_str port).
Proof.
  unfold accepts. destruct (is_port_open_returns e ip_str port) as [b ->]. reflexivity.
Qed.

Lemma worker_steps_S (n : nat) (e : env) (pr : bool) (s : NetworkScanner)
    (devs : list device) (q : list event) (ip_str : string) (pc : worker_pc) :
  worker_steps (S n) e pr s devs q ip_str pc
  = match scan_single_ip e pr s devs q ip_str pc with
    | Some (pc', s', devs', q') => worker_steps n e pr s' devs' q' ip_str pc'
    | None => None
    end.
Proof. reflexivity. Qed.

(** The port loop, run without interruption while the flag stays set,
    collects exactly the ports that accept, in list order. *)
Lemma port_loop (e : env) (pr : bool) (s : NetworkScanner) (devs : list device)
    (q : list event) (ip_str : string) (rest : list Z) (alive : bool)
    (open_ports : list Z) :
  is_scanning s = true ->
  worker_steps (S (length rest)) e pr s devs q ip_str (W_ports rest alive open_ports)
  = Some (W_fallback (alive || existsb (accepts e ip_str) rest)
                     (open_ports ++ filter (accepts e ip_str) rest)%list,
          s, devs, q).
Proof.
  intros Hf. revert alive open_ports.
  induction rest as [|p rest IH]; intros alive open_ports.
  - cbn. now rewrite orb_false_r, app_nil_r.
  - cbn [length]. rewrite worker_steps_S. cbn [scan_single_ip]. rewrite Hf. cbn [negb].
    rewrite accepts_spec. cbn [existsb filter].
    destruct (accepts e ip_str p).
    + rewrite IH. cbn [orb]. rewrite orb_true_r, <- app_assoc. reflexivity.
    + rewrite IH. reflexivity.
Qed.

(** The probe of a host with an open port, run without interruption while
    the flag stays set: after 17 steps the device is recorded with the open
    ports in list order and the resolved name, or the address when
    resolution fails. *)
Lemma probe_alive_host (e : env) (pr : bool) (s : NetworkScanner)
    (devs : list device) (q : list event) (ip_str : string) :
  is_scanning s = true ->
  filter (accepts e ip_str) common_ports <> [] ->
  let d := {| hostname := match gethostbyaddr e ip_str with
                          | Returns h => h
                          | Raises _ => ip_str
                          end;
              ip := ip_str;
              ports := join ", " (map str_int (filter (accepts e ip_str) common_ports)) |} in
  worker_steps 17 e pr s devs q ip_str W_entry
  = Some (W_count, set_partial_results (partial_results s ++ [d])%list s,
          (devs ++ [d])%list, q).
Proof.
  intros Hf Hopen d.
  change 17%nat with (S (S (length common_ports) + 4))%nat.
  rewrite worker_steps_S. cbn [scan_single_ip]. rewrite Hf. cbn [negb].
  assert (Happ : forall n m e pr s devs q ip pc r,
             worker_steps n e pr s devs q ip pc = Some r ->
             worker_steps (n + m) e pr s devs q ip pc
             = let '(pc', s', devs', q') := r in worker_steps m e pr s' devs' q' ip pc').
  { induction n as [|n IHn]; intros m e0 pr0 s0 devs0 q0 ip0 pc0 r H.
    - cbn in H. inversion H; subst. reflexivity.
    - cbn [Nat.add]. rewrite worker_steps_S in *.
      destruct (scan_single_ip e0 pr0 s0 devs0 q0 ip0 pc0) as [[[[pc1 s1] devs1] q1]|];
        [|discriminate]. now apply IHn. }
  rewrite (Happ _ 4%nat _ _ _ _ _ _ _ _ (port_loop e pr s devs q ip_str common_ports false [] Hf)).
  cbn [orb app].
  assert (Halive : existsb (accepts e ip_str) common_ports = true).
  { destruct (filter (accepts e ip_str) common_ports) as [|p l] eqn:F; [congruence|].
    apply existsb_exists. exists p.
    assert (Hin : In p (filter (accepts e ip_str) common_ports)) by (rewrite F; now left).
    apply filter_In in Hin. exact Hin. }
  rewrite Halive. cbn [worker_steps scan_single_ip negb andb]. rewrite Hf.
  cbn [worker_steps scan_single_ip].
  unfold resolve_hostname, try_except_all.
  subst d. unfold ports_text.
  destruct (filter (accepts e ip_str) common_ports) as [|p l] eqn:F; [congruence|].
  destruct (gethostbyaddr e ip_str); reflexivity.
Qed.

(** ** Addresses and their text *)

Lemma address_octets (a : Z) :
  address a ->
  octet (a / 16777216) /\ octet (a / 65536 mod 256) /\ octet (a / 256 mod 256) /\
  octet (a mod 256) /\
  a = addr4 (a / 16777216) (a / 65536 mod 256) (a / 256 mod 256) (a mod 256).
Proof.
  unfold address, octet, addr4. change (2 ^ 32) with 4294967296. intros H.
  pose proof (Z.div_mod a 256 ltac:(lia)) as E0.
  pose proof (Z.mod_pos_bound a 256 ltac:(lia)) as B0.
  pose proof (Z.div_mod (a / 256) 256 ltac:(lia)) as E1.
  pose proof (Z.mod_pos_bound (a / 256) 256 ltac:(lia)) as B1.
  pose proof (Z.div_mod (a / 65536) 256 ltac:(lia)) as E2.
  pose proof (Z.mod_pos_bound (a / 65536) 256 ltac:(lia)) as B2.
  assert (D1 : a / 65536 = a / 256 / 256) by (rewrite Z.div_div by lia; reflexivity).
  assert (D2 : a / 16777216 = a / 65536 / 256) by (rewrite Z.div_div by lia; reflexivity).
  lia.
Qed.

(** [IPv4Address(str(a))] is [a]. *)
Lemma IPv4Address_str_address (a : Z) :
  address a -> IPv4Address (str_address a) = Returns a.
Proof.
  intros H. destruct (address_octets a H) as (H0 & H1 & H2 & H3 & E).
  rewrite E at 1. rewrite str_address_addr4 by assumption.
  rewrite IPv4Address_dotted by assumption. now rewrite <- E.
Qed.

Lemma ok_ip_key (s : string) : ok_ip s -> exists a, IPv4Address s = Returns a.
Proof. intros (a & Ha & ->). exists a. now apply IPv4Address_str_address. Qed.

Lemma ok_ip_inj (s1 s2 : string) (k : Z) :
  ok_ip s1 -> ok_ip s2 ->
  IPv4Address s1 = Returns k -> IPv4Address s2 = Returns k -> s1 = s2.
Proof.
  intros (a1 & H1 & ->) (a2 & H2 & ->).
  rewrite !IPv4Address_str_address by assumption. congruence.
Qed.

(** ** [sorted] *)

Lemma mapM_Forall2 {A B : Type} (f : A -> outcome B) (l : list A) (r : list B) :
  Forall2 (fun x y => f x = Returns y) l r -> mapM f l = Returns r.
Proof.
  induction 1 as [|x y l r H _ IH]; [reflexivity|].
  cbn [mapM]. rewrite H. cbn [bind]. rewrite IH. reflexivity.
Qed.

Lemma insert_keyed_perm {A : Type} (x : Z * A) (l : list (Z * A)) :
  Permutation (insert_keyed x l) (x :: l).
Proof.
  induction l as [|y l IH]; cbn [insert_keyed]; [reflexivity|].
  destruct (fst x <=? fst y); [reflexivity|].
  rewrite IH. apply perm_swap.
Qed.

Lemma sort_keyed_perm {A : Type} (l : list (Z * A)) : Permutation (sort_keyed l) l.
Proof.
  induction l as [|x l IH]; [reflexivity|].
  unfold sort_keyed in *. cbn [fold_right]. rewrite insert_keyed_perm. now constructor.
Qed.

Lemma insert_keyed_sorted {A : Type} (x : Z * A) (l : list (Z * A)) :
  StronglySorted (fun p q => fst p <= fst q) l ->
  StronglySorted (fun p q => fst p <= fst q) (insert_keyed x l).
Proof.
  induction 1 as [|y l Hs IH Hall]; cbn [insert_keyed].
  - repeat constructor.
  - destruct (fst x <=? fst y) eqn:E.
    + apply Z.leb_le in E. constructor; [now constructor|].
      constructor; [assumption|].
      eapply Forall_impl; [|exact Hall]. cbn. intros; lia.
    + apply Z.leb_gt in E. constructor; [assumption|].
      eapply Permutation_Forall; [symmetry; apply insert_keyed_perm|].
      constructor; [lia | assumption].
Qed.

Lemma sort_keyed_sorted {A : Type} (l : list (Z * A)) :
  StronglySorted (fun p q => fst p <= fst q) (sort_keyed l).
Proof.
  induction l as [|x l IH]; [constructor|].
  unfold sort_keyed in *. cbn [fold_right]. now apply insert_keyed_sorted.
Qed.

Lemma sorted_le_nodup_lt (l : list Z) :
  StronglySorted Z.le l -> NoDup l -> StronglySorted Z.lt l.
Proof.
  induction 1 as [|a l _ IH Hall]; intros Hnd; [constructor|].
  inversion Hnd as [|? ? Hnin Hnd']; subst.
  constructor; [now apply IH|].
  rewrite Forall_forall in *. intros b Hb. specialize (Hall b Hb).
  assert (a <> b) by (intros ->; contradiction). lia.
Qed.

Lemma sorted_map_fst {A : Type} (l : list (Z * A)) :
  StronglySorted (fun p q => fst p <= fst q) l -> StronglySorted Z.le (map fst l).
Proof.
  induction 1 as [|p l _ IH Hall]; cbn [map]; constructor; [assumption|].
  apply Forall_map. exact Hall.
Qed.

Lemma sorted_nth {A : Type} (R : A -> A -> Prop) (l : list A) (i j : nat) (x y : A) :
  StronglySorted R l -> (i < j)%nat ->
  nth_error l i = Some x -> nth_error l j = Some y -> R x y.
Proof.
  intros Hs. revert i j. induction Hs as [|a l _ IH Hall]; intros i j Hij Hi Hj.
  - destruct i; discriminate.
  - destruct j as [|j]; [lia|]. cbn in Hj. destruct i as [|i].
    + cbn in Hi. inversion Hi; subst. rewrite Forall_forall in Hall.
      apply Hall. eapply nth_error_In; eauto.
    + cbn in Hi. apply (IH i j); [lia | assumption | assumption].
Qed.

Lemma map_fst_combine {A B : Type} (l1 : list A) (l2 : list B) :
  length l1 = length l2 -> map fst (combine l1 l2) = l1.
Proof.
  revert l2. induction l1 as [|a l1 IH]; intros [|b l2] H; try discriminate; [reflexivity|].
  cbn. f_equal. apply IH. now inversion H.
Qed.

Lemma map_snd_combine {A B : Type} (l1 : list A) (l2 : list B) :
  length l1 = length l2 -> map snd (combine l1 l2) = l2.
Proof.
  revert l2. induction l1 as [|a l1 IH]; intros [|b l2] H; try discriminate; [reflexivity|].
  cbn. f_equal. apply IH. now inversion H.
Qed.

(** Keys strictly ascending along a device list. *)
Lemma keys_ascending_ordered (pairs : list (Z * device)) :
  Forall (fun p => ip_key (snd p) = Returns (fst p)) pairs ->
  StronglySorted Z.lt (map fst pairs) ->
  ip_ordered (map snd pairs).
Proof.
  intros Hk Hs i j da db a b Hi Hj Ha Hb. unfold numeric_ip in *.
  assert (K : forall n d k, nth_error (map snd pairs) n = Some d -> ip_key d = Returns k ->
                            nth_error (map fst pairs) n = Some k).
  { intros n d k Hn Hd. rewrite nth_error_map in *.
    destruct (nth_error pairs n) as [[k' d']|] eqn:E; [|discriminate].
    cbn in *. inversion Hn; subst d'.
    rewrite Forall_forall in Hk. specialize (Hk _ (nth_error_In _ _ E)). cbn in Hk.
    congruence. }
  pose proof (K _ _ _ Hi Ha) as Ki. pose proof (K _ _ _ Hj Hb) as Kj.
  split.
  - intros Hij. exact (sorted_nth _ _ _ _ _ _ Hs Hij Ki Kj).
  - intros Hab. destruct (Nat.lt_trichotomy i j) as [H|[H|H]]; [exact H| |].
    + subst j. rewrite Ki in Kj. inversion Kj. lia.
    + pose proof (sorted_nth _ _ _ _ _ _ Hs H Kj Ki). lia.
Qed.

Lemma keys_nodup (l : list device) (keys : list Z) :
  Forall2 (fun d k => ip_key d = Returns k) l keys ->
  NoDup (map ip l) -> Forall ok_ip (map ip l) -> NoDup keys.
Proof.
  induction 1 as [|d k l keys Hd Hrest IH]; intros Hnd Hok; [constructor|].
  cbn [map] in *. inversion Hnd as [|? ? Hnin Hnd']; subst.
  inversion Hok as [|? ? Hokd Hok']; subst.
  constructor; [|now apply IH].
  intros Hin. apply Hnin.
  assert (X : exists d', In d' l /\ ip_key d' = Returns k).
  { clear - Hrest Hin. induction Hrest as [|d1 k1 l keys H1 _ IH]; [contradiction|].
    destruct Hin as [->|Hin]; [exists d1; split; [now left | assumption]|].
    destruct (IH Hin) as (d' & Hd' & Hk). exists d'. split; [now right | assumption]. }
  destruct X as (d' & Hd' & Hk).
  rewrite Forall_forall in Hok'.
  assert (Hokd' : ok_ip (ip d')) by (apply Hok'; now apply in_map).
  rewrite (ok_ip_inj _ _ _ Hokd Hokd' Hd Hk). now apply in_map.
Qed.

(** Sorting a list of devices with distinct, well-formed addresses gives a
    rearrangement of it ordered by numeric IP. *)
Lemma sorted_ip_ordered (l : list device) :
  NoDup (map ip l) -> Forall ok_ip (map ip l) ->
  exists ds, sorted ip_key l = Returns ds /\ Permutation ds l /\ ip_ordered ds.
Proof.
  intros Hnd Hok.
  assert (K : exists keys, Forall2 (fun d k => ip_key d = Returns k) l keys).
  { clear Hnd. induction l as [|d l IH]; [exists []; constructor|].
    cbn [map] in Hok. inversion Hok as [|? ? Hd Hl]; subst.
    destruct (IH Hl) as [keys Hk]. destruct (ok_ip_key _ Hd) as [k Hkd].
    exists (k :: keys). now constructor. }
  destruct K as [keys Hk].
  pose proof (keys_nodup _ _ Hk Hnd Hok) as Hkn.
  assert (Hlen : length keys = length l) by (symmetry; eapply Forall2_length; eauto).
  exists (map snd (sort_keyed (combine keys l))).
  split; [unfold sorted; now rewrite (mapM_Forall2 _ _ _ Hk)|].
  pose proof (sort_keyed_perm (combine keys l)) as Hp.
  split.
  { rewrite <- (map_snd_combine keys l Hlen) at 2. now apply Permutation_map. }
  apply keys_ascending_ordered.
  - eapply Permutation_Forall; [symmetry; exact Hp|].
    clear - Hk. induction Hk as [|d k l keys H _ IH]; cbn [combine]; constructor; assumption.
  - apply sorted_le_nodup_lt; [apply sorted_map_fst, sort_keyed_sorted|].
    eapply Permutation_NoDup; [symmetry; apply Permutation_map; exact Hp|].
    now rewrite map_fst_combine.
Qed.

(** ** The parsed hosts are distinct addresses *)

Lemma split_app_last (sep : ascii) (s1 s2 : string) :
  contains sep s2 = false ->
  split sep (s1 ++ String sep s2) = (split sep s1 ++ [s2])%list.
Proof.
  intros H. induction s1 as [|c s1 IH]; cbn [append split].
  - rewrite Ascii.eqb_refl, (split_no_sep _ _ H). reflexivity.
  - rewrite IH. destruct (Ascii.eqb c sep); [reflexivity|].
    pose proof (split_not_nil sep s1) as Hne.
    destruct (split sep s1) as [|hd tl]; [contradiction | reflexivity].
Qed.

Lemma ip_int_from_string_inv (s : string) (v : Z) :
  _ip_int_from_string s = Returns v ->
  exists p0 p1 p2 p3 o0 o1 o2 o3,
    split "." s = [p0; p1; p2; p3] /\
    _parse_octet p0 = Returns o0 /\ _parse_octet p1 = Returns o1 /\
    _parse_octet p2 = Returns o2 /\ _parse_octet p3 = Returns o3 /\
    v = addr4 o0 o1 o2 o3.
Proof.
  unfold _ip_int_from_string. destruct s as [|c s]; [discriminate|].
  destruct (split "." (String c s)) as [|p0 [|p1 [|p2 [|p3 [|p4 ps]]]]];
    cbn [length Nat.eqb negb]; try discriminate.
  destruct (mapM _parse_octet [p0; p1; p2; p3]) as [bs|x] eqn:E; cbn [bind try_except].
  - intros H; inversion H; subst v. apply mapM_returns in E.
    inversion E as [|? o0 ? ? H0 E1]; subst.
    inversion E1 as [|? o1 ? ? H1 E2]; subst.
    inversion E2 as [|? o2 ? ? H2 E3]; subst.
    inversion E3 as [|? o3 ? ? H3 E4]; subst. inversion E4; subst.
    exists p0, p1, p2, p3, o0, o1, o2, o3. repeat split; assumption.
  - destruct (isinstance x ValueError); discriminate.
Qed.

(** Addresses built on one base differ as their last numbers do. *)
Lemma IPv4Address_last_number (base : string) (i j vi vj : Z) :
  IPv4Address (base ++ "." ++ str_int i) = Returns vi ->
  IPv4Address (base ++ "." ++ str_int j) = Returns vj ->
  vi - vj = i - j.
Proof.
  unfold IPv4Address.
  destruct (contains "/" (base ++ "." ++ str_int i)); [discriminate|].
  destruct (contains "/" (base ++ "." ++ str_int j)); [discriminate|].
  intros Hi Hj.
  apply ip_int_from_string_inv in Hi as (p0 & p1 & p2 & p3 & o0 & o1 & o2 & o3 &
                                         Si & A0 & A1 & A2 & A3 & ->).
  apply ip_int_from_string_inv in Hj as (q0 & q1 & q2 & q3 & r0 & r1 & r2 & r3 &
                                         Sj & B0 & B1 & B2 & B3 & ->).
  change (base ++ "." ++ str_int i)%string with (base ++ String "." (str_int i))%string in Si.
  change (base ++ "." ++ str_int j)%string with (base ++ String "." (str_int j))%string in Sj.
  rewrite (split_app_last "." base (str_int i) (str_int_no_dot i)) in Si.
  rewrite (split_app_last "." base (str_int j) (str_int_no_dot j)) in Sj.
  change [p0; p1; p2; p3] with ([p0; p1; p2] ++ [p3])%list in Si.
  change [q0; q1; q2; q3] with ([q0; q1; q2] ++ [q3])%list in Sj.
  apply app_inj_tail in Si as [Si <-]. apply app_inj_tail in Sj as [Sj <-].
  rewrite Si in Sj. inversion Sj; subst q0 q1 q2.
  apply parse_octet_str_int in A3 as [-> _]. apply parse_octet_str_int in B3 as [-> _].
  assert (o0 = r0) by congruence. assert (o1 = r1) by congruence.
  assert (o2 = r2) by congruence. subst. unfold addr4. lia.
Qed.

Lemma Forall2_ascending (R : Z -> Z -> Prop) (l r : list Z) :
  (forall i j vi vj, R i vi -> R j vj -> vi - vj = i - j) ->
  Forall2 R l r -> StronglySorted Z.lt l -> StronglySorted Z.lt r.
Proof.
  intros Hm. induction 1 as [|i v l r Hiv Hrest IH]; intros Hs; [constructor|].
  inversion Hs as [|? ? Hs' Hall]; subst.
  constructor; [now apply IH|].
  clear IH Hs Hs'. induction Hrest as [|j w l r Hjw _ IH]; constructor.
  - inversion Hall; subst. specialize (Hm _ _ _ _ Hiv Hjw). lia.
  - apply IH. now inversion Hall.
Qed.

Lemma cidr_hosts_sorted (s : string) (strict : bool) (n : IPv4Network_obj)
    (hs : list Z) :
  IPv4Network s strict = Returns n -> hosts n = Returns hs ->
  StronglySorted Z.lt hs /\ Forall address hs.
Proof.
  intros Hn. pose proof (network_bounds _ _ _ Hn) as [Hlo Hhi].
  unfold hosts.
  destruct (_prefixlen n =? _max_prefixlen - 1);
    [|destruct (_prefixlen n =? _max_prefixlen)].
  - intros H; inversion H; subst hs. split; [apply range_sorted|].
    apply Forall_forall. intros a Ha. apply in_range in Ha. unfold address. lia.
  - destruct (IPv4Address (net_addr n)) as [a|] eqn:E; [|discriminate].
    cbn [bind]. intros H; inversion H; subst hs.
    apply IPv4Address_range in E.
    split; [repeat constructor | constructor; [exact E | constructor]].
  - intros H; inversion H; subst hs. split; [apply range_sorted|].
    apply Forall_forall. intros a Ha. apply in_range in Ha. unfold address. lia.
Qed.

(** Whatever the expression, the parsed host list is strictly ascending and
    made of addresses. *)
Lemma parse_ip_range_sorted (s : string) (hs : list Z) :
  parse_ip_range s = Returns hs -> StronglySorted Z.lt hs /\ Forall address hs.
Proof.
  unfold parse_ip_range. destruct (contains "/" s).
  - unfold ip_network. destruct (IPv4Network s false) as [n|x] eqn:Hn.
    + cbn [bind]. now apply (cidr_hosts_sorted s false).
    + destruct (_ || _); discriminate.
  - assert (G : forall base lo hi,
               mapM (fun i => IPv4Address (base ++ "." ++ str_int i)) (range lo hi)
               = Returns hs ->
               StronglySorted Z.lt hs /\ Forall address hs).
    { intros base lo hi H. apply mapM_returns in H. split.
      - refine (Forall2_ascending _ _ _ _ H (range_sorted lo hi)).
        intros i j vi vj. apply IPv4Address_last_number.
      - clear - H. induction H as [|i v l r Hv _ IH]; constructor; [|assumption].
        now apply IPv4Address_range in Hv. }
    destruct (contains "-" s).
    + destruct (unpack2 (rsplit1 "-" s)) as [[base_ip range_part]|]; [|discriminate].
      cbn [bind].
      destruct (length (split "." base_ip) =? 4)%nat.
      * destruct (int (nth 3 (split "." base_ip) EmptyString)); [|discriminate].
        cbn [bind]. destruct (int range_part); [|discriminate]. cbn [bind]. apply G.
      * destruct (length (split "." base_ip) =? 3)%nat; [|discriminate].
        destruct (int range_part); [|discriminate]. cbn [bind]. apply G.
    + destruct (IPv4Address s) as [a|] eqn:E; [|discriminate].
      cbn [bind]. intros H; inversion H; subst hs.
      apply IPv4Address_range in E.
    split; [repeat constructor | constructor; [exact E | constructor]].
Qed.

Lemma parsed_hosts_texts (s : string) (hs : list Z) :
  parse_ip_range s = Returns hs ->
  NoDup (map str_address hs) /\ Forall ok_ip (map str_address hs).
Proof.
  intros H. apply parse_ip_range_sorted in H as [Hs Ha]. split.
  - apply sorted_lt_nodup in Hs. clear - Hs Ha.
    induction Hs as [|a l Hnin _ IH]; cbn [map]; constructor.
    + inversion Ha as [|? ? Haa Hal]; subst. intros Hin.
      apply in_map_iff in Hin as (b & Hb & Hin). apply Hnin.
      rewrite Forall_forall in Hal. pose proof (Hal _ Hin) as Hab.
      pose proof (IPv4Address_str_address _ Haa) as E1.
      pose proof (IPv4Address_str_address _ Hab) as E2.
      rewrite Hb in E2. congruence.
    + apply IH. now inversion Ha.
  - apply Forall_map. eapply Forall_impl; [|exact Ha].
    intros a H. exists a. split; [assumption | reflexivity].
Qed.

(** ** Devices of a scan *)

Lemma sub_ips_refl (l : list string) : sub_ips l l.
Proof. intros x. lia. Qed.

Lemma sub_ips_distinct (l' l : list string) :
  sub_ips l' l -> distinct_ips l -> distinct_ips l'.
Proof.
  intros Hs [Hn Hf]. split.
  - apply (NoDup_count_occ string_dec). intros x.
    rewrite (NoDup_count_occ string_dec) in Hn. specialize (Hn x). specialize (Hs x).
    unfold ip_count in Hs. lia.
  - rewrite Forall_forall in *. intros x Hx. apply Hf.
    apply (count_occ_In string_dec) in Hx. apply (count_occ_In string_dec).
    specialize (Hs x). unfold ip_count in Hs. lia.
Qed.

Lemma ip_count_app (l1 l2 : list string) (x : string) :
  ip_count (l1 ++ l2) x = (ip_count l1 x + ip_count l2 x)%nat.
Proof. apply count_occ_app. Qed.

Lemma ip_count_cancel (l : list worker) (x : string) :
  (ip_count (map w_ip (filter unrecorded (map cancel l))) x
   <= ip_count (map w_ip (filter unrecorded l)) x)%nat.
Proof.
  induction l as [|w l IH]; [reflexivity|].
  cbn [map filter].
  assert (C : unrecorded (cancel w) = true ->
              unrecorded w = true /\ w_ip (cancel w) = w_ip w).
  { unfold cancel. destruct (w_pc w) eqn:E; unfold unrecorded; cbn [w_pc w_ip];
      rewrite ?E; intros X; try discriminate X; split; reflexivity. }
  destruct (unrecorded (cancel w)) eqn:U.
  - destruct (C eq_refl) as [-> Hip]. cbn [map]. rewrite Hip.
    unfold ip_count in *. cbn [count_occ]. destruct (string_dec _ x); lia.
  - destruct (unrecorded w); [|exact IH]. cbn [map].
    unfold ip_count in *. cbn [count_occ]. destruct (string_dec _ x); lia.
Qed.

(** What a step of the scan thread does to the texts of the scan. *)
Lemma do_scan_ips (e : env) (s s' : NetworkScanner) (t t' : scan_thread) :
  do_scan e s t = Some (s', t') ->
  (exists hosts, t_pc t = C_parse /\ t_pc t' = C_total hosts /\
                 parse_ip_range (t_ip_range t) = Returns hosts /\
                 t_futures t' = t_futures t /\ t_devices t' = t_devices t) \/
  sub_ips (scan_ips t') (scan_ips t).
Proof.
  unfold do_scan. intros D.
  destruct (t_pc t) eqn:Hpc; inv_some;
    try (left; eexists; repeat split; eassumption);
    right; intros x; unfold scan_ips;
    try destruct (t_progress t);
    cbn [t_pc t_futures t_devices t_queue with_pc with_futures with_queue rest_hosts map];
    rewrite ?Hpc; cbn [rest_hosts map];
    rewrite ?filter_app, ?map_app, ?ip_count_app; cbn [filter unrecorded w_pc map w_ip];
    rewrite ?ip_count_app;
    try (pose proof (ip_count_cancel (t_futures t) x));
    unfold ip_count in *; cbn [count_occ];
    try destruct (string_dec _ x); lia.
Qed.

(** What a step of the scan thread leaves alone. *)
Lemma do_scan_frame (e : env) (s s' : NetworkScanner) (t t' : scan_thread) :
  do_scan e s t = Some (s', t') ->
  t_devices t' = t_devices t /\ t_ip_range t' = t_ip_range t /\
  (partial_results s' = partial_results s \/
   (t_pc t = C_clear /\ partial_results s' = [])) /\
  (t_queue t' = t_queue t \/
   (exists n tot, t_queue t' = (t_queue t ++ [Progress n tot])%list) \/
   (exists m, t_queue t' = (t_queue t ++ [Error m])%list) \/
   (exists ds, t_pc t = C_complete2 /\ sorted ip_key (t_devices t) = Returns ds /\
               t_queue t' = (t_queue t ++ [Complete ds])%list)).
Proof.
  unfold do_scan. intros D.
  destruct (t_pc t) eqn:Hpc; inv_some; try destruct (t_progress t);
    cbn [t_pc t_futures t_devices t_queue t_ip_range with_pc with_futures with_queue
         partial_results set_is_scanning set_partial_results set_hosts_scanned
         set_total_hosts];
    (split; [reflexivity|]); (split; [reflexivity|]); (split; [auto|]); eauto 8.
Qed.

Ltac count_task E :=
  intros ?x; unfold unrecorded; cbn [filter at_pc w_pc w_ip]; rewrite ?E;
  cbv iota; cbn [map filter at_pc w_ip]; unfold ip_count; cbn [count_occ Nat.add];
  try destruct (string_dec _ _); lia.

Lemma devices_inv_step (a : action) (st st' : system) :
  step a st = Some st' -> wf st -> final_inv st -> devices_inv st -> devices_inv st'.
Proof.
  intros H W V I. destruct a as [r p| |e|i e].
  - cbn [step] in H. unfold scan_network_alone in H.
    destruct (negb (is_scanning (self st))); [|now inversion H; subst].
    destruct (returned (thread st)); [|discriminate].
    inversion H; subst. destruct I as [I1 _]. split; [exact I1|].
    cbn. split; [split; constructor|]. intros ds [].
  - cbn [step] in H. inversion H; subst. exact I.
  - cbn [step] in H. destruct (thread st) as [t|] eqn:Ht; [|discriminate].
    destruct (do_scan e (self st) t) as [[s' t']|] eqn:D; [|discriminate].
    inversion H; subst; clear H.
    destruct I as [I1 I2]. rewrite Ht in I2. destruct I2 as [I2 I3].
    unfold wf in W. rewrite Ht in W. destruct W as (W1 & _).
    destruct (do_scan_frame _ _ _ _ _ D) as (Fd & _ & Fp & Fq).
    unfold devices_inv. cbn [self thread]. split; [|split].
    + destruct Fp as [->|[_ ->]]; [exact I1 | split; constructor].
    + destruct (do_scan_ips _ _ _ _ _ D) as [(hosts & Hpc & Hpc' & Hp & Hf & Hd)|Hs].
      * destruct W1 as (F1 & F2 & _); [now rewrite Hpc|].
        unfold scan_ips. rewrite Hpc', Hf, Hd, F1, F2. cbn [map filter app rest_hosts].
        now apply parsed_hosts_texts in Hp.
      * exact (sub_ips_distinct _ _ Hs I2).
    + intros ds Hin. rewrite Fd.
      destruct Fq as [Q|[(n & tot & Q)|[(m & Q)|(ds' & _ & Hs & Q)]]];
        rewrite Q in Hin; try apply in_app_or in Hin.
      * now apply I3.
      * destruct Hin as [Hin|[Hin|[]]]; [now apply I3 | discriminate].
      * destruct Hin as [Hin|[Hin|[]]]; [now apply I3 | discriminate].
      * destruct Hin as [Hin|[Hin|[]]]; [now apply I3 | congruence].
  - apply step_worker_view in H.
    destruct H as (t & l1 & w & l2 & Ht & Hl & H).
    destruct I as [I1 I2]. rewrite Ht in I2. destruct I2 as [I2 I3].
    unfold wf in W. rewrite Ht in W. destruct W as (W1 & W2 & W3 & _).
    unfold final_inv in V. rewrite Ht in V. destruct V as (V1 & _).
    assert (Hb : before_submit (t_pc t) = false).
    { destruct (before_submit (t_pc t)); [|reflexivity].
      destruct (W1 eq_refl) as (F1 & _). rewrite F1 in Hl. now destruct l1. }
    assert (Hc : forall ds, In (Complete ds) (t_queue t) -> settled (w_pc w) = true).
    { intros ds Hin.
      assert (Hf : In (Complete ds) (filter is_final (t_queue t)))
        by (apply filter_In; auto).
      assert (Hpc : after_shutdown (t_pc t) = true).
      { destruct (t_pc t); try reflexivity;
          destruct (filter is_final (t_queue t)); try contradiction; cbn in V1; lia. }
      specialize (W2 Hpc). rewrite Hl in W2. now apply Forall_mid in W2. }
    assert (Hcount : forall pc' (d : list string),
               (forall x, (ip_count d x + ip_count (map w_ip (filter unrecorded [at_pc w pc'])) x
                           <= ip_count (map w_ip (filter unrecorded [w])) x)%nat) ->
               sub_ips (map ip (t_devices t) ++ d
                        ++ map w_ip (filter unrecorded (l1 ++ at_pc w pc' :: l2))
                        ++ map str_address (rest_hosts (t_pc t)))
                       (scan_ips t)).
    { intros pc' d Hd x. specialize (Hd x). unfold scan_ips. rewrite Hl.
      change (at_pc w pc' :: l2) with ([at_pc w pc'] ++ l2)%list.
      change (w :: l2) with ([w] ++ l2)%list.
      rewrite !filter_app, !map_app, !ip_count_app in *. lia. }
    unfold devices_inv.
    destruct H as [(Hp & ->)|[(pc' & Hm & ->)|[(h & op & Hr & ->)|(Hk & ->)]]];
      cbn [thread self upd_thread t_pc t_futures t_devices t_queue
           partial_results set_partial_results set_hosts_scanned].
    + split; [exact I1|]. split; [|exact I3].
      eapply sub_ips_distinct; [|exact I2].
      apply (Hcount W_entry []). count_task Hp.
    + split; [exact I1|]. split; [|exact I3].
      eapply sub_ips_distinct; [|exact I2].
      apply (Hcount pc' []). inversion Hm; subst;
        match goal with E : _ = w_pc w |- _ => symmetry in E; count_task E end.
    + assert (I2' : distinct_ips (scan_ips (upd_thread t (t_devices t ++ [{| hostname := h; ip := w_ip w; ports := ports_text op |}])
                                               (l1 ++ at_pc w W_count :: l2) (t_queue t)))).
      { eapply sub_ips_distinct; [|exact I2].
        unfold scan_ips at 1. cbn [upd_thread t_pc t_futures t_devices t_queue].
        rewrite map_app, <- app_assoc. cbn [map ip].
        apply (Hcount W_count [w_ip w]). count_task Hr. }
      split; [|split; [exact I2'|]].
      * assert (E : partial_results (self st) = t_devices t).
        { destruct (t_pc t); cbn in Hb; try discriminate; exact W3. }
        rewrite E. eapply sub_ips_distinct; [|exact I2'].
        intros x. unfold scan_ips. cbn [upd_thread t_devices]. rewrite !ip_count_app. lia.
      * intros ds Hin. specialize (Hc ds Hin). rewrite Hr in Hc. discriminate.
    + split; [exact I1|]. split.
      * eapply sub_ips_distinct; [|exact I2].
        apply (Hcount W_finished []). count_task Hk.
      * intros ds Hin. apply I3. destruct (t_progress t); [|exact Hin].
        apply in_app_or in Hin as [Hin|[Hin|[]]]; [exact Hin | discriminate].
Qed.

Lemma devices_distinct (t : scan_thread) :
  distinct_ips (scan_ips t) -> distinct_ips (map ip (t_devices t)).
Proof.
  apply sub_ips_distinct. intros x. unfold scan_ips. rewrite ip_count_app. lia.
Qed.

Lemma reachable_devices_inv (st : system) : reachable st -> devices_inv st.
Proof.
  intros [sched H].
  assert (G : wf st /\ final_inv st /\ devices_inv st).
  { refine (run_invariant (fun st => wf st /\ final_inv st /\ devices_inv st) _ _ _ _ H _).
    - intros a s1 s2 Hs (W & V & I).
      split; [eapply wf_step; eauto|].
      split; [eapply final_inv_step; eauto | eapply devices_inv_step; eauto].
    - split; [exact wf_boot|]. split.
      + exact I.
      + split; [split; constructor | exact I]. }
  apply G.
Qed.

(** ** Schedules of a given kind *)

Lemma run_invariant_on (ok : action -> bool) (P : system -> Prop) :
  (forall a st st', ok a = true -> step a st = Some st' -> P st -> P st') ->
  forall sched st st',
    forallb ok sched = true -> run sched st = Some st' -> P st -> P st'.
Proof.
  intros Hstep sched. induction sched as [|a sched IH]; intros st st' Hok H HP.
  - inversion H; subst. exact HP.
  - cbn [run] in H. cbn [forallb] in Hok. apply andb_true_iff in Hok as [Ha Hok].
    destruct (step a st) as [st1|] eqn:E; [|discriminate].
    eapply IH; eauto.
Qed.

(** ** A scan that does not fail *)

Lemma filter_error_snoc (q : list event) (ev : event) :
  is_error ev = false -> filter is_error (q ++ [ev]) = filter is_error q.
Proof. intros H. rewrite filter_app. cbn. rewrite H. apply app_nil_r. Qed.

Lemma no_failure_step (a : action) (st st' : system) :
  fault_free a = true -> step a st = Some st' ->
  devices_inv st -> no_failure st -> no_failure st'.
Proof.
  intros Hff H I N. destruct a as [r p| |e|i e].
  - cbn [step] in H. unfold scan_network_alone in H.
    destruct (negb (is_scanning (self st))); [|now inversion H; subst].
    destruct (returned (thread st)); [|discriminate].
    inversion H; subst. unfold no_failure. cbn. auto.
  - cbn [step] in H. inversion H; subst. exact N.
  - cbn [fault_free] in Hff. destruct (fault e) eqn:Hfault; [discriminate|].
    cbn [step] in H. destruct (thread st) as [t|] eqn:Ht; [|discriminate].
    destruct (do_scan e (self st) t) as [[s' t']|] eqn:D; [|discriminate].
    inversion H; subst; clear H.
    unfold no_failure in *. rewrite Ht in N. cbn [thread].
    destruct I as [_ I]. rewrite Ht in I. destruct I as [I _].
    apply devices_distinct in I. destruct I as [I1 I2].
    destruct (sorted_ip_ordered _ I1 I2) as (ds0 & Hsort & _).
    destruct (do_scan_frame _ _ _ _ _ D) as (_ & Hr & _ & _).
    rewrite Hr. intros Hp. destruct (N Hp) as [N1 N2]. clear N.
    destruct Hp as [hosts Hp].
    unfold do_scan in D. rewrite Hfault, Hp, Hsort in D.
    destruct (t_pc t) eqn:Hpc; inv_some;
      try (destruct (t_progress t));
      cbn [t_pc t_queue with_pc with_futures with_queue];
      try contradiction;
      rewrite ?filter_error_snoc by reflexivity; split; solve [exact I | assumption].
  - apply step_worker_view in H.
    destruct H as (t & l1 & w & l2 & Ht & Hl & H).
    unfold no_failure in *. rewrite Ht in N.
    destruct H as [(Hp & ->)|[(pc' & Hm & ->)|[(h & op & Hr & ->)|(Hc & ->)]]];
      cbn [thread upd_thread t_pc t_queue t_ip_range]; try exact N.
    intros Hp. destruct (N Hp) as [N1 N2]. split; [exact N1|].
    destruct (t_progress t); [|exact N2]. now rewrite filter_error_snoc.
Qed.

(** ** After a stop *)






(** ** Order of the device lists *)

Lemma sorted_devices (l : list device) :
  distinct_ips (map ip l) ->
  exists ds, sorted ip_key l = Returns ds /\ Permutation ds l /\
             Forall (fun d => exists a, address a /\ numeric_ip d a) ds /\
             ip_ordered ds.
Proof.
  intros [Hn Hf]. destruct (sorted_ip_ordered l Hn Hf) as (ds & Hs & Hp & Ho).
  exists ds. split; [exact Hs|]. split; [exact Hp|]. split; [|exact Ho].
  eapply Permutation_Forall; [symmetry; exact Hp|].
  rewrite Forall_map in Hf. eapply Forall_impl; [|exact Hf].
  intros d Hd. destruct (ok_ip_key _ Hd) as [a Ha].
  exists a. split; [now apply IPv4Address_range in Ha | exact Ha].
Qed.

(** Order of the device lists of the scanner with one thread. *)
Lemma device_lists_sorted_alone (sched : list action) (st : system) :
  run sched boot = Some st ->
  (exists ds, get_partial_results (self st) = Returns ds /\
              Permutation ds (partial_results (self st)) /\
              Forall (fun d => exists a, address a /\ numeric_ip d a) ds /\
              ip_ordered ds) /\
  (forall t ds, thread st = Some t -> In (Complete ds) (t_queue t) ->
     sorted ip_key (t_devices t) = Returns ds /\ Permutation ds (t_devices t) /\
     Forall (fun d => exists a, address a /\ numeric_ip d a) ds /\ ip_ordered ds).
Proof.
  intros Hrun. assert (R : reachable st) by (now exists sched).
  destruct (reachable_devices_inv _ R) as [I1 I2]. split.
  - exact (sorted_devices _ I1).
  - intros t ds Ht Hin. rewrite Ht in I2. destruct I2 as [I2 I3].
    destruct (sorted_devices _ (devices_distinct _ I2)) as (ds' & Hs & Hrest).
    rewrite (I3 ds Hin) in Hs. inversion Hs; subst ds'.
    split; [now apply I3 | exact Hrest].
Qed.

(** ** Stopping a scan *)


(** The completion callback is still queued when the stop falls between the
    scan thread's last look at the flag and the callback. *)
Lemma stop_after_last_check_still_completes :
  exists st st' t t',
    run (firstn 51 sample_scan) boot = Some st /\ thread st = Some t /\
    t_pc t = C_complete1 /\ ~ has_complete (t_queue t) /\
    run [call_stop_scan; step_thread quiet_net; step_thread quiet_net] st = Some st' /\
    thread st' = Some t' /\ has_complete (t_queue t').
Proof.
  eexists. eexists. eexists. eexists.
  split; [vm_compute; reflexivity|]. split; [reflexivity|].
  split; [reflexivity|]. split.
  { intros [ds H]. cbn in H. repeat destruct H as [H|H]; try discriminate H; exact H. }
  split; [vm_compute; reflexivity|]. split; [reflexivity|].
  eexists. cbn. right; right; right; left. reflexivity.
Qed.


(** ** The probe within a scan *)

Lemma scan_single_ip_no_raise (e : env) (pr : bool) (s s' : NetworkScanner)
    (devs devs' : list device) (q q' : list event) (ip_str : string)
    (pc pc' : worker_pc) (x : exn) :
  scan_single_ip e pr s devs q ip_str pc = Some (pc', s', devs', q') ->
  pc' <> W_raised x.
Proof.
  intros H. apply scan_single_ip_cases in H.
  destruct H as [(Hm & _)|[(h & op & _ & -> & _)|(_ & -> & _)]]; try discriminate.
  now apply worker_move_target in Hm as (_ & _ & _ & T & _).
Qed.

(** A step of a task leaves the scan thread where it is and queues neither
    the completion nor the error callback. *)
Lemma step_worker_frame (i : nat) (e : env) (st st' : system) (t : scan_thread) :
  thread st = Some t -> step (step_worker i e) st = Some st' ->
  exists t', thread st' = Some t' /\ t_pc t' = t_pc t /\
             is_scanning (self st') = is_scanning (self st) /\
             filter is_final (t_queue t') = filter is_final (t_queue t).
Proof.
  intros Ht H. apply step_worker_view in H.
  destruct H as (t0 & l1 & w & l2 & Ht0 & Hl & H).
  rewrite Ht in Ht0. inversion Ht0; subst t0.
  destruct H as [(Hp & ->)|[(pc' & Hm & ->)|[(h & op & Hr & ->)|(Hc & ->)]]];
    eexists; (split; [reflexivity|]); cbn; repeat split.
  destruct (t_progress t); [apply filter_final_progress | reflexivity].
Qed.

Lemma fault_free_no_error (sched : list action) (st : system) (t : scan_thread) :
  run sched boot = Some st -> forallb fault_free sched = true ->
  thread st = Some t ->
  (exists hosts, parse_ip_range (t_ip_range t) = Returns hosts) ->
  forall m, ~ In (Error m) (t_queue t).
Proof.
  intros Hrun Hff Ht Hp m Hin.
  assert (G : (wf st /\ final_inv st /\ devices_inv st) /\ no_failure st).
  { refine (run_invariant_on fault_free
              (fun st => (wf st /\ final_inv st /\ devices_inv st) /\ no_failure st)
              _ sched boot st Hff Hrun _).
    - intros a s1 s2 Ha Hs ((W & V & D) & N). split.
      + split; [eapply wf_step; eauto|].
        split; [eapply final_inv_step; eauto | eapply devices_inv_step; eauto].
      + eapply no_failure_step; eauto.
    - split; [|exact I]. split; [exact wf_boot|]. split; [exact I|].
      split; [split; constructor | exact I]. }
  destruct G as [_ N]. unfold no_failure in N. rewrite Ht in N.
  destruct (N Hp) as [_ N2].
  assert (X : In (Error m) (filter is_error (t_queue t))) by (apply filter_In; auto).
  rewrite N2 in X. contradiction.
Qed.

(** The probe of a host within a scan of the scanner with one thread. *)
Lemma probe_never_raises_alone (e : env) (ip_str : string) :
  (forall port, exists b, is_port_open e ip_str port = Returns b) /\
  (forall port x, connect_ex e ip_str port = Raises x ->
                  is_port_open e ip_str port = Returns false) /\
  (forall alive, exists b, fallback_alive e ip_str alive = Returns b) /\
  (forall x,
      connect_ex e ip_str 80 = Raises x \/
      (exists c, connect_ex e ip_str 80 = Returns c /\ c <> 0 /\ ping e ip_str = Raises x) ->
      fallback_alive e ip_str false = Returns false) /\
  (exists h, resolve_hostname e ip_str = Returns h) /\
  (forall x, gethostbyaddr e ip_str = Raises x ->
             resolve_hostname e ip_str = Returns ip_str) /\
  (forall pr s devs q pc pc' s' devs' q' x,
      scan_single_ip e pr s devs q ip_str pc = Some (pc', s', devs', q') ->
      pc' <> W_raised x) /\
  (forall sched st t,
      run sched boot = Some st -> thread st = Some t ->
      Forall (fun w => forall x, w_pc w <> W_raised x) (t_futures t) /\
      Forall (fun d => exists open_ports,
                  subseq open_ports common_ports /\ ports d = ports_text open_ports)
             (t_devices t)) /\
  (forall i st st' t,
      thread st = Some t -> step (step_worker i e) st = Some st' ->
      exists t', thread st' = Some t' /\ t_pc t' = t_pc t /\
                 is_scanning (self st') = is_scanning (self st) /\
                 filter is_final (t_queue t') = filter is_final (t_queue t)) /\
  (forall sched st t,
      run sched boot = Some st -> forallb fault_free sched = true ->
      thread st = Some t ->
      (exists hosts, parse_ip_range (t_ip_range t) = Returns hosts) ->
      forall m, ~ In (Error m) (t_queue t)) /\
  (forall pr s devs q,
      is_scanning s = true ->
      filter (accepts e ip_str) common_ports <> [] ->
      let d := {| hostname := match gethostbyaddr e ip_str with
                              | Returns h => h
                              | Raises _ => ip_str
                              end;
                  ip := ip_str;
                  ports := join ", " (map str_int (filter (accepts e ip_str) common_ports)) |} in
      worker_steps 17 e pr s devs q ip_str W_entry
      = Some (W_count, set_partial_results (partial_results s ++ [d])%list s,
              (devs ++ [d])%list, q)).
Proof.
  split; [intros port; apply is_port_open_returns|].
  split; [intros port x; apply is_port_open_failure|].
  split; [intros alive; destruct (fallback_alive_returns e ip_str alive) as (b & Hb & _);
          now exists b|].
  split; [intros x; apply fallback_alive_failure|].
  split; [apply resolve_hostname_returns|].
  split; [intros x; apply resolve_hostname_failure|].
  split; [intros pr s devs q pc pc' s' devs' q' x; apply scan_single_ip_no_raise|].
  split.
  { intros sched st t Hrun Ht. assert (R : reachable st) by (now exists sched).
    destruct (reachable_inv _ R) as (W & _).
    pose proof (reachable_ports_inv _ R) as P.
    unfold wf, ports_inv in *. rewrite Ht in *.
    destruct W as (_ & _ & _ & _ & W5). destruct P as [_ P2]. now split. }
  split; [intros i st st' t; apply step_worker_frame|].
  split; [apply fault_free_no_error|].
  intros pr s devs q. apply probe_alive_host.
Qed.

(** ** More on the validator and the parser *)

Lemma rsplit1_some (sep : ascii) (s l r : string) :
  rsplit_last sep s = Some (l, r) -> rsplit1 sep s = [l; r].
Proof. unfold rsplit1. now intros ->. Qed.

Lemma rsplit_last_contains (sep : ascii) (s l r : string) :
  rsplit_last sep s = Some (l, r) -> contains sep s = true /\ s <> EmptyString.
Proof.
  intros H. apply rsplit_last_spec in H as [-> _]. split.
  - rewrite contains_app. cbn [contains]. rewrite Ascii.eqb_refl. apply orb_true_r.
  - destruct l; discriminate.
Qed.

Lemma parse_octet_int (p : string) (o : Z) :
  _parse_octet p = Returns o -> int p = Returns o /\ octet o.
Proof.
  intros H. pose proof (parse_octet_range _ _ H) as Ho. split; [|exact Ho].
  unfold _parse_octet in H. destruct p as [|c0 p0]; [discriminate|].
  destruct (negb (isascii (String c0 p0) && isdigit (String c0 p0))); [discriminate|].
  destruct (3 <? _)%nat; [discriminate|].
  destruct (negb _ && Ascii.eqb c0 _); [discriminate|].
  destruct (int (String c0 p0)) as [v|]; cbn [bind] in H; [|discriminate].
  destruct (255 <? v); [discriminate|]. congruence.
Qed.

(** The first three parts of an address text that ends in a dot-free part. *)
Lemma IPv4Address_base (bn x : string) (v : Z) :
  contains "." x = false ->
  IPv4Address (bn ++ "." ++ x) = Returns v ->
  exists p0 p1 p2 o0 o1 o2 o3,
    split "." bn = [p0; p1; p2] /\
    _parse_octet p0 = Returns o0 /\ _parse_octet p1 = Returns o1 /\
    _parse_octet p2 = Returns o2 /\ _parse_octet x = Returns o3 /\
    v = addr4 o0 o1 o2 o3 /\ contains "/" bn = false.
Proof.
  intros Hx. unfold IPv4Address.
  destruct (contains "/" (bn ++ "." ++ x)) eqn:Hs; [discriminate|].
  intros H. apply ip_int_from_string_inv in H
    as (p0 & p1 & p2 & p3 & o0 & o1 & o2 & o3 & S & A0 & A1 & A2 & A3 & ->).
  change (bn ++ "." ++ x)%string with (bn ++ String "." x)%string in S.
  rewrite (split_app_last "." bn x Hx) in S.
  change [p0; p1; p2; p3] with ([p0; p1; p2] ++ [p3])%list in S.
  apply app_inj_tail in S as [S <-].
  rewrite contains_app in Hs. apply orb_false_iff in Hs as [Hs _].
  exists p0, p1, p2, o0, o1, o2, o3. repeat split; assumption.
Qed.

Lemma IPv4Address_of_base (bn x p0 p1 p2 : string) (o0 o1 o2 o3 : Z) :
  split "." bn = [p0; p1; p2] ->
  _parse_octet p0 = Returns o0 -> _parse_octet p1 = Returns o1 ->
  _parse_octet p2 = Returns o2 -> _parse_octet x = Returns o3 ->
  contains "/" bn = false -> contains "/" x = false -> contains "." x = false ->
  IPv4Address (bn ++ "." ++ x) = Returns (addr4 o0 o1 o2 o3).
Proof.
  intros S A0 A1 A2 A3 Hb Hx Hd. unfold IPv4Address.
  assert (Hs : contains "/" (bn ++ "." ++ x) = false).
  { rewrite contains_app, Hb. cbn. exact Hx. }
  rewrite Hs.
  assert (S' : split "." (bn ++ "." ++ x) = [p0; p1; p2; x]).
  { change (bn ++ "." ++ x)%string with (bn ++ String "." x)%string.
    rewrite (split_app_last "." bn x Hd), S. reflexivity. }
  rewrite (ip_int_from_string_split _ _ _ _ _ S').
  cbn [mapM]. rewrite A0, A1, A2, A3. reflexivity.
Qed.

Lemma IPv4Address_last_octet (bn : string) (i v : Z) :
  IPv4Address (bn ++ "." ++ str_int i) = Returns v ->
  octet i /\ v mod 256 = i /\ exists q, v = q * 256 + i.
Proof.
  intros H. apply IPv4Address_base in H; [|apply str_int_no_dot].
  destruct H as (p0 & p1 & p2 & o0 & o1 & o2 & o3 & _ & _ & _ & _ & A3 & -> & _).
  apply parse_octet_str_int in A3 as [-> Hi].
  split; [exact Hi|]. unfold addr4. split.
  - rewrite Z.add_comm, Z.mod_add by lia. apply Z.mod_small. lia.
  - eexists. reflexivity.
Qed.

(** The hosts of a suffix range on a well-formed base: the element-wise
    check succeeds exactly when the end stays within an octet. *)
Lemma range_hosts_iff (bn p0 p1 p2 : string) (o0 o1 o2 lo e : Z) :
  split "." bn = [p0; p1; p2] ->
  _parse_octet p0 = Returns o0 -> _parse_octet p1 = Returns o1 ->
  _parse_octet p2 = Returns o2 -> contains "/" bn = false -> octet lo ->
  ((exists hs, mapM (fun i => IPv4Address (bn ++ "." ++ str_int i)) (range lo (e + 1))
               = Returns hs) <-> e <= 255).
Proof.
  intros S A0 A1 A2 Hb Hlo. unfold octet in Hlo. split.
  - intros [hs H]. destruct (Z_le_gt_dec e 255) as [|Hgt]; [assumption|exfalso].
    apply mapM_returns in H.
    assert (Hin : In 256 (range lo (e + 1))) by (apply in_range; lia).
    assert (X : exists v, IPv4Address (bn ++ "." ++ str_int 256) = Returns v).
    { clear - H Hin. induction H as [|i v l r Hv _ IH]; [contradiction|].
      destruct Hin as [->|Hin]; eauto. }
    destruct X as [v Hv]. apply IPv4Address_last_octet in Hv as [Ho _].
    unfold octet in Ho. lia.
  - intros He. exists (map (addr4 o0 o1 o2) (range lo (e + 1))).
    apply mapM_map. intros i Hi. apply in_range in Hi.
    apply (IPv4Address_of_base bn (str_int i) p0 p1 p2); auto.
    + apply parse_octet_ok. unfold octet. lia.
    + apply str_int_no_slash.
    + apply str_int_no_dot.
Qed.

Lemma length4 {A : Type} (l : list A) :
  (length l =? 4)%nat = true -> exists a b c d, l = [a; b; c; d].
Proof.
  destruct l as [|a [|b [|c [|d [|x l]]]]]; try discriminate. eauto.
Qed.

(** X2: an expression of the suffix-range form that the validator accepts
    is parsed to a host list exactly when its end number is at most 255;
    with a larger end the parser raises although the validator accepted. *)
Theorem validated_range_parses (s base r : string) (e : Z) :
  contains "/" s = false ->
  rsplit_last "-" s = Some (base, r) ->
  fst (validate_ip_range s) = true ->
  int r = Returns e ->
  ((exists hs, parse_ip_range s = Returns hs) <-> e <= 255).
Proof.
  intros Hslash Hsplit Hv He.
  destruct (rsplit_last_contains _ _ _ _ Hsplit) as [Hdash Hne].
  unfold validate_ip_range in Hv. destruct s as [|c s']; [contradiction|].
  unfold parse_ip_range.
  rewrite Hslash, Hdash, (rsplit1_some _ _ _ _ Hsplit) in *.
  cbn [unpack2 bind] in *.
  destruct (length (split "." base) =? 4)%nat eqn:L4.
  - destruct (IPv4Address base) as [v|] eqn:Hb; [|discriminate].
    destruct (length4 _ L4) as (p0 & p1 & p2 & p3 & Hparts).
    pose proof (join_split "." base) as Hj. rewrite Hparts in Hj. cbn [join] in Hj.
    pose proof (split_parts_no_sep "." base) as Hnd. rewrite Hparts in Hnd.
    assert (N3 : contains "." p3 = false).
    { rewrite Forall_forall in Hnd. apply Hnd. cbn. auto. }
    assert (Hb' : IPv4Address (join "." [p0; p1; p2] ++ "." ++ p3) = Returns v).
    { rewrite <- Hb, <- Hj. cbn [join]. now rewrite !append_assoc. }
    apply IPv4Address_base in Hb'; [|exact N3].
    destruct Hb' as (q0 & q1 & q2 & o0 & o1 & o2 & o3 & S & A0 & A1 & A2 & A3 & _ & Hbn).
    apply parse_octet_int in A3 as [A3 Ho3].
    rewrite Hparts. cbn [nth firstn]. rewrite A3, He. cbn [bind].
    exact (range_hosts_iff _ _ _ _ _ _ _ _ _ S A0 A1 A2 Hbn Ho3).
  - destruct (length (split "." base) =? 3)%nat eqn:L3; [|discriminate].
    destruct (IPv4Address (base ++ ".1")) as [v|] eqn:Hb; [|discriminate].
    change (base ++ ".1")%string with (base ++ "." ++ "1")%string in Hb.
    apply IPv4Address_base in Hb; [|reflexivity].
    destruct Hb as (q0 & q1 & q2 & o0 & o1 & o2 & o3 & S & A0 & A1 & A2 & _ & _ & Hbn).
    rewrite He. cbn [bind].
    refine (range_hosts_iff _ _ _ _ _ _ _ 1 _ S A0 A1 A2 Hbn _). unfold octet. lia.
Qed.

Lemma validated_range_parses_witness :
  (exists hs, parse_ip_range "10.0.0.250-255" = Returns hs) /\
  ~ (exists hs, parse_ip_range "10.0.0.250-256" = Returns hs).
Proof.
  split.
  - apply (validated_range_parses "10.0.0.250-255" "10.0.0.250" "255" 255);
      try reflexivity; lia.
  - intros H.
    apply (validated_range_parses "10.0.0.250-256" "10.0.0.250" "256" 256) in H;
      try reflexivity. lia.
Defined.

(** X3: an expression without a slash whose text before the last hyphen has
    neither four nor three dot-separated parts is refused by the parser with
    [ValueError("Invalid range format!")], whatever follows the hyphen, and
    the validator reports that message. *)
Theorem invalid_range_format (s base r : string) :
  contains "/" s = false ->
  rsplit_last "-" s = Some (base, r) ->
  length (split "." base) <> 4%nat -> length (split "." base) <> 3%nat ->
  parse_ip_range s = Raises (Exn ValueError "Invalid range format!") /\
  validate_ip_range s = (false, "Invalid IP range: Invalid range format!"%string).
Proof.
  intros Hslash Hsplit H4 H3.
  destruct (rsplit_last_contains _ _ _ _ Hsplit) as [Hdash Hne].
  apply Nat.eqb_neq in H4, H3.
  unfold parse_ip_range, validate_ip_range.
  destruct s as [|c s']; [contradiction|].
  rewrite Hslash, Hdash, (rsplit1_some _ _ _ _ Hsplit).
  cbn [unpack2 bind]. rewrite H4, H3. split; reflexivity.
Qed.

Lemma invalid_range_format_witness :
  parse_ip_range "10.0-5" = Raises (Exn ValueError "Invalid range format!") /\
  validate_ip_range "10.0-x" = (false, "Invalid IP range: Invalid range format!"%string).
Proof.
  split.
  - apply (invalid_range_format "10.0-5" "10.0" "5"); try reflexivity; discriminate.
  - apply (invalid_range_format "10.0-x" "10.0" "x"); try reflexivity; discriminate.
Defined.

Lemma validate_mirrors_parse_aux (s : string) :
  s <> EmptyString ->
  contains "/" s = true \/ contains "-" s = false ->
  match parse_ip_range s with
  | Returns _ => validate_ip_range s = (true, "Valid IP range"%string)
  | Raises x => validate_ip_range s = (false, ("Invalid IP range: " ++ exn_msg x)%string)
  end.
Proof.
  intros Hne Hcase. unfold parse_ip_range, validate_ip_range.
  destruct s as [|c s']; [contradiction|].
  destruct (contains "/" (String c s')) eqn:Hslash.
  - destruct (ip_network (String c s') false) as [n|x] eqn:Hn; cbn [bind]; [|reflexivity].
    assert (Hn' : IPv4Network (String c s') false = Returns n).
    { unfold ip_network in Hn. destruct (IPv4Network (String c s') false); [exact Hn|].
      destruct (_ || _); discriminate. }
    destruct (hosts_returns _ _ _ Hn') as [hs ->]. reflexivity.
  - destruct Hcase as [|Hdash]; [discriminate|]. rewrite Hdash.
    destruct (IPv4Address (String c s')); reflexivity.
Qed.

(** X1: on a non-empty expression that has a slash, or has neither slash
    nor hyphen, the validator mirrors the parser: it answers "Valid IP range"
    exactly when the parser returns, and otherwise "Invalid IP range: "
    followed by the text of the exception the parser raises. *)
Theorem validate_mirrors_parse (s : string) :
  s <> EmptyString ->
  contains "/" s = true \/ contains "-" s = false ->
  (fst (validate_ip_range s) = true <-> exists hs, parse_ip_range s = Returns hs) /\
  (forall hs, parse_ip_range s = Returns hs ->
              validate_ip_range s = (true, "Valid IP range"%string)) /\
  (forall x, parse_ip_range s = Raises x ->
             validate_ip_range s = (false, ("Invalid IP range: " ++ exn_msg x)%string)).
Proof.
  intros Hne Hcase. pose proof (validate_mirrors_parse_aux s Hne Hcase) as M.
  destruct (parse_ip_range s) as [hs|x]; rewrite M; cbn [fst].
  - split; [split; eauto|]. split; [reflexivity | discriminate].
  - split; [split; [discriminate | intros [hs H]; discriminate]|].
    split; [discriminate|]. intros y H. now inversion H.
Qed.

Lemma validate_mirrors_parse_witness :
  validate_ip_range "10.0.0.0/33"
  = (false, "Invalid IP range: '10.0.0.0/33' does not appear to be an IPv4 or IPv6 network"%string)
  /\ validate_ip_range "10.0.0.7" = (true, "Valid IP range"%string).
Proof.
  split.
  - destruct (validate_mirrors_parse "10.0.0.0/33" ltac:(discriminate)
                (or_introl eq_refl)) as (_ & _ & H).
    apply (H (Exn ValueError
                "'10.0.0.0/33' does not appear to be an IPv4 or IPv6 network")).
    vm_compute. reflexivity.
  - destruct (validate_mirrors_parse "10.0.0.7" ltac:(discriminate)
                (or_intror eq_refl)) as (_ & H & _).
    apply (H [167772167]). vm_compute. reflexivity.
Defined.

(** X4: for an expression that never reaches the IPv6 attempt of
    [ip_network] (it has no slash, or [IPv4Network] accepts it), a host list
    the parser returns is strictly ascending, hence free of duplicates, and
    made of 32-bit addresses; for an expression without a slash it has at
    most 256 hosts, which differ only in their last octet. *)
Theorem parse_hosts_shape (s : string) (hs : list Z) :
  ipv4_expression s = true ->
  parse_ip_range s = Returns hs ->
  StronglySorted Z.lt hs /\ NoDup hs /\ Forall address hs /\
  (contains "/" s = false ->
   (length hs <= 256)%nat /\
   forall h1 h2, In h1 hs -> In h2 hs -> h1 / 256 = h2 / 256).
Proof.
  intros _ H. destruct (parse_ip_range_sorted _ _ H) as [Hs Ha].
  split; [exact Hs|]. split; [now apply sorted_lt_nodup|]. split; [exact Ha|].
  intros Hslash. unfold parse_ip_range in H. rewrite Hslash in H.
  assert (G : forall base lo hi,
             mapM (fun i => IPv4Address (base ++ "." ++ str_int i)) (range lo hi)
             = Returns hs ->
             (length hs <= 256)%nat /\
             forall h1 h2, In h1 hs -> In h2 hs -> h1 / 256 = h2 / 256).
  { intros base lo hi M. apply mapM_returns in M.
    assert (K : forall h, In h hs ->
                  exists i, In i (range lo hi) /\
                            IPv4Address (base ++ "." ++ str_int i) = Returns h).
    { clear - M. induction M as [|i v l r Hv _ IH]; [contradiction|].
      intros h [<-|Hh]; [exists i; split; [now left | assumption]|].
      destruct (IH h Hh) as (j & Hj & Hh'). exists j. split; [now right | assumption]. }
    assert (O : forall i, In i (range lo hi) -> octet i).
    { clear - M. induction M as [|i v l r Hv _ IH]; [contradiction|].
      intros j [<-|Hj]; [now apply IPv4Address_last_octet in Hv | now apply IH]. }
    split.
    - rewrite <- (Forall2_length M), range_length.
      destruct (Z_le_gt_dec hi lo) as [|Hgt]; [lia|].
      assert (O1 : octet lo) by (apply O, in_range; lia).
      assert (O2 : octet (hi - 1)) by (apply O, in_range; lia).
      unfold octet in *. lia.
    - intros h1 h2 H1 H2.
      destruct (K _ H1) as (i & _ & Hi). destruct (K _ H2) as (j & _ & Hj).
      pose proof (IPv4Address_last_number _ _ _ _ _ Hi Hj) as D.
      apply IPv4Address_last_octet in Hi as (Oi & _ & qi & ->).
      apply IPv4Address_last_octet in Hj as (Oj & _ & qj & ->).
      unfold octet in *. rewrite !Z.div_add_l by lia.
      rewrite !Z.div_small by lia. lia. }
  destruct (contains "-" s).
  - destruct (unpack2 (rsplit1 "-" s)) as [[base_ip range_part]|]; [|discriminate].
    cbn [bind] in H.
    destruct (length (split "." base_ip) =? 4)%nat.
    + destruct (int (nth 3 (split "." base_ip) EmptyString)); [|discriminate].
      cbn [bind] in H. destruct (int range_part); [|discriminate]. cbn [bind] in H.
      now apply G in H.
    + destruct (length (split "." base_ip) =? 3)%nat; [|discriminate].
      destruct (int range_part); [|discriminate]. cbn [bind] in H. now apply G in H.
  - destruct (IPv4Address s) as [a|]; [|discriminate].
    cbn [bind] in H. inversion H; subst hs. split; [cbn; lia|].
    intros h1 h2 [<-|[]] [<-|[]]. reflexivity.
Qed.

Lemma parse_hosts_shape_witness :
  exists hs, parse_ip_range "10.0.0.9/29" = Returns hs /\
             StronglySorted Z.lt hs /\ NoDup hs /\ length hs = 6%nat.
Proof.
  destruct (parse_ip_range "10.0.0.9/29") as [hs|] eqn:E; [|vm_compute in E; discriminate].
  assert (V : ipv4_expression "10.0.0.9/29" = true) by (vm_compute; reflexivity).
  destruct (parse_hosts_shape _ _ V E) as (Hs & Hn & _).
  exists hs. split; [reflexivity|]. split; [exact Hs|]. split; [exact Hn|].
  vm_compute in E. inversion E. reflexivity.
Defined.

(** ** Address texts are canonical *)

Lemma unorm_head (d : Decimal.uint) :
  match d with Decimal.Nil | Decimal.D0 _ => False | _ => True end ->
  Decimal.unorm d = d.
Proof. destruct d; cbn; intros H; try contradiction; reflexivity. Qed.

Lemma uint_of_string_head (c : ascii) (s : string) (d : Decimal.uint) :
  NilEmpty.uint_of_string (String c s) = Some d ->
  Ascii.eqb c "0" = false ->
  match d with Decimal.Nil | Decimal.D0 _ => False | _ => True end.
Proof.
  cbn [NilEmpty.uint_of_string]. destruct (NilEmpty.uint_of_string s) as [d'|].
  - destruct c as [[|] [|] [|] [|] [|] [|] [|] [|]]; cbn; intros H E;
      try discriminate; inversion H; exact I.
  - destruct c as [[|] [|] [|] [|] [|] [|] [|] [|]]; cbn; discriminate.
Qed.

(** An accepted octet is written the way [str] writes its value. *)
Lemma parse_octet_canonical (p : string) (o : Z) :
  _parse_octet p = Returns o -> str_int o = p.
Proof.
  unfold _parse_octet. destruct p as [|c0 p0]; [discriminate|].
  destruct (isascii (String c0 p0) && isdigit (String c0 p0)) eqn:Hd;
    cbn [negb]; [|discriminate].
  destruct (3 <? String.length (String c0 p0))%nat eqn:Hlen; [discriminate|].
  destruct (negb (String.eqb (String c0 p0) "0") && Ascii.eqb c0 "0") eqn:Hz;
    [discriminate|].
  apply isascii_isdigit_all_digits in Hd as [Hn Hd].
  destruct (uint_of_digits _ Hd) as [d Hu].
  rewrite (int_digits _ d Hn Hd Hu).
  assert (L : (int_max_str_digits <? String.length (String c0 p0))%nat = false).
  { apply Nat.ltb_ge in Hlen. apply Nat.ltb_ge. unfold int_max_str_digits. lia. }
  rewrite L. cbn [bind]. destruct (255 <? Z.of_uint d); [discriminate|].
  intros H; inversion H; subst o.
  unfold str_int. change (Z.of_uint d) with (Z.of_int (Decimal.Pos d)).
  rewrite DecimalZ.to_of.
  assert (U : Decimal.unorm d = d).
  { destruct (Ascii.eqb c0 "0") eqn:E0.
    - rewrite andb_true_r in Hz. apply negb_false_iff, String.eqb_eq in Hz.
      rewrite Hz in Hu. cbn in Hu. inversion Hu. reflexivity.
    - apply unorm_head. exact (uint_of_string_head _ _ _ Hu E0). }
  cbn [Decimal.norm]. rewrite U. cbn [NilEmpty.string_of_int]. now apply NilEmpty.sus.
Qed.

(** [str(IPv4Address(s))] is [s]. *)
Lemma str_address_IPv4Address (s : string) (a : Z) :
  IPv4Address s = Returns a -> str_address a = s.
Proof.
  unfold IPv4Address. destruct (contains "/" s); [discriminate|]. intros H.
  apply ip_int_from_string_inv in H
    as (p0 & p1 & p2 & p3 & o0 & o1 & o2 & o3 & S & A0 & A1 & A2 & A3 & ->).
  pose proof (join_split "." s) as J. rewrite S in J. rewrite <- J.
  rewrite str_address_addr4 by (eapply parse_octet_range; eassumption).
  unfold dotted. cbn [map].
  now rewrite (parse_octet_canonical _ _ A0), (parse_octet_canonical _ _ A1),
    (parse_octet_canonical _ _ A2), (parse_octet_canonical _ _ A3).
Qed.

(** X5: address texts and addresses correspond one to one.  For an
    expression that never reaches the IPv6 attempt of [ip_network] (it has
    no slash, or [IPv4Network] accepts it), every host the parser returns is
    read back from its text, the text handed to the host's task, as that
    same host; and a single-address expression is parsed to the one address
    whose text is the expression itself. *)
Theorem address_text_round_trip (s : string) (hs : list Z) :
  ipv4_expression s = true ->
  parse_ip_range s = Returns hs ->
  Forall (fun h => IPv4Address (str_address h) = Returns h) hs /\
  (contains "/" s = false -> contains "-" s = false ->
   exists a, hs = [a] /\ address a /\ str_address a = s).
Proof.
  intros _ H. split.
  - apply parse_ip_range_sorted in H as [_ Ha].
    eapply Forall_impl; [|exact Ha]. intros h. apply IPv4Address_str_address.
  - intros Hslash Hdash. unfold parse_ip_range in H. rewrite Hslash, Hdash in H.
    destruct (IPv4Address s) as [a|] eqn:E; [|discriminate].
    cbn [bind] in H. inversion H; subst hs. exists a.
    split; [reflexivity|]. split; [now apply IPv4Address_range in E|].
    now apply str_address_IPv4Address.
Qed.

Lemma address_text_round_trip_witness :
  exists a, parse_ip_range "192.168.1.37" = Returns [a] /\
            str_address a = "192.168.1.37"%string /\
            IPv4Address (str_address a) = Returns a.
Proof.
  destruct (parse_ip_range "192.168.1.37") as [hs|] eqn:E; [|vm_compute in E; discriminate].
  assert (V : ipv4_expression "192.168.1.37" = true) by (vm_compute; reflexivity).
  destruct (address_text_round_trip _ _ V E) as [F G].
  destruct (G eq_refl eq_refl) as (a & -> & _ & Hs).
  exists a. split; [reflexivity|]. split; [exact Hs|]. now inversion F.
Defined.

(** ** The local network, scanned *)

Lemma range_shift (base lo hi : Z) :
  range (base + lo) (base + hi) = map (fun i => base + i) (range lo hi).
Proof.
  unfold range. rewrite map_map. replace (base + hi - (base + lo)) with (hi - lo) by lia.
  apply map_ext. intros k. lia.
Qed.

(** X6: what the helper returns for a host that resolves to [a.b.c.d] is an
    expression the validator accepts, and the parser turns it into the 254
    addresses [a.b.c.1] to [a.b.c.254]: the network and broadcast addresses
    of the /24 are left out. *)
Theorem local_range_is_scannable (host_name : string)
    (gethostbyname : string -> outcome string) (a b c d : Z) :
  octet a -> octet b -> octet c -> octet d ->
  gethostbyname host_name = Returns (dotted [a; b; c; d]) ->
  exists r,
    call_get_local_ip_range on_class (Returns host_name) gethostbyname = Returns r /\
    validate_ip_range r = (true, "Valid IP range"%string) /\
    parse_ip_range r = Returns (map (addr4 a b c) (range 1 255)).
Proof.
  intros Ha Hb Hc Hd Hres.
  assert (H0 : octet 0) by (unfold octet; lia).
  destruct (network24 a b c d Ha Hb Hc Hd) as (n & Hn & Hp & Hna & _).
  destruct (network24 a b c 0 Ha Hb Hc H0) as (m & Hm & Hpm & Hnam & _).
  exists (dotted [a; b; c; 0] ++ "/24")%string.
  assert (Hr : str_network n = (dotted [a; b; c; 0] ++ "/24")%string).
  { unfold str_network, with_prefixlen. rewrite Hna, Hp.
    change (_string_from_ip_int (addr4 a b c 0)) with (str_address (addr4 a b c 0)).
    now rewrite str_address_addr4. }
  assert (Hslash : contains "/" (dotted [a; b; c; 0] ++ "/24") = true).
  { rewrite contains_app. cbn. apply orb_true_r. }
  assert (Hparse : parse_ip_range (dotted [a; b; c; 0] ++ "/24")
                   = Returns (map (addr4 a b c) (range 1 255))).
  { unfold parse_ip_range, ip_network. rewrite Hslash, Hm. cbn [bind].
    destruct (network_shape _ _ _ Hm) as (packed & k & Hk & Hpk & _ & _ & _ & _ & Hbc).
    assert (k = 8) by lia. subst k.
    unfold hosts. change _max_prefixlen with 32. rewrite Hpm, Hbc, Hnam.
    cbn [Z.eqb Z.sub Z.opp Z.add Z.pos_sub Pos.pred_double Pos.eqb].
    change (2 ^ 8) with 256.
    replace (addr4 a b c 0 + 256 - 1) with (addr4 a b c 0 + 255) by lia.
    rewrite range_shift. f_equal. apply map_ext. intros i. unfold addr4. lia. }
  split; [|split; [|exact Hparse]].
  - unfold call_get_local_ip_range, get_local_ip_range. cbn [bind].
    rewrite Hres. cbn [bind]. rewrite Hn. cbn [bind]. now rewrite Hr.
  - assert (Hne : (dotted [a; b; c; 0] ++ "/24")%string <> EmptyString).
    { intros E. rewrite E in Hslash. discriminate. }
    pose proof (validate_mirrors_parse_aux _ Hne (or_introl Hslash)) as V.
    now rewrite Hparse in V.
Qed.

Lemma local_range_is_scannable_witness :
  exists r hs,
    call_get_local_ip_range on_class (Returns "box"%string)
      (fun _ => Returns "192.168.1.37"%string) = Returns r /\
    r = "192.168.1.0/24"%string /\
    parse_ip_range r = Returns hs /\ length hs = 254%nat.
Proof.
  destruct (local_range_is_scannable "box" (fun _ => Returns "192.168.1.37"%string)
              192 168 1 37) as (r & Hcall & _ & Hparse);
    try (unfold octet; lia); [reflexivity|].
  exists r, (map (addr4 192 168 1) (range 1 255)).
  split; [exact Hcall|]. split; [|split; [exact Hparse | reflexivity]].
  vm_compute in Hcall. now inversion Hcall.
Defined.

(** ** Tasks and hosts *)

Lemma map_w_ip_cancel (l : list worker) : map w_ip (map cancel l) = map w_ip l.
Proof.
  rewrite map_map. apply map_ext. intros w. unfold cancel.
  destruct (w_pc w); reflexivity.
Qed.

Lemma submitted_inv_step (a : action) (st st' : system) :
  step a st = Some st' -> wf st -> submitted_inv st -> submitted_inv st'.
Proof.
  intros H W S. destruct a as [r p| |e|i e].
  - cbn [step] in H. unfold scan_network_alone in H.
    destruct (negb (is_scanning (self st))); [|now inversion H; subst].
    destruct (returned (thread st)); [|discriminate].
    inversion H; subst. unfold submitted_inv. cbn. now left.
  - cbn [step] in H. inversion H; subst. exact S.
  - thread_step H. unfold submitted_inv, wf in *. rewrite Ht in *. cbn [thread].
    destruct W as (W1 & _).
    destruct (t_pc t) eqn:Hpc; inv_some; cbn [before_submit] in *;
      try (destruct (W1 eq_refl) as (F1 & _));
      try destruct (t_progress t);
      cbn [t_pc t_futures t_ip_range with_pc with_futures with_queue];
      rewrite ?map_w_ip_cancel;
      try assumption; try (now left); try (right; eauto; fail).
    all: try (eexists; split; [eassumption|]; rewrite F1; reflexivity).
    all: try (destruct S as (hs & Hp & Hm); right; exists hs; eexists;
              split; eassumption).
    all: try (destruct S as (hs & Hp & Hm); exists hs; split; [assumption|];
              rewrite Hm, map_app, <- app_assoc; reflexivity).
    all: destruct S as [S|S]; [left; now rewrite S | now right].
  - apply step_worker_view in H.
    destruct H as (t & l1 & w & l2 & Ht & Hl & H).
    unfold submitted_inv in *. rewrite Ht in S.
    assert (E : forall pc', map w_ip (l1 ++ at_pc w pc' :: l2) = map w_ip (t_futures t)).
    { intros pc'. rewrite Hl, !map_app. reflexivity. }
    destruct H as [(Hp & ->)|[(pc' & Hm & ->)|[(h & op & Hr & ->)|(Hc & ->)]]];
      cbn [thread upd_thread t_pc t_futures t_ip_range]; rewrite E;
      destruct (t_pc t); try exact S;
      (destruct S as [S|S]; [rewrite Hl in S; now destruct l1 | now right]).
Qed.

Lemma recorded_inv_step (a : action) (st st' : system) :
  step a st = Some st' -> recorded_inv st -> recorded_inv st'.
Proof.
  intros H R. destruct a as [r p| |e|i e].
  - cbn [step] in H. unfold scan_network_alone in H.
    destruct (negb (is_scanning (self st))); [|now inversion H; subst].
    destruct (returned (thread st)); [|discriminate].
    inversion H; subst. unfold recorded_inv. cbn. constructor.
  - cbn [step] in H. inversion H; subst. exact R.
  - thread_step H. unfold recorded_inv in *. rewrite Ht in *. cbn [thread].
    destruct (t_pc t) eqn:Hpc; inv_some;
      try destruct (t_progress t);
      cbn [t_futures t_devices with_pc with_futures with_queue]; try assumption.
    all: eapply Forall_impl; [|exact R]; intros d (w & Hw & Hi & Hc).
    all: try (exists w; split; [apply in_or_app; now left | auto]; fail).
    all: exists (cancel w); split; [now apply in_map|].
    all: unfold cancel; destruct (w_pc w) eqn:E; try discriminate; cbn; rewrite ?E; auto.
  - apply step_worker_view in H.
    destruct H as (t & l1 & w & l2 & Ht & Hl & H).
    unfold recorded_inv in *. rewrite Ht in R. rewrite Hl in R.
    assert (K : forall pc', (counted (w_pc w) = true -> counted pc' = true) ->
                Forall (fun d => exists w0, In w0 (l1 ++ at_pc w pc' :: l2) /\
                                            w_ip w0 = ip d /\ counted (w_pc w0) = true)
                       (t_devices t)).
    { intros pc' Hc. eapply Forall_impl; [|exact R]. intros d (w0 & Hw & Hi & Hc0).
      apply in_app_or in Hw as [Hw|[<-|Hw]].
      - exists w0. split; [apply in_or_app; now left | auto].
      - exists (at_pc w pc'). split; [apply in_or_app; right; now left|].
        split; [exact Hi | now apply Hc].
      - exists w0. split; [apply in_or_app; right; now right | auto]. }
    destruct H as [(Hp & ->)|[(pc' & Hm & ->)|[(h & op & Hr & ->)|(Hc & ->)]]];
      cbn [thread upd_thread t_futures t_devices].
    + apply K. rewrite Hp. discriminate.
    + apply K. destruct (worker_move_source _ _ _ Hm) as (S1 & _ & S3 & _).
      destruct (w_pc w); try discriminate; congruence.
    + apply Forall_app. split; [apply K; rewrite Hr; discriminate|].
      constructor; [|constructor].
      exists (at_pc w W_count). split; [apply in_or_app; right; now left|].
      split; reflexivity.
    + apply K. reflexivity.
Qed.

Lemma count_finished_le (ws : list worker) : count_finished ws <= Z.of_nat (length ws).
Proof.
  unfold count_finished. apply inj_le. apply filter_length_le.
Qed.

Lemma bound_inv_step (a : action) (st st' : system) :
  step a st = Some st' -> wf st -> progress_inv st -> bound_inv st -> bound_inv st'.
Proof.
  intros H W P [B0 B]. destruct a as [r p| |e|i e].
  - cbn [step] in H. unfold scan_network_alone in H.
    destruct (negb (is_scanning (self st))); [|now inversion H; subst].
    destruct (returned (thread st)); [|discriminate].
    inversion H; subst. unfold bound_inv. cbn.
    split; [exact B0|]. split; [exact I | constructor].
  - cbn [step] in H. inversion H; subst. split; assumption.
  - thread_step H. unfold bound_inv, wf, progress_inv in *. rewrite Ht in *.
    cbn [thread self]. destruct W as (W1 & _).
    destruct P as (_ & _ & _ & _ & P5 & _). destruct B as [B1 B2].
    destruct (t_pc t) eqn:Hpc; inv_some; cbn [before_submit] in *;
      try (destruct (W1 eq_refl) as (F1 & F2 & F3));
      try destruct (t_progress t);
      cbn [t_pc t_futures t_queue with_pc with_futures with_queue total_hosts
           set_is_scanning set_partial_results set_hosts_scanned set_total_hosts];
      rewrite ?length_map, ?F1; cbn [length];
      (split; [lia|]); (split; [solve [exact I | assumption | lia]|]);
      try assumption.
    all: apply Forall_app; split; [assumption|]; repeat constructor; lia.
  - apply step_worker_view in H.
    destruct H as (t & l1 & w & l2 & Ht & Hl & H).
    unfold bound_inv, wf, progress_inv in *. rewrite Ht in *.
    destruct W as (W1 & _ & _ & W4 & _).
    destruct P as (_ & _ & _ & _ & P5 & _). destruct B as [B1 B2].
    assert (Hb : before_submit (t_pc t) = false).
    { destruct (before_submit (t_pc t)); [|reflexivity].
      destruct (W1 eq_refl) as (F1 & _). rewrite F1 in Hl. now destruct l1. }
    assert (L : forall pc', length (l1 ++ at_pc w pc' :: l2) = length (t_futures t)).
    { intros pc'. rewrite Hl, !length_app. reflexivity. }
    destruct H as [(Hp & ->)|[(pc' & Hm & ->)|[(h & op & Hr & ->)|(Hc & ->)]]];
      cbn [thread self upd_thread t_pc t_futures t_queue total_hosts
           set_partial_results set_hosts_scanned]; rewrite L;
      (split; [exact B0|]); try (split; assumption).
    split; [assumption|]. destruct (t_progress t); [|assumption].
    apply Forall_app. split; [assumption|]. constructor; [|constructor].
    assert (H4 : hosts_scanned (self st) = count_finished (t_futures t)).
    { destruct (t_pc t); cbn in Hb; try discriminate; exact W4. }
    assert (Hn : count_finished (t_futures t) + 1 <= Z.of_nat (length (t_futures t))).
    { rewrite Hl, count_finished_app, count_finished_cons, length_app.
      unfold finished. rewrite Hc. cbn [length].
      pose proof (count_finished_le l1). pose proof (count_finished_le l2). lia. }
    pose proof (count_finished_nonneg (t_futures t)).
    destruct (t_pc t); cbn in Hb; try discriminate; lia.
Qed.

Lemma reachable_tasks_inv (st : system) :
  reachable st -> submitted_inv st /\ recorded_inv st /\ bound_inv st.
Proof.
  intros [sched H].
  assert (G : (wf st /\ final_inv st /\ progress_inv st /\ total_inv st) /\
              submitted_inv st /\ recorded_inv st /\ bound_inv st).
  { refine (run_invariant
              (fun st => (wf st /\ final_inv st /\ progress_inv st /\ total_inv st) /\
                         submitted_inv st /\ recorded_inv st /\ bound_inv st)
              _ _ _ _ H _).
    - intros a s1 s2 Hs ((W & V & P & T) & S & R & B). split.
      + split; [eapply wf_step; eauto|]. split; [eapply final_inv_step; eauto|].
        split; [eapply progress_inv_step; eauto | eapply total_inv_step; eauto].
      + split; [eapply submitted_inv_step; eauto|].
        split; [eapply recorded_inv_step; eauto | eapply bound_inv_step; eauto].
    - repeat split; try exact I. cbn. lia. }
  apply G.
Qed.

Lemma submitted_hosts (st : system) (t : scan_thread) :
  reachable st -> thread st = Some t -> t_futures t <> [] ->
  exists hosts rest,
    parse_ip_range (t_ip_range t) = Returns hosts /\
    map str_address hosts = (map w_ip (t_futures t) ++ map str_address rest)%list.
Proof.
  intros R Ht Hne. destruct (reachable_tasks_inv _ R) as (S & _).
  destruct (reachable_inv _ R) as (W & _).
  unfold submitted_inv, wf in *. rewrite Ht in *. destruct W as (W1 & _).
  destruct (t_pc t) eqn:Hpc; cbn [before_submit] in W1;
    try (destruct (W1 eq_refl) as (F1 & _); contradiction);
    try (destruct S as [S|S]; [contradiction | exact S]).
  destruct S as (hosts & Hp & Hm). eauto.
Qed.

Lemma NoDup_map_eq {A B : Type} (f : A -> B) (l : list A) (x y : A) :
  NoDup (map f l) -> In x l -> In y l -> f x = f y -> x = y.
Proof.
  induction l as [|a l IH]; cbn [map]; intros Hn Hx Hy E; [contradiction|].
  inversion Hn as [|? ? Hnin Hn']; subst.
  destruct Hx as [->|Hx], Hy as [->|Hy]; auto.
  - exfalso. apply Hnin. rewrite E. now apply in_map.
  - exfalso. apply Hnin. rewrite <- E. now apply in_map.
Qed.

(** Tasks and hosts of the scanner with one thread. *)
Lemma tasks_follow_hosts_alone (sched : list action) (st : system) (t : scan_thread) :
  run sched boot = Some st -> thread st = Some t -> t_futures t <> [] ->
  exists hosts,
    parse_ip_range (t_ip_range t) = Returns hosts /\
    (length (t_futures t) <= length hosts)%nat /\
    NoDup (map w_ip (t_futures t)) /\
    forall i w, nth_error (t_futures t) i = Some w ->
                exists h, nth_error hosts i = Some h /\ w_ip w = str_address h /\
                          IPv4Address (w_ip w) = Returns h.
Proof.
  intros Hrun Ht Hne. assert (R : reachable st) by (now exists sched).
  destruct (submitted_hosts _ _ R Ht Hne) as (hosts & rest & Hp & Hm).
  exists hosts. split; [exact Hp|].
  destruct (parsed_hosts_texts _ _ Hp) as [Hn _].
  destruct (parse_ip_range_sorted _ _ Hp) as [_ Ha].
  split; [|split].
  - apply (f_equal (@length string)) in Hm. rewrite length_app, !length_map in Hm. lia.
  - rewrite Hm in Hn. now apply NoDup_app_remove_r in Hn.
  - intros i w Hi.
    assert (Hi' : nth_error (map str_address hosts) i = Some (w_ip w)).
    { rewrite Hm, nth_error_app1.
      - now apply map_nth_error.
      - rewrite length_map. apply nth_error_Some. congruence. }
    rewrite nth_error_map in Hi'.
    destruct (nth_error hosts i) as [h|] eqn:Hh; [|discriminate].
    cbn in Hi'. inversion Hi' as [E]. exists h.
    split; [reflexivity|]. split; [reflexivity|].
    apply IPv4Address_str_address. rewrite Forall_forall in Ha.
    apply Ha. eapply nth_error_In; eauto.
Qed.

(** Devices and tasks of the scanner with one thread. *)
Lemma devices_come_from_tasks_alone (sched : list action) (st : system) (t : scan_thread) :
  run sched boot = Some st -> thread st = Some t ->
  NoDup (map ip (t_devices t)) /\
  (forall d, In d (t_devices t) ->
     exists w h hosts,
       In w (t_futures t) /\ w_ip w = ip d /\ counted (w_pc w) = true /\
       parse_ip_range (t_ip_range t) = Returns hosts /\ In h hosts /\
       ip d = str_address h /\ ip_key d = Returns h) /\
  (forall w, In w (t_futures t) -> counted (w_pc w) = false ->
             ~ In (w_ip w) (map ip (t_devices t))).
Proof.
  intros Hrun Ht. assert (R : reachable st) by (now exists sched).
  destruct (reachable_tasks_inv _ R) as (_ & Rec & _).
  destruct (reachable_devices_inv _ R) as [_ D].
  unfold recorded_inv in Rec. rewrite Ht in *. destruct D as [D _].
  apply devices_distinct in D as [Dn _]. rewrite Forall_forall in Rec.
  assert (K : forall w, In w (t_futures t) ->
                exists hosts h, parse_ip_range (t_ip_range t) = Returns hosts /\
                                In h hosts /\ w_ip w = str_address h /\
                                NoDup (map w_ip (t_futures t))).
  { intros w Hw.
    assert (Hne : t_futures t <> []) by (intros E; rewrite E in Hw; contradiction).
    destruct (submitted_hosts _ _ R Ht Hne) as (hosts & rest & Hp & Hm).
    destruct (parsed_hosts_texts _ _ Hp) as [Hn _].
    assert (Hin : In (w_ip w) (map str_address hosts)).
    { rewrite Hm. apply in_or_app. left. now apply in_map. }
    apply in_map_iff in Hin as (h & Hh & Hin).
    exists hosts, h. repeat split; auto.
    rewrite Hm in Hn. now apply NoDup_app_remove_r in Hn. }
  split; [exact Dn|]. split.
  - intros d Hd. destruct (Rec d Hd) as (w & Hw & Hi & Hc).
    destruct (K w Hw) as (hosts & h & Hp & Hh & Hwh & _).
    exists w, h, hosts. repeat split; auto; try congruence.
    unfold ip_key. rewrite <- Hi, Hwh. apply IPv4Address_str_address.
    apply parse_ip_range_sorted in Hp as [_ Ha]. rewrite Forall_forall in Ha. auto.
  - intros w Hw Hc Hin. apply in_map_iff in Hin as (d & Hi & Hd).
    destruct (Rec d Hd) as (w' & Hw' & Hi' & Hc').
    destruct (K w Hw) as (_ & _ & _ & _ & _ & Hn).
    assert (w = w') by (apply (NoDup_map_eq w_ip (t_futures t)); auto; congruence).
    subst w'. congruence.
Qed.

(** Bounds on the progress of the scanner with one thread. *)
Lemma progress_within_total_alone (sched : list action) (st : system) (t : scan_thread) :
  run sched boot = Some st -> thread st = Some t ->
  Forall (fun ev => match ev with
                    | Progress n tot => 0 <= n <= tot /\ tot = total_hosts (self st)
                    | _ => True
                    end) (t_queue t) /\
  (before_submit (t_pc t) = false ->
   0 <= hosts_scanned (self st) <= total_hosts (self st) /\
   Z.of_nat (length (t_futures t)) <= total_hosts (self st)).
Proof.
  intros Hrun Ht. assert (R : reachable st) by (now exists sched).
  destruct (reachable_tasks_inv _ R) as (_ & _ & [_ B]).
  destruct (reachable_inv _ R) as (W & _ & P & _).
  unfold bound_inv, wf, progress_inv in *. rewrite Ht in *.
  destruct W as (_ & _ & _ & W4 & _). destruct P as (_ & _ & _ & P4 & P5 & _).
  destruct B as [B1 B2]. split.
  - rewrite Forall_forall in *. intros ev Hev.
    specialize (P4 ev Hev). specialize (B2 ev Hev). destruct ev; auto.
  - intros Hb.
    assert (L : Z.of_nat (length (t_futures t)) <= total_hosts (self st)).
    { destruct (t_pc t); cbn in Hb; try discriminate; try exact B1. lia. }
    split; [|exact L].
    assert (H4 : hosts_scanned (self st) = count_finished (t_futures t)).
    { destruct (t_pc t); cbn in Hb; try discriminate; exact W4. }
    pose proof (count_finished_nonneg (t_futures t)).
    pose proof (count_finished_le (t_futures t)). lia.
Qed.

(** The completed list and the accumulator of the scanner with one thread. *)
Lemma completion_is_partial_results_alone (sched : list action) (st : system)
    (t : scan_thread) (ds : list device) :
  run sched boot = Some st -> thread st = Some t -> In (Complete ds) (t_queue t) ->
  t_pc t = C_exit /\ is_scanning (self st) = false /\
  partial_results (self st) = t_devices t /\
  get_partial_results (self st) = Returns ds.
Proof.
  intros Hrun Ht Hin. assert (R : reachable st) by (now exists sched).
  destruct (reachable_inv _ R) as (W & V & _).
  destruct (reachable_devices_inv _ R) as [_ D].
  unfold wf, final_inv in *. rewrite Ht in *.
  destruct W as (_ & _ & W3 & _). destruct V as (V1 & V2 & _). destruct D as [_ D].
  assert (Hf : In (Complete ds) (filter is_final (t_queue t))) by (apply filter_In; auto).
  assert (Hpc : t_pc t = C_exit).
  { destruct (t_pc t); auto;
      destruct (filter is_final (t_queue t)); try contradiction; cbn in V1; lia. }
  rewrite Hpc in *. split; [reflexivity|]. split.
  - apply V2. intros X. rewrite X in Hf. contradiction.
  - split; [exact W3|]. unfold get_partial_results. rewrite W3. now apply D.
Qed.

(** ** A scan ends *)

Lemma tasks_rank_app (l1 l2 : list worker) :
  tasks_rank (l1 ++ l2) = (tasks_rank l1 + tasks_rank l2)%nat.
Proof. unfold tasks_rank. now rewrite map_app, list_sum_app. Qed.

Lemma tasks_rank_cons (w : worker) (l : list worker) :
  tasks_rank (w :: l) = (worker_rank (w_pc w) + tasks_rank l)%nat.
Proof. reflexivity. Qed.

Lemma tasks_rank_cancel (l : list worker) : (tasks_rank (map cancel l) <= tasks_rank l)%nat.
Proof.
  induction l as [|w l IH]; [reflexivity|].
  cbn [map]. rewrite !tasks_rank_cons.
  assert (worker_rank (w_pc (cancel w)) <= worker_rank (w_pc w))%nat.
  { unfold cancel. destruct (w_pc w) eqn:E; cbn [w_pc]; rewrite ?E; cbn [worker_rank]; lia. }
  lia.
Qed.

Lemma worker_move_rank (flag : bool) (pc pc' : worker_pc) :
  worker_move flag pc pc' -> (worker_rank pc' < worker_rank pc)%nat.
Proof. intros H; inversion H; subst; cbn; lia. Qed.

(** Every step of the scan thread or of a task uses up the bound. *)
Lemma steps_left_step (a : action) (st st' : system) :
  is_step a = true -> step a st = Some st' -> (steps_left st' < steps_left st)%nat.
Proof.
  intros Ha H. destruct a as [r p| |e|i e]; try discriminate.
  - thread_step H. unfold steps_left. rewrite Ht. cbn [thread].
    unfold thread_rank.
    destruct (t_pc t) eqn:Hpc; inv_some;
      try destruct (t_progress t);
      cbn [t_pc t_futures t_ip_range with_pc with_futures with_queue];
      rewrite ?Hpc, ?length_map, ?length_app, ?tasks_rank_app;
      try (pose proof (tasks_rank_cancel (t_futures t)));
      unfold hosts_count; rewrite ?Heqo;
      rewrite ?tasks_rank_cons; cbn [length w_pc worker_rank common_ports];
      change (tasks_rank []) with 0%nat;
      try match goal with
          | E : (_ <? _)%nat = true |- _ => apply Nat.ltb_lt in E
          end; lia.
  - apply step_worker_view in H.
    destruct H as (t & l1 & w & l2 & Ht & Hl & H).
    unfold steps_left. rewrite Ht.
    assert (K : forall pc' devs q,
               (worker_rank pc' < worker_rank (w_pc w))%nat ->
               (thread_rank (upd_thread t devs (l1 ++ at_pc w pc' :: l2) q)
                + tasks_rank (l1 ++ at_pc w pc' :: l2)
                < thread_rank t + tasks_rank (t_futures t))%nat).
    { intros pc' devs q Hr.
      assert (E : thread_rank (upd_thread t devs (l1 ++ at_pc w pc' :: l2) q)
                  = thread_rank t).
      { unfold thread_rank. cbn [upd_thread t_pc t_futures t_ip_range].
        rewrite Hl, !length_app. reflexivity. }
      rewrite E, Hl.
      change (at_pc w pc' :: l2) with ([at_pc w pc'] ++ l2)%list.
      change (w :: l2) with ([w] ++ l2)%list.
      rewrite !tasks_rank_app, !tasks_rank_cons. cbn [at_pc w_pc]. lia. }
    destruct H as [(Hp & ->)|[(pc' & Hm & ->)|[(h & op & Hr & ->)|(Hc & ->)]]];
      cbn [thread]; apply K.
    + rewrite Hp. cbn. lia.
    + eapply worker_move_rank; eauto.
    + rewrite Hr. cbn. lia.
    + rewrite Hc. cbn. lia.
Qed.

Lemma steps_left_call (a : action) (st st' : system) :
  no_start a = true -> is_step a = false -> step a st = Some st' ->
  steps_left st' = steps_left st.
Proof.
  intros Hn Ha H. destruct a as [r p| |e|i e]; try discriminate.
  cbn [step] in H. inversion H; subst. reflexivity.
Qed.

(** X11: a scan ends.  Between two starts, however the steps of the scan
    thread and of the tasks interleave with calls of [stop_scan], each step
    uses up a bound that the state determines; a scan of n hosts takes at
    most 14 + 21 n steps from its start. *)
Theorem scan_terminates (sched : list action) (st st' : system) :
  forallb no_start sched = true ->
  run sched st = Some st' ->
  (length (filter is_step sched) + steps_left st' <= steps_left st)%nat /\
  (forall ip_range pr st0,
      step (call_scan_network ip_range pr) st0 = Some st ->
      is_scanning (self st0) = false ->
      (length (filter is_step sched) <= 14 + 21 * hosts_count ip_range)%nat).
Proof.
  intros Hns Hrun.
  assert (G : (length (filter is_step sched) + steps_left st' <= steps_left st)%nat).
  { revert st Hrun. induction sched as [|a sched IH]; intros st Hrun.
    - inversion Hrun; subst. cbn. lia.
    - cbn [forallb] in Hns. apply andb_true_iff in Hns as [Ha Hns].
      cbn [run] in Hrun. destruct (step a st) as [st1|] eqn:E; [|discriminate].
      specialize (IH Hns st1 Hrun). cbn [filter].
      destruct (is_step a) eqn:Hs.
      + pose proof (steps_left_step _ _ _ Hs E). cbn [length]. lia.
      + rewrite <- (steps_left_call _ _ _ Ha Hs E). exact IH. }
  split; [exact G|].
  intros ip_range pr st0 Hstart Hflag.
  cbn [step] in Hstart. unfold scan_network_alone in Hstart. rewrite Hflag in Hstart.
  cbn [negb] in Hstart. destruct (returned (thread st0)); [|discriminate].
  inversion Hstart; subst st. unfold steps_left in G at 2. cbn in G. lia.
Qed.

Lemma scan_terminates_witness :
  exists st',
    run (tl sample_scan) {| self := init; thread := Some (new_thread "10.0.0.1-2" true) |}
    = Some st' /\
    (length (filter is_step (tl sample_scan)) <= 14 + 21 * hosts_count "10.0.0.1-2")%nat /\
    steps_left st' = 0%nat.
Proof.
  destruct (run (tl sample_scan)
              {| self := init; thread := Some (new_thread "10.0.0.1-2" true) |})
    as [st'|] eqn:E; [|vm_compute in E; discriminate].
  destruct (scan_terminates (tl sample_scan) _ st' eq_refl E) as [_ H].
  exists st'. split; [reflexivity|]. split.
  - apply (H "10.0.0.1-2" true boot); reflexivity.
  - vm_compute in E. inversion E; subst. reflexivity.
Defined.

(** ** A scan is never stuck *)

Lemma scan_single_ip_enabled (e : env) (pr : bool) (s : NetworkScanner)
    (devs : list device) (q : list event) (ip_str : string) (pc : worker_pc) :
  settled pc = false -> pc <> W_pending ->
  exists r, scan_single_ip e pr s devs q ip_str pc = Some r.
Proof.
  intros Hs Hp. destruct pc as [| |rest alive op|alive op|alive op|op|h op| | | | |];
    try discriminate; try contradiction; cbn [scan_single_ip].
  - destruct (negb (is_scanning s)); eauto.
  - destruct rest as [|p rest]; [eauto|].
    destruct (negb (is_scanning s)); [eauto|].
    destruct (is_port_open e ip_str p) as [[|]|]; eauto.
  - destruct (negb alive && is_scanning s); [|eauto].
    destruct (fallback_alive e ip_str alive); eauto.
  - destruct (alive && is_scanning s); eauto.
  - destruct (resolve_hostname e ip_str); eauto.
  - eauto.
  - eauto.
Qed.

Lemma unsettled_task (ws : list worker) :
  forallb (fun w => settled (w_pc w)) ws = false ->
  exists i w, nth_error ws i = Some w /\ settled (w_pc w) = false.
Proof.
  induction ws as [|w ws IH]; [discriminate|]. cbn [forallb].
  destruct (settled (w_pc w)) eqn:E.
  - cbn. intros H. destruct (IH H) as (i & w' & Hi & Hw). now exists (S i), w'.
  - intros _. now exists 0%nat, w.
Qed.

Lemma running_task (ws : list worker) :
  (0 < count_running ws)%nat ->
  exists i w, nth_error ws i = Some w /\ running (w_pc w) = true.
Proof.
  unfold count_running. induction ws as [|w ws IH]; cbn [filter length]; [lia|].
  destruct (running (w_pc w)) eqn:E.
  - intros _. now exists 0%nat, w.
  - intros H. destruct (IH H) as (i & w' & Hi & Hw). now exists (S i), w'.
Qed.

Lemma task_can_step (e : env) (st : system) (t : scan_thread) (i : nat) (w : worker) :
  thread st = Some t -> nth_error (t_futures t) i = Some w ->
  settled (w_pc w) = false -> w_pc w <> W_pending ->
  exists st', step (step_worker i e) st = Some st'.
Proof.
  intros Ht Hi Hs Hp. cbn [step]. rewrite Ht, Hi.
  destruct (scan_single_ip_enabled e (t_progress t) (self st) (t_devices t)
              (t_queue t) (w_ip w) (w_pc w) Hs Hp) as [[[[pc' s'] devs'] q'] E].
  destruct (w_pc w); try contradiction; rewrite E; eauto.
Qed.

Lemma task_can_act (e : env) (w : world) (j : nat) (t : scan_thread) (i : nat)
    (k : worker) :
  nth_error (threads w) j = Some t -> nth_error (t_futures t) i = Some k ->
  settled (w_pc k) = false -> w_pc k <> W_pending ->
  exists w', act (task_step j i e) w = Some w'.
Proof.
  intros Hj Hi Hs Hp. cbn [act]. rewrite Hj. unfold run_task. rewrite Hi.
  destruct (scan_single_ip_enabled e (t_progress t) (scanner w) (t_devices t)
              (t_queue t) (w_ip k) (w_pc k) Hs Hp) as [[[[pc' s'] devs'] q'] E].
  destruct (w_pc k); try contradiction; rewrite E; eauto.
Qed.

(** X12: a scan is never stuck, whatever the network answers and whatever
    the runtime does.  A scan thread that has not returned can take its next
    step, unless it waits: it waits only when it leaves the pool block while
    a task of its own is not settled, and then such a task can take a step.
    This holds for each scan thread of the scanner, whatever the other
    threads are doing. *)
Theorem scan_can_proceed (e : env) (w : world) (j : nat) (t : scan_thread) :
  nth_error (threads w) j = Some t -> t_pc t <> C_exit ->
  (exists w', act (thread_step j e) w = Some w') \/
  (act (thread_step j e) w = None /\
   exists p i k w',
     t_pc t = C_shutdown p /\
     nth_error (t_futures t) i = Some k /\ settled (w_pc k) = false /\
     act (task_step j i e) w = Some w').
Proof.
  intros Hj Hpc.
  destruct (do_scan e (scanner w) t) as [[s' t']|] eqn:D.
  { left. eexists. cbn [act]. rewrite Hj, D. reflexivity. }
  right. split; [cbn [act]; now rewrite Hj, D|].
  assert (U : (exists p, t_pc t = C_shutdown p) /\
              forallb (fun k => settled (w_pc k)) (t_futures t) = false).
  { unfold do_scan in D. destruct (t_pc t); try contradiction;
      repeat match type of D with
             | context [match ?x with _ => _ end] => destruct x eqn:?
             end; try discriminate D; split; eauto. }
  destruct U as [[p Hp] U]. exists p.
  destruct (unsettled_task _ U) as (i & k & Hi & Hs).
  assert (Hd : w_pc k = W_pending \/ w_pc k <> W_pending).
  { destruct (w_pc k); try (right; discriminate). now left. }
  destruct Hd as [Hw|Hw].
  2: { destruct (task_can_act e w j t i k Hj Hi Hs Hw) as [w' H].
       exists i, k, w'. auto. }
  destruct (count_running (t_futures t) <? max_workers)%nat eqn:C.
  - exists i, k. eexists. split; [exact Hp|]. split; [exact Hi|]. split; [exact Hs|].
    cbn [act]. rewrite Hj. unfold run_task. rewrite Hi, Hw, C. reflexivity.
  - apply Nat.ltb_ge in C. unfold max_workers in C.
    destruct (running_task (t_futures t) ltac:(lia)) as (i' & k' & Hi' & Hr).
    assert (Hs' : settled (w_pc k') = false /\ w_pc k' <> W_pending).
    { unfold running in Hr. destruct (w_pc k'); try discriminate; split;
        try reflexivity; discriminate. }
    destruct (task_can_act e w j t i' k' Hj Hi' (proj1 Hs') (proj2 Hs')) as [w' H].
    exists i', k', w'. split; [exact Hp|]. split; [exact Hi'|].
    split; [exact (proj1 Hs') | exact H].
Qed.

Lemma scan_can_proceed_witness :
  exists w t i w',
    play waiting_moves fresh = Some w /\ nth_error (threads w) 0 = Some t /\
    t_pc t = C_shutdown None /\
    act (thread_step 0 exhausted_runtime) w = None /\
    act (task_step 0 i exhausted_runtime) w = Some w'.
Proof.
  destruct (play waiting_moves fresh) as [w|] eqn:E; [|vm_compute in E; discriminate].
  destruct (nth_error (threads w) 0) as [t|] eqn:Ht;
    [|vm_compute in E; inversion E; subst; discriminate].
  assert (Hpc : t_pc t = C_shutdown None).
  { vm_compute in E. inversion E; subst. inversion Ht; subst. reflexivity. }
  assert (Hne : t_pc t <> C_exit) by (rewrite Hpc; discriminate).
  destruct (scan_can_proceed exhausted_runtime w 0 t Ht Hne)
    as [[w' H]|(Hn & p & i & k & w' & _ & _ & _ & H)].
  - exfalso. vm_compute in E. inversion E; subst. vm_compute in H. discriminate.
  - exists w, t, i, w'. repeat split; assumption.
Defined.

(** ** The final callback *)






(** ** A host without an open port *)

Lemma worker_steps_app (n m : nat) (e : env) (pr : bool) (s : NetworkScanner)
    (devs : list device) (q : list event) (ip_str : string) (pc : worker_pc)
    (r : worker_pc * NetworkScanner * list device * list event) :
  worker_steps n e pr s devs q ip_str pc = Some r ->
  worker_steps (n + m) e pr s devs q ip_str pc
  = let '(pc', s', devs', q') := r in worker_steps m e pr s' devs' q' ip_str pc'.
Proof.
  revert s devs q pc. induction n as [|n IH]; intros s devs q pc H.
  - cbn in H. inversion H; subst. reflexivity.
  - cbn [Nat.add]. rewrite worker_steps_S in *.
    destruct (scan_single_ip e pr s devs q ip_str pc) as [[[[pc1 s1] devs1] q1]|];
      [|discriminate]. now apply IH.
Qed.

Lemma fallback_alive_iff (e : env) (ip_str : string) :
  accepts e ip_str 80 = false ->
  (fallback_alive e ip_str false = Returns true <->
   (exists c, connect_ex e ip_str 80 = Returns c) /\ ping e ip_str = Returns true) /\
  (fallback_alive e ip_str false = Returns true \/
   fallback_alive e ip_str false = Returns false).
Proof.
  unfold accepts, is_port_open, fallback_alive, try_except_all.
  destruct (connect_ex e ip_str 80) as [c|x]; cbn [bind].
  - destruct (c =? 0); [discriminate|]. intros _.
    destruct (ping e ip_str) as [[|]|]; cbn [bind]; split; auto;
      split; try discriminate; eauto; intros [_ H]; discriminate.
  - intros _. split; [|now right].
    split; [discriminate | intros [[c H] _]; discriminate].
Qed.

(** X14: a task that runs while the flag stays set, on a host none of whose
    probed ports accepts.  When the second connection attempt to port 80
    returns (an error code) and the host answers the ping, the task records
    the host with the text "Host alive (no open ports detected)" and its
    resolved name, or the address when resolution fails.  Otherwise - also
    when that connection attempt raises, for then the ping is not tried - the
    task records nothing; it still counts the host and queues the progress
    callback. *)
Theorem probe_without_open_port (e : env) (pr : bool) (s : NetworkScanner)
    (devs : list device) (q : list event) (ip_str : string) :
  is_scanning s = true ->
  filter (accepts e ip_str) common_ports = [] ->
  ((exists c, connect_ex e ip_str 80 = Returns c) /\ ping e ip_str = Returns true ->
   let d := {| hostname := match gethostbyaddr e ip_str with
                           | Returns h => h
                           | Raises _ => ip_str
                           end;
               ip := ip_str;
               ports := "Host alive (no open ports detected)" |} in
   worker_steps 17 e pr s devs q ip_str W_entry
   = Some (W_count, set_partial_results (partial_results s ++ [d])%list s,
           (devs ++ [d])%list, q)) /\
  (~ ((exists c, connect_ex e ip_str 80 = Returns c) /\ ping e ip_str = Returns true) ->
   worker_steps 16 e pr s devs q ip_str W_entry
   = Some (W_finished, set_hosts_scanned (hosts_scanned s + 1) s, devs,
           if pr then (q ++ [Progress (hosts_scanned s + 1) (total_hosts s)])%list
           else q)).
Proof.
  intros Hf Hnone.
  assert (H80 : accepts e ip_str 80 = false).
  { destruct (accepts e ip_str 80) eqn:A; [|reflexivity].
    assert (X : In 80 (filter (accepts e ip_str) common_ports)).
    { apply filter_In. split; [cbn; auto | exact A]. }
    rewrite Hnone in X. contradiction. }
  destruct (fallback_alive_iff e ip_str H80) as [Hiff Hcases].
  assert (Hex : existsb (accepts e ip_str) common_ports = false).
  { destruct (existsb (accepts e ip_str) common_ports) eqn:X; [|reflexivity].
    apply existsb_exists in X as (p & Hp & Ha).
    assert (Y : In p (filter (accepts e ip_str) common_ports)) by (apply filter_In; auto).
    rewrite Hnone in Y. contradiction. }
  pose proof (port_loop e pr s devs q ip_str common_ports false [] Hf) as Hloop.
  rewrite Hex, Hnone in Hloop. cbn [orb app] in Hloop.
  assert (Hhead : forall m,
             worker_steps (S (S (length common_ports) + m)) e pr s devs q ip_str W_entry
             = worker_steps m e pr s devs q ip_str (W_fallback false [])).
  { intros m. rewrite worker_steps_S. cbn [scan_single_ip]. rewrite Hf. cbn [negb].
    now rewrite (worker_steps_app _ m _ _ _ _ _ _ _ _ Hloop). }
  split.
  - intros Halive d. apply Hiff in Halive.
    change 17%nat with (S (S (length common_ports) + 4))%nat. rewrite Hhead.
    cbn [worker_steps scan_single_ip negb andb]. rewrite Hf, Halive.
    cbn [worker_steps scan_single_ip negb andb]. rewrite Hf.
    cbn [worker_steps scan_single_ip].
    unfold resolve_hostname, try_except_all. subst d.
    destruct (gethostbyaddr e ip_str); reflexivity.
  - intros Hdead.
    assert (Hfb : fallback_alive e ip_str false = Returns false).
    { destruct Hcases as [H|H]; [|exact H]. apply Hiff in H. contradiction. }
    change 16%nat with (S (S (length common_ports) + 3))%nat. rewrite Hhead.
    cbn [worker_steps scan_single_ip negb andb]. rewrite Hf, Hfb.
    cbn [worker_steps scan_single_ip negb andb]. reflexivity.
Qed.

Lemma probe_without_open_port_witness :
  worker_steps 16 quiet_net true (set_is_scanning true init) [] [] "10.0.0.2" W_entry
  = Some (W_finished, set_hosts_scanned 1 (set_is_scanning true init), [],
          [Progress 1 0]).
Proof.
  destruct (probe_without_open_port quiet_net true (set_is_scanning true init) [] []
              "10.0.0.2" eq_refl eq_refl) as [_ H].
  apply H. intros [_ Hp]. discriminate Hp.
Defined.

(** ** Several scan threads and one *)

Lemma reachable_step (a : action) (st st' : system) :
  reachable st -> step a st = Some st' -> reachable st'.
Proof.
  intros [sched H] Hs. exists (sched ++ [a])%list.
  rewrite run_app, H. cbn [run]. now rewrite Hs.
Qed.

Lemma step_worker_run_task (i : nat) (e : env) (st : system) :
  step (step_worker i e) st
  = match thread st with
    | Some t =>
        match run_task e (self st) t i with
        | Some (s', t') => Some {| self := s'; thread := Some t' |}
        | None => None
        end
    | None => None
    end.
Proof.
  cbn [step]. unfold run_task. destruct (thread st) as [t|]; [|reflexivity].
  destruct (nth_error (t_futures t) i) as [w|]; [|reflexivity].
  destruct (w_pc w);
    try (destruct (scan_single_ip _ _ _ _ _ _ _) as [[[[pc' s'] devs'] q']|];
         reflexivity).
  destruct (_ <? _)%nat; reflexivity.
Qed.

Lemma nth_error_snoc {A : Type} (l : list A) (x y : A) (j : nat) :
  nth_error (l ++ [x]) j = Some y ->
  (j = length l /\ y = x) \/ ((j < length l)%nat /\ nth_error l j = Some y).
Proof.
  intros H. destruct (Nat.lt_ge_cases j (length l)) as [Hlt|Hge].
  - right. split; [exact Hlt|]. now rewrite nth_error_app1 in H.
  - rewrite nth_error_app2 in H by exact Hge.
    destruct (j - length l)%nat as [|k] eqn:E.
    + cbn in H. inversion H. left. split; [lia | reflexivity].
    + cbn in H. destruct k; discriminate.
Qed.

Lemma set_nth_snoc {A : Type} (l : list A) (x y : A) :
  set_nth (length l) y (l ++ [x]) = (l ++ [y])%list.
Proof. induction l as [|a l IH]; cbn; [reflexivity | now rewrite IH]. Qed.

Lemma retired_stuck (e : env) (s : NetworkScanner) (t : scan_thread) (i : nat) :
  retired t -> do_scan e s t = None /\ run_task e s t i = None.
Proof.
  intros [Hpc Hs]. split; [unfold do_scan; now rewrite Hpc|].
  unfold run_task. destruct (nth_error (t_futures t) i) as [w|] eqn:Hi; [|reflexivity].
  rewrite Forall_forall in Hs. specialize (Hs w (nth_error_In _ _ Hi)).
  destruct (w_pc w); try discriminate; reflexivity.
Qed.

(** An orderly move of the world is the same action of the scanner with
    its latest thread. *)
Lemma orderly_act (m : move) (w w' : world) (st : system) :
  reachable st -> one_scan w st -> act m w = Some w' -> orderly [m] w = true ->
  exists st', step (as_action m) st = Some st' /\ one_scan w' st'.
Proof.
  intros R [Hself Hth] Hact Hord. destruct st as [s th]. cbn [self thread] in *. subst s.
  destruct m as [r p| |j e|j i e]; cbn [act as_action] in *.
  - inversion Hact; subst w'; clear Hact. cbn [step]. unfold scan_network_alone, scan_network.
    cbn [self thread]. cbn [orderly] in Hord. rewrite andb_true_r in Hord.
    destruct (is_scanning (scanner w)) eqn:F; cbn [negb].
    + eexists. split; [reflexivity|]. split; [reflexivity | exact Hth].
    + cbn [orb] in Hord. apply andb_true_iff in Hord as [Hret _].
      assert (Hr : returned th = true /\ Forall retired (threads w)).
      { destruct Hth as [[Hnil ->]|(old & t & Hl & -> & Hold)].
        - split; [reflexivity|]. rewrite Hnil. constructor.
        - unfold returned_all in Hret. rewrite Hl, forallb_app in Hret.
          apply andb_true_iff in Hret as [_ Ht]. cbn in Ht. rewrite andb_true_r in Ht.
          split; [exact Ht|]. rewrite Hl. apply Forall_app. split; [exact Hold|].
          constructor; [|constructor].
          assert (Hpc : t_pc t = C_exit) by (destruct (t_pc t); try discriminate; reflexivity).
          split; [exact Hpc|].
          destruct (reachable_inv _ R) as (W & _). unfold wf in W. cbn [thread] in W.
          destruct W as (_ & W2 & _). apply W2. now rewrite Hpc. }
      destruct Hr as [Hr Hall]. rewrite Hr. eexists. split; [reflexivity|].
      split; [reflexivity|]. right. cbn [threads thread]. eauto.
  - inversion Hact; subst w'; clear Hact. eexists. split; [reflexivity|].
    split; [reflexivity | exact Hth].
  - destruct (nth_error (threads w) j) as [tj|] eqn:Hj; [|discriminate].
    destruct (do_scan e (scanner w) tj) as [[s' t']|] eqn:D; [|discriminate].
    inversion Hact; subst w'; clear Hact.
    destruct Hth as [[Hnil _]|(old & t & Hl & -> & Hold)];
      [rewrite Hnil in Hj; destruct j; discriminate|].
    rewrite Hl in Hj. apply nth_error_snoc in Hj as [[-> ->]|[_ Hj]].
    + cbn [step thread self]. rewrite D. eexists. split; [reflexivity|].
      split; [reflexivity|]. right. cbn [threads thread]. rewrite Hl, set_nth_snoc. eauto.
    + rewrite Forall_forall in Hold. specialize (Hold tj (nth_error_In _ _ Hj)).
      destruct (retired_stuck e (scanner w) tj 0 Hold) as [X _]. congruence.
  - destruct (nth_error (threads w) j) as [tj|] eqn:Hj; [|discriminate].
    destruct (run_task e (scanner w) tj i) as [[s' t']|] eqn:D; [|discriminate].
    inversion Hact; subst w'; clear Hact.
    destruct Hth as [[Hnil _]|(old & t & Hl & -> & Hold)];
      [rewrite Hnil in Hj; destruct j; discriminate|].
    rewrite Hl in Hj. apply nth_error_snoc in Hj as [[-> ->]|[_ Hj]].
    + rewrite step_worker_run_task. cbn [thread self]. rewrite D.
      eexists. split; [reflexivity|].
      split; [reflexivity|]. right. cbn [threads thread]. rewrite Hl, set_nth_snoc. eauto.
    + rewrite Forall_forall in Hold. specialize (Hold tj (nth_error_In _ _ Hj)).
      destruct (retired_stuck e (scanner w) tj i Hold) as [_ X]. congruence.
Qed.

Lemma orderly_play_from (ms : list move) (w w' : world) (st : system) :
  reachable st -> one_scan w st -> play ms w = Some w' -> orderly ms w = true ->
  exists st', run (map as_action ms) st = Some st' /\ one_scan w' st'.
Proof.
  revert w st. induction ms as [|m ms IH]; intros w st R O Hp Ho.
  - inversion Hp; subst. exists st. split; [reflexivity | exact O].
  - cbn [play] in Hp. destruct (act m w) as [w1|] eqn:Ha; [|discriminate].
    cbn [orderly] in Ho. rewrite Ha in Ho. apply andb_true_iff in Ho as [Hm Ho].
    assert (Ho1 : orderly [m] w = true).
    { cbn [orderly]. rewrite Ha, Hm. reflexivity. }
    destruct (orderly_act m w w1 st R O Ha Ho1) as (st1 & Hs & O1).
    destruct (IH w1 st1 (reachable_step _ _ _ R Hs) O1 Hp Ho) as (st' & Hr & O').
    exists st'. split; [|exact O']. cbn [map run]. now rewrite Hs.
Qed.

Lemma current_snoc (old : list scan_thread) (t : scan_thread) (s : NetworkScanner) :
  current {| scanner := s; threads := (old ++ [t])%list |} = Some t.
Proof. unfold current. cbn [threads]. now rewrite rev_unit. Qed.

(** What an orderly play from the fresh world reaches is reached by the
    scanner with one scan thread, on the same actions. *)
Lemma orderly_play (ms : list move) (w : world) :
  play ms fresh = Some w -> orderly ms fresh = true ->
  exists st, run (map as_action ms) boot = Some st /\
             self st = scanner w /\ thread st = current w.
Proof.
  intros Hp Ho.
  assert (R : reachable boot) by (exists []; reflexivity).
  assert (O : one_scan fresh boot).
  { split; [reflexivity|]. left. split; reflexivity. }
  destruct (orderly_play_from ms fresh w boot R O Hp Ho) as (st & Hr & Hs & Ht).
  exists st. split; [exact Hr|]. split; [exact Hs|].
  destruct Ht as [[Hnil ->]|(old & t & Hl & -> & _)].
  - unfold current. now rewrite Hnil.
  - unfold current. now rewrite Hl, rev_unit.
Qed.

Lemma calm_fault_free (ms : list move) :
  forallb fault_free (map as_action ms) = forallb calm ms.
Proof.
  induction ms as [|m ms IH]; [reflexivity|]. cbn [map forallb]. rewrite IH.
  f_equal. destruct m; reflexivity.
Qed.

Lemma nth_error_set_nth {A : Type} (l : list A) (j : nat) (x y : A) :
  nth_error l j = Some x -> nth_error (set_nth j y l) j = Some y.
Proof.
  revert j. induction l as [|a l IH]; intros [|j] H; try discriminate; cbn in *;
    [reflexivity | now apply IH].
Qed.

Lemma nth_error_set_nth_other {A : Type} (l : list A) (j k : nat) (y : A) :
  k <> j -> nth_error (set_nth j y l) k = nth_error l k.
Proof.
  revert j k. induction l as [|a l IH]; intros [|j] [|k] H; cbn; try reflexivity;
    [contradiction | apply IH; congruence].
Qed.


Lemma run_task_frame (e : env) (s s' : NetworkScanner) (t t' : scan_thread) (i : nat) :
  run_task e s t i = Some (s', t') ->
  t_pc t' = t_pc t /\ is_scanning s' = is_scanning s /\
  filter is_final (t_queue t') = filter is_final (t_queue t).
Proof.
  intros H.
  assert (S : step (step_worker i e) {| self := s; thread := Some t |}
              = Some {| self := s'; thread := Some t' |}).
  { rewrite step_worker_run_task. cbn [thread self]. now rewrite H. }
  destruct (step_worker_frame i e {| self := s; thread := Some t |} _ t eq_refl S) as (t'' & Ht & Hpc & Hf & Hq).
  cbn [thread self] in *. inversion Ht; subst t''. auto.
Qed.

Lemma play_invariant (P : world -> Prop) :
  (forall m w w', act m w = Some w' -> P w -> P w') ->
  forall ms w w', play ms w = Some w' -> P w -> P w'.
Proof.
  intros Hstep ms. induction ms as [|m ms IH]; intros w w' H HP.
  - now inversion H; subst.
  - cbn [play] in H. destruct (act m w) as [w1|] eqn:E; [|discriminate].
    exact (IH w1 w' H (Hstep m w w1 E HP)).
Qed.

(** While the running flag is set, some scan thread is between setting it
    and being done with it. *)
Lemma flag_has_holder (ms : list move) (w : world) :
  play ms fresh = Some w -> is_scanning (scanner w) = true ->
  exists j t, nth_error (threads w) j = Some t /\ flag_holder (t_pc t) = true.
Proof.
  intros Hp.
  refine (play_invariant
            (fun w => is_scanning (scanner w) = true ->
                      exists j t, nth_error (threads w) j = Some t /\
                                  flag_holder (t_pc t) = true) _ ms fresh w Hp _);
    [|discriminate].
  clear. intros m w w' Hact P. destruct m as [r p| |j e|j i e]; cbn [act] in Hact.
  - inversion Hact; subst w'; clear Hact. unfold scan_network.
    destruct (is_scanning (scanner w)) eqn:F; cbn [negb]; [intros _; exact (P eq_refl)|].
    cbn [scanner]. congruence.
  - inversion Hact; subst w'. cbn. discriminate.
  - destruct (nth_error (threads w) j) as [tj|] eqn:Hj; [|discriminate].
    destruct (do_scan e (scanner w) tj) as [[s' t']|] eqn:D; [|discriminate].
    inversion Hact; subst w'; clear Hact. cbn [scanner threads]. intros F.
    assert (K : (flag_holder (t_pc t') = true) \/
                (is_scanning (scanner w) = true /\ flag_holder (t_pc tj) = false)).
    { unfold do_scan in D. destruct (t_pc tj) eqn:Hpc;
        repeat match type of D with
               | context [match ?x with _ => _ end] => destruct x eqn:?
               end;
        inversion D; subst s' t'; cbn in F |- *; try discriminate F; auto.
      all: try (left; destruct (t_progress tj); reflexivity).
      congruence. }
    destruct K as [K|[F0 K]].
    + exists j, t'. split; [apply (nth_error_set_nth _ _ _ _ Hj) | exact K].
    + destruct (P F0) as (j0 & t0 & Hj0 & H0).
      assert (j0 <> j) by (intros ->; congruence).
      exists j0, t0. split; [now rewrite nth_error_set_nth_other | exact H0].
  - destruct (nth_error (threads w) j) as [tj|] eqn:Hj; [|discriminate].
    destruct (run_task e (scanner w) tj i) as [[s' t']|] eqn:D; [|discriminate].
    inversion Hact; subst w'; clear Hact. cbn [scanner threads]. intros F.
    destruct (run_task_frame _ _ _ _ _ _ D) as (Hpc & Hf & _).
    rewrite Hf in F. destruct (P F) as (j0 & t0 & Hj0 & H0).
    destruct (Nat.eq_dec j0 j) as [->|Hne].
    + exists j, t'. split; [apply (nth_error_set_nth _ _ _ _ Hj)|].
      rewrite Hpc. congruence.
    + exists j0, t0. split; [now rewrite nth_error_set_nth_other | exact H0].
Qed.

(** ** What holds of each scan thread by itself *)

Lemma Forall_set_nth {A : Type} (P : A -> Prop) (l : list A) (j : nat) (x : A) :
  Forall P l -> P x -> Forall P (set_nth j x l).
Proof.
  intros H Hx. revert j. induction H as [|a l Ha Hl IH]; intros [|j]; cbn;
    constructor; auto.
Qed.

Lemma play_threads_invariant (L : scan_thread -> Prop) :
  (forall r p, L (new_thread r p)) ->
  (forall e s t s' t', do_scan e s t = Some (s', t') -> L t -> L t') ->
  (forall e s t i s' t', run_task e s t i = Some (s', t') -> L t -> L t') ->
  forall ms w, play ms fresh = Some w -> Forall L (threads w).
Proof.
  intros Hnew Hscan Htask ms w Hp.
  refine (play_invariant (fun w => Forall L (threads w)) _ ms fresh w Hp _);
    [|constructor].
  clear ms w Hp. intros m w w' Hact P. destruct m as [r p| |j e|j i e]; cbn [act] in Hact.
  - inversion Hact; subst w'; clear Hact. unfold scan_network.
    destruct (negb (is_scanning (scanner w))); [|exact P].
    cbn [threads]. apply Forall_app. split; [exact P|]. constructor; [apply Hnew|constructor].
  - inversion Hact; subst w'. exact P.
  - destruct (nth_error (threads w) j) as [tj|] eqn:Hj; [|discriminate].
    destruct (do_scan e (scanner w) tj) as [[s' t']|] eqn:D; [|discriminate].
    inversion Hact; subst w'; clear Hact. cbn [threads].
    apply Forall_set_nth; [exact P|]. apply (Hscan _ _ _ _ _ D).
    rewrite Forall_forall in P. apply P. eapply nth_error_In; eauto.
  - destruct (nth_error (threads w) j) as [tj|] eqn:Hj; [|discriminate].
    destruct (run_task e (scanner w) tj i) as [[s' t']|] eqn:D; [|discriminate].
    inversion Hact; subst w'; clear Hact. cbn [threads].
    apply Forall_set_nth; [exact P|]. apply (Htask _ _ _ _ _ _ D).
    rewrite Forall_forall in P. apply P. eapply nth_error_In; eauto.
Qed.

Lemma do_scan_step (e : env) (s s' : NetworkScanner) (t t' : scan_thread) :
  do_scan e s t = Some (s', t') ->
  step (step_thread e) {| self := s; thread := Some t |}
  = Some {| self := s'; thread := Some t' |}.
Proof. intros D. cbn [step thread self]. now rewrite D. Qed.

Lemma run_task_step (e : env) (s s' : NetworkScanner) (t t' : scan_thread) (i : nat) :
  run_task e s t i = Some (s', t') ->
  step (step_worker i e) {| self := s; thread := Some t |}
  = Some {| self := s'; thread := Some t' |}.
Proof. intros D. rewrite step_worker_run_task. cbn [thread self]. now rewrite D. Qed.

Lemma do_scan_thread_ok (e : env) (s s' : NetworkScanner) (t t' : scan_thread) :
  do_scan e s t = Some (s', t') -> thread_ok t -> thread_ok t'.
Proof.
  intros D (F & E & R & P). pose proof (do_scan_step _ _ _ _ _ D) as S.
  split; [|split; [|split]].
  - clear S E R P. unfold do_scan in D.
    destruct (t_pc t) eqn:Hpc; inv_some;
      cbn [t_pc t_queue with_pc with_queue with_futures];
      try destruct (t_progress t);
      cbn [t_pc t_queue with_pc with_queue with_futures];
      rewrite ?filter_final_progress; try lia.
    all: rewrite filter_final_snoc by reflexivity; rewrite length_app; cbn [length]; lia.
  - apply (error_inv_step _ _ _ S) in E. unfold error_inv in *. cbn [thread] in *.
    exact E.
  - clear S F E P. unfold do_scan in D.
    destruct (t_pc t) eqn:Hpc; inv_some;
      cbn [t_futures with_pc with_queue with_futures];
      try destruct (t_progress t);
      cbn [t_futures with_pc with_queue with_futures]; auto.
    all: first [ now apply not_raised_cancel
               | apply Forall_app; split; [exact R|];
                 constructor; [cbn; discriminate | constructor] ].
  - apply (ports_inv_step _ _ _ S) in P. unfold ports_inv in *. cbn [thread] in *.
    exact P.
Qed.

Lemma run_task_thread_ok (e : env) (s s' : NetworkScanner) (t t' : scan_thread)
    (i : nat) :
  run_task e s t i = Some (s', t') -> thread_ok t -> thread_ok t'.
Proof.
  intros D (F & E & R & P). pose proof (run_task_step _ _ _ _ _ _ D) as S.
  destruct (run_task_frame _ _ _ _ _ _ D) as (Hpc & _ & Hq).
  split; [|split; [|split]].
  - rewrite Hpc, Hq. exact F.
  - apply (error_inv_step _ _ _ S) in E. unfold error_inv in *. cbn [thread] in *.
    exact E.
  - clear S F E P Hpc Hq. unfold run_task in D.
    destruct (nth_error (t_futures t) i) as [k|] eqn:Hi; [|discriminate].
    destruct (w_pc k) eqn:Hk;
      try (destruct (scan_single_ip e (t_progress t) s (t_devices t) (t_queue t)
                       (w_ip k) _) as [[[[pc' s1] devs'] q']|] eqn:X; [|discriminate];
           inversion D; subst s' t'; cbn [t_futures];
           apply Forall_set_nth; [exact R|]; cbn [w_pc]; intros x;
           exact (scan_single_ip_no_raise _ _ _ _ _ _ _ _ _ _ _ x X)).
    destruct (_ <? _)%nat; [|discriminate]. inversion D; subst s' t'.
    cbn [t_futures with_futures]. apply Forall_set_nth; [exact R|]. cbn. discriminate.
  - apply (ports_inv_step _ _ _ S) in P. unfold ports_inv in *. cbn [thread] in *.
    exact P.
Qed.

(** Every scan thread of a world played from the fresh one is in order. *)
Lemma play_thread_ok (ms : list move) (w : world) (j : nat) (t : scan_thread) :
  play ms fresh = Some w -> nth_error (threads w) j = Some t -> thread_ok t.
Proof.
  intros Hp Hj.
  assert (A : Forall thread_ok (threads w)).
  { apply (play_threads_invariant thread_ok) with (ms := ms); [| | |exact Hp].
    - intros r p. unfold thread_ok, error_inv, ports_inv. cbn.
      repeat split; auto.
    - intros e s t0 s' t'. apply do_scan_thread_ok.
    - intros e s t0 i s' t'. apply run_task_thread_ok. }
  rewrite Forall_forall in A. apply A. eapply nth_error_In; eauto.
Qed.

(** ** Starting a scan: the running flag decides *)

Lemma play_app (m1 m2 : list move) (w : world) :
  play (m1 ++ m2) w = match play m1 w with Some w1 => play m2 w1 | None => None end.
Proof.
  revert w. induction m1 as [|m m1 IH]; intros w; [reflexivity|].
  cbn [app play]. destruct (act m w); [apply IH | reflexivity].
Qed.

(** C9, the part that fails: a second call right after the first finds the
    running flag still clear, for the new thread has not run its first
    statement; it starts a second scan thread beside the first. *)
Lemma second_start_before_flag_is_set :
  exists w1 w2,
    play [user_scan_network "10.0.0.1-2" true] fresh = Some w1 /\
    length (threads w1) = 1%nat /\ is_scanning (scanner w1) = false /\
    act (user_scan_network "10.0.0.0/24" false) w1 = Some w2 /\
    map t_ip_range (threads w2) = ["10.0.0.1-2"; "10.0.0.0/24"]%string /\
    map t_pc (threads w2) = [C_start; C_start].
Proof.
  eexists. eexists. repeat split; reflexivity.
Qed.

(** C9 (amended): [scan_network] called while the running flag is set
    changes nothing: scanner, threads, tasks and queued callbacks are the
    same, no thread is started, and the rest of any play goes on as if the
    call had not been made.  Called while the flag is clear it starts a new
    scan thread, whatever the threads of earlier scans are doing.  The flag
    is set only while some scan thread is between setting it and being done
    with it, so a call is ignored only while a scan thread is alive, and a
    call made when every scan thread has returned starts a scan. *)
Theorem scan_network_ignored_while_flag_set :
  (forall (ip_range : string) (pr : bool) (w : world),
      is_scanning (scanner w) = true ->
      scan_network ip_range pr w = w /\
      act (user_scan_network ip_range pr) w = Some w) /\
  (forall (ip_range : string) (pr : bool) (m1 m2 : list move) (w0 w1 : world),
      play m1 w0 = Some w1 -> is_scanning (scanner w1) = true ->
      play (m1 ++ user_scan_network ip_range pr :: m2) w0 = play (m1 ++ m2) w0) /\
  (forall (ip_range : string) (pr : bool) (w : world),
      is_scanning (scanner w) = false ->
      scan_network ip_range pr w
      = {| scanner := scanner w;
           threads := (threads w ++ [new_thread ip_range pr])%list |}) /\
  (forall (ms : list move) (w : world),
      play ms fresh = Some w -> is_scanning (scanner w) = true ->
      exists j t, nth_error (threads w) j = Some t /\
                  flag_holder (t_pc t) = true /\ t_pc t <> C_exit) /\
  (forall (ms : list move) (w : world) (ip_range : string) (pr : bool),
      play ms fresh = Some w -> returned_all w = true ->
      is_scanning (scanner w) = false /\
      scan_network ip_range pr w
      = {| scanner := scanner w;
           threads := (threads w ++ [new_thread ip_range pr])%list |}).
Proof.
  assert (A : forall ip_range pr w, is_scanning (scanner w) = true ->
                scan_network ip_range pr w = w).
  { intros ip_range pr w H. unfold scan_network. now rewrite H. }
  assert (B : forall ip_range pr w, is_scanning (scanner w) = false ->
                scan_network ip_range pr w
                = {| scanner := scanner w;
                     threads := (threads w ++ [new_thread ip_range pr])%list |}).
  { intros ip_range pr w H. unfold scan_network. now rewrite H. }
  split; [|split; [|split; [exact B|split]]].
  - intros ip_range pr w H. split; [now apply A|]. cbn [act]. now rewrite A.
  - intros ip_range pr m1 m2 w0 w1 H1 Hf.
    rewrite !play_app, H1. cbn [play act]. now rewrite A.
  - intros ms w Hp Hf. destruct (flag_has_holder ms w Hp Hf) as (j & t & Hj & Ht).
    exists j, t. split; [exact Hj|]. split; [exact Ht|].
    intros E. rewrite E in Ht. discriminate.
  - intros ms w ip_range pr Hp Hr.
    assert (F : is_scanning (scanner w) = false).
    { destruct (is_scanning (scanner w)) eqn:F; [|reflexivity].
      destruct (flag_has_holder ms w Hp F) as (j & t & Hj & Ht).
      unfold returned_all in Hr. rewrite forallb_forall in Hr.
      specialize (Hr t (nth_error_In _ _ Hj)). cbn [returned] in Hr.
      destruct (t_pc t); discriminate. }
    split; [exact F | now apply B].
Qed.

Lemma scan_network_ignored_while_flag_set_witness :
  exists w1,
    play [user_scan_network "10.0.0.1-2" true; thread_step 0 quiet_net] fresh = Some w1 /\
    is_scanning (scanner w1) = true /\
    act (user_scan_network "10.0.0.0/24" false) w1 = Some w1.
Proof.
  eexists. split; [reflexivity|]. split; [reflexivity|].
  apply (proj1 scan_network_ignored_while_flag_set). reflexivity.
Defined.

(** ** Progress, with orderly starts *)

(** C6, the part that fails: a scan of one host is started right after an
    earlier scan was stopped.  The task of the stopped scan finds the flag
    set again, runs on and counts itself into the shared counter; the new
    scan, which nobody stopped, completes with the progress values 0 and 2
    for a total of 1, and with a scanned-count of 2. *)
Lemma restart_overcounts_progress :
  exists w t,
    play restart_moves fresh = Some w /\ current w = Some t /\
    has_complete (t_queue t) /\
    progress_values (t_queue t) = [0; 2] /\
    total_hosts (scanner w) = 1 /\ hosts_scanned (scanner w) = 2.
Proof.
  eexists. eexists. split; [vm_compute; reflexivity|]. split; [reflexivity|].
  split; [eexists; cbn; right; right; left; reflexivity|].
  repeat split; reflexivity.
Qed.

(** C6 (amended): as long as every scan is of an IPv4 expression and starts
    when the threads of the earlier scans have returned, the scanned-counts
    of the progress callbacks queued by the latest scan are non-decreasing
    (they are 0, 1, 2, ...), the scanned-count is the number of its tasks
    that ran to their end, and once its completion callback is queued every
    task has run to its end, whatever the network answered: the
    scanned-count equals the total-count, which is the length of the parsed
    host list, and the last progress value is that total. *)
Theorem progress_monotone_and_complete (ms : list move) (w : world)
    (t : scan_thread) :
  play ms fresh = Some w -> orderly ms fresh = true -> current w = Some t ->
  StronglySorted Z.le (progress_values (t_queue t)) /\
  (exists k, progress_values (t_queue t) = range 0 k) /\
  match t_pc t with
  | C_start | C_clear | C_reset => True
  | _ => hosts_scanned (scanner w) = count_finished (t_futures t)
  end /\
  (has_complete (t_queue t) ->
   Forall (fun w => w_pc w = W_finished) (t_futures t) /\
   (exists hosts,
       parse_ip_range (t_ip_range t) = Returns hosts /\
       length (t_futures t) = length hosts /\
       total_hosts (scanner w) = Z.of_nat (length hosts)) /\
   hosts_scanned (scanner w) = total_hosts (scanner w) /\
   (t_progress t = true ->
    progress_values (t_queue t) = range 0 (total_hosts (scanner w) + 1) /\
    last (progress_values (t_queue t)) 0 = total_hosts (scanner w))).
Proof.
  intros Hp Ho Hc. destruct (orderly_play ms w Hp Ho) as (st & Hr & Hs & Ht).
  rewrite Hc in Ht. rewrite <- Hs.
  exact (progress_monotone_and_complete_alone _ st t Hr Ht).
Qed.

Lemma progress_monotone_and_complete_witness :
  exists w t,
    play sample_moves fresh = Some w /\ current w = Some t /\
    has_complete (t_queue t) /\
    progress_values (t_queue t) = [0; 1; 2] /\
    total_hosts (scanner w) = 2 /\
    last (progress_values (t_queue t)) 0 = total_hosts (scanner w).
Proof.
  destruct (play sample_moves fresh) as [w|] eqn:E; [|vm_compute in E; discriminate].
  destruct (current w) as [t|] eqn:Ht;
    [|vm_compute in E; inversion E; subst; discriminate].
  assert (Ho : orderly sample_moves fresh = true) by (vm_compute; reflexivity).
  destruct (progress_monotone_and_complete sample_moves w t E Ho Ht) as (_ & _ & _ & G).
  assert (F : has_complete (t_queue t) /\ t_progress t = true /\
              total_hosts (scanner w) = 2).
  { vm_compute in E. inversion E; subst. inversion Ht; subst.
    split; [eexists; cbn; right; right; right; left; reflexivity|].
    split; reflexivity. }
  destruct F as (HC & Hpr & Htot). destruct (G HC) as (_ & _ & _ & Hlast).
  destruct (Hlast Hpr) as [H1 H2].
  exists w, t. split; [reflexivity|]. split; [exact Ht|]. split; [exact HC|].
  split; [rewrite H1, Htot; reflexivity|]. split; [exact Htot | exact H2].
Defined.

(** ** Order of the device lists, with orderly starts *)

(** C5, the part that fails: after the stop and the restart of
    [restart_moves] the task of the stopped scan and the task of the new
    scan both append the host.  [get_partial_results] returns the two
    devices, which have one numeric IP: neither comes before the other
    "exactly when its numeric IP is smaller". *)
Lemma restart_records_host_twice :
  exists w,
    play restart_moves fresh = Some w /\
    get_partial_results (scanner w)
    = Returns [{| hostname := "box.lan"; ip := "10.0.0.1"; ports := "22, 3389, 53" |};
               {| hostname := "box.lan"; ip := "10.0.0.1"; ports := "22, 3389, 53" |}] /\
    ~ ip_ordered [{| hostname := "box.lan"; ip := "10.0.0.1"; ports := "22, 3389, 53" |};
                  {| hostname := "box.lan"; ip := "10.0.0.1"; ports := "22, 3389, 53" |}].
Proof.
  eexists. split; [vm_compute; reflexivity|]. split; [vm_compute; reflexivity|].
  intros H.
  assert (K : ip_key {| hostname := "box.lan"; ip := "10.0.0.1"; ports := "22, 3389, 53" |}
              = Returns 167772161) by (vm_compute; reflexivity).
  pose proof (proj1 (H 0%nat 1%nat _ _ 167772161 167772161 eq_refl eq_refl K K)
                ltac:(lia)). lia.
Qed.

(** C5 (amended): as long as every scan is of an IPv4 expression and starts
    when the threads of the earlier scans have returned, [get_partial_results]
    returns - during a scan, after a stop, after completion - the
    accumulator rearranged so that one device comes before another exactly
    when its numeric IP is smaller, every device in it having a numeric IP;
    and a list handed to the completion callback by the latest scan is that
    scan's device list, sorted in the same way. *)
Theorem device_lists_sorted (ms : list move) (w : world) :
  play ms fresh = Some w -> orderly ms fresh = true ->
  (exists ds, get_partial_results (scanner w) = Returns ds /\
              Permutation ds (partial_results (scanner w)) /\
              Forall (fun d => exists a, address a /\ numeric_ip d a) ds /\
              ip_ordered ds) /\
  (forall t ds, current w = Some t -> In (Complete ds) (t_queue t) ->
     sorted ip_key (t_devices t) = Returns ds /\ Permutation ds (t_devices t) /\
     Forall (fun d => exists a, address a /\ numeric_ip d a) ds /\ ip_ordered ds).
Proof.
  intros Hp Ho. destruct (orderly_play ms w Hp Ho) as (st & Hr & Hs & Ht).
  destruct (device_lists_sorted_alone _ st Hr) as [G1 G2]. rewrite Hs in G1.
  split; [exact G1|]. intros t ds Hc. apply G2. now rewrite Ht.
Qed.

Lemma device_lists_sorted_witness :
  exists w t ds,
    play out_of_order_moves fresh = Some w /\ current w = Some t /\
    map ip (partial_results (scanner w)) = ["10.0.0.2"; "10.0.0.1"]%string /\
    get_partial_results (scanner w) = Returns ds /\
    map ip ds = ["10.0.0.1"; "10.0.0.2"]%string /\
    ip_ordered ds /\ In (Complete ds) (t_queue t).
Proof.
  destruct (play out_of_order_moves fresh) as [w|] eqn:E; [|vm_compute in E; discriminate].
  assert (Ho : orderly out_of_order_moves fresh = true) by (vm_compute; reflexivity).
  destruct (device_lists_sorted _ _ E Ho) as ((ds & Hg & _ & _ & Hord) & _).
  vm_compute in E. inversion E; subst w; clear E.
  vm_compute in Hg. inversion Hg; subst ds; clear Hg.
  eexists. eexists. eexists. split; [reflexivity|]. split; [reflexivity|].
  split; [reflexivity|]. split; [vm_compute; reflexivity|].
  split; [reflexivity|]. split; [exact Hord|].
  cbn. left. reflexivity.
Defined.


(** ** Failure of a scan, among several threads *)






(** ** The probe of one host, in any scan *)

Lemma accepts_port_answers (e : env) (ip_str : string) (port : Z) :
  accepts e ip_str port = port_answers e ip_str port.
Proof.
  unfold accepts, port_answers, is_port_open.
  destruct (connect_ex e ip_str port); reflexivity.
Qed.

(** C8: the probe of one host raises nothing, whatever its address and
    whatever the network does.  [is_port_open] answers whether the
    connection attempt returned 0: a refused or timed-out attempt, which
    returns another code, is not open, and an attempt that raises is not
    open.  The fallback liveness check answers alive when port 80 connects
    or the ping succeeds, and leaves the host as it was, not alive, when
    the attempt or the ping raises.  The host name is the one reverse DNS
    returns, and the address text when it raises.  No step of
    [scan_single_ip] ends in an exception.  A step of a task, whatever it
    meets, leaves the program point of its scan thread, the running flag,
    the completion and error callbacks queued and all other threads as they
    were: it does not abort the scan.  Whatever scans have been started,
    stopped and interleaved, no task of any scan has ended in an exception
    and the ports text of every recorded device lists a subsequence of the
    fixed probe list.  Where each scan starts after the threads of the
    earlier ones have returned and on an expression that never reaches the
    IPv6 attempt, a scan whose expression parses queues no error callback
    unless the runtime itself raises at a step of the scan thread.  A task
    that runs undisturbed while the flag is set, on a
    host with at least one port whose connection attempt returns 0, records
    exactly those ports in the order of the probe list. *)
Theorem probe_never_raises (e : env) (ip_str : string) :
  (forall port, exists b, is_port_open e ip_str port = Returns b) /\
  (forall port c, connect_ex e ip_str port = Returns c ->
                  is_port_open e ip_str port = Returns (c =? 0)) /\
  (forall port x, connect_ex e ip_str port = Raises x ->
                  is_port_open e ip_str port = Returns false) /\
  (forall alive, exists b, fallback_alive e ip_str alive = Returns b) /\
  (forall alive, connect_ex e ip_str 80 = Returns 0 ->
                 fallback_alive e ip_str alive = Returns true) /\
  (forall alive c p, connect_ex e ip_str 80 = Returns c -> c <> 0 ->
                     ping e ip_str = Returns p ->
                     fallback_alive e ip_str alive = Returns (p || alive)) /\
  (forall alive x,
      connect_ex e ip_str 80 = Raises x \/
      (exists c, connect_ex e ip_str 80 = Returns c /\ c <> 0 /\ ping e ip_str = Raises x) ->
      fallback_alive e ip_str alive = Returns alive) /\
  (forall h, gethostbyaddr e ip_str = Returns h ->
             resolve_hostname e ip_str = Returns h) /\
  (forall x, gethostbyaddr e ip_str = Raises x ->
             resolve_hostname e ip_str = Returns ip_str) /\
  (forall pr s devs q pc pc' s' devs' q' x,
      scan_single_ip e pr s devs q ip_str pc = Some (pc', s', devs', q') ->
      pc' <> W_raised x) /\
  (forall (w w' : world) (j i : nat),
      act (task_step j i e) w = Some w' ->
      exists t t',
        nth_error (threads w) j = Some t /\ nth_error (threads w') j = Some t' /\
        t_pc t' = t_pc t /\
        is_scanning (scanner w') = is_scanning (scanner w) /\
        filter is_final (t_queue t') = filter is_final (t_queue t) /\
        forall k, k <> j -> nth_error (threads w') k = nth_error (threads w) k) /\
  (forall (ms : list move) (w : world) (j : nat) (t : scan_thread),
      play ms fresh = Some w -> nth_error (threads w) j = Some t ->
      Forall (fun k => forall x, w_pc k <> W_raised x) (t_futures t) /\
      Forall (fun d => exists open_ports,
                  subseq open_ports common_ports /\ ports d = ports_text open_ports)
             (t_devices t)) /\
  (forall (ms : list move) (w : world) (t : scan_thread),
      play ms fresh = Some w -> orderly ms fresh = true -> forallb calm ms = true ->
      current w = Some t ->
      (exists hosts, parse_ip_range (t_ip_range t) = Returns hosts) ->
      forall m, ~ In (Error m) (t_queue t)) /\
  (forall pr s devs q,
      is_scanning s = true ->
      filter (port_answers e ip_str) common_ports <> [] ->
      let d := {| hostname := match gethostbyaddr e ip_str with
                              | Returns h => h
                              | Raises _ => ip_str
                              end;
                  ip := ip_str;
                  ports := join ", " (map str_int
                                        (filter (port_answers e ip_str) common_ports)) |} in
      worker_steps 17 e pr s devs q ip_str W_entry
      = Some (W_count, set_partial_results (partial_results s ++ [d])%list s,
              (devs ++ [d])%list, q)).
Proof.
  split; [intros port; apply is_port_open_returns|].
  split; [intros port c H; unfold is_port_open; now rewrite H|].
  split; [intros port x; apply is_port_open_failure|].
  split; [intros alive; destruct (fallback_alive_returns e ip_str alive) as (b & Hb & _);
          now exists b|].
  split; [intros alive H; unfold fallback_alive; now rewrite H|].
  split.
  { intros alive c p H Hc Hp. unfold fallback_alive. rewrite H. cbn.
    apply Z.eqb_neq in Hc. rewrite Hc, Hp. cbn. now destruct p. }
  split.
  { intros alive x [H|(c & H & Hc & Hp)]; unfold fallback_alive; rewrite H; cbn;
      [reflexivity|]. apply Z.eqb_neq in Hc. now rewrite Hc, Hp. }
  split; [intros h H; unfold resolve_hostname; now rewrite H|].
  split; [intros x; apply resolve_hostname_failure|].
  split; [intros pr s devs q pc pc' s' devs' q' x; apply scan_single_ip_no_raise|].
  split.
  { intros w w' j i H. cbn [act] in H.
    destruct (nth_error (threads w) j) as [t|] eqn:Hj; [|discriminate].
    destruct (run_task e (scanner w) t i) as [[s' t']|] eqn:D; [|discriminate].
    inversion H; subst w'; clear H. cbn [threads scanner].
    destruct (run_task_frame _ _ _ _ _ _ D) as (Hpc & Hf & Hq).
    exists t, t'. split; [reflexivity|].
    split; [apply (nth_error_set_nth _ _ _ _ Hj)|].
    repeat (split; [assumption|]).
    intros k Hk. now apply nth_error_set_nth_other. }
  split.
  { intros ms w j t Hp Hj.
    destruct (play_thread_ok ms w j t Hp Hj) as (_ & _ & R & P).
    unfold ports_inv in P. cbn [thread] in P. destruct P as [_ P2]. now split. }
  split.
  { intros ms w t Hp Ho Hcalm Hc Hparse.
    destruct (orderly_play ms w Hp Ho) as (st & Hr & Hs & Ht). rewrite Hc in Ht.
    apply (fault_free_no_error _ st t Hr); [now rewrite calm_fault_free | exact Ht | exact Hparse]. }
  intros pr s devs q Hf Hne.
  rewrite <- (filter_ext _ _ (accepts_port_answers e ip_str)) in *.
  now apply probe_alive_host.
Qed.

Lemma probe_never_raises_witness :
  is_port_open quiet_net "10.0.0.1" 22 = Returns false /\
  is_port_open lan_net "10.0.0.1" 80 = Returns false /\
  worker_steps 17 lan_net false (set_is_scanning true init) [] [] "10.0.0.1" W_entry
  = Some (W_count,
          set_partial_results
            [{| hostname := "box.lan"; ip := "10.0.0.1"; ports := "22, 3389, 53" |}]
            (set_is_scanning true init),
          [{| hostname := "box.lan"; ip := "10.0.0.1"; ports := "22, 3389, 53" |}],
          []).
Proof.
  split.
  { destruct (probe_never_raises quiet_net "10.0.0.1") as (_ & H & _).
    apply (H 22 111). reflexivity. }
  destruct (probe_never_raises lan_net "10.0.0.1")
    as (_ & _ & H2 & _ & _ & _ & _ & _ & _ & _ & _ & _ & _ & H).
  split; [apply (H2 80 (Exn OSError "timed out")); reflexivity|].
  assert (Hopen : filter (port_answers lan_net "10.0.0.1") common_ports <> [])
    by (vm_compute; discriminate).
  pose proof (H false (set_is_scanning true init) [] [] eq_refl Hopen) as G.
  vm_compute in G. vm_compute. exact G.
Defined.

(** ** Stopping a scan: what stays *)



(** ** Tasks, devices and counters, with orderly starts *)

(** X7: where each scan starts after the threads of the earlier ones have
    returned and on an expression that never reaches the IPv6 attempt, the
    tasks of the latest scan follow its host list: the [i]-th task probes
    the text of the [i]-th host, which [IPv4Address] reads back as that
    host, there are no more tasks than hosts, and no two tasks probe the
    same address. *)
Theorem tasks_follow_hosts (ms : list move) (w : world) (t : scan_thread) :
  play ms fresh = Some w -> orderly ms fresh = true -> current w = Some t ->
  t_futures t <> [] ->
  exists hosts,
    parse_ip_range (t_ip_range t) = Returns hosts /\
    (length (t_futures t) <= length hosts)%nat /\
    NoDup (map w_ip (t_futures t)) /\
    forall i k, nth_error (t_futures t) i = Some k ->
                exists h, nth_error hosts i = Some h /\ w_ip k = str_address h /\
                          IPv4Address (w_ip k) = Returns h.
Proof.
  intros Hp Ho Hc Hne.
  destruct (orderly_play ms w Hp Ho) as (st & Hr & Hs & Ht). rewrite Hc in Ht.
  exact (tasks_follow_hosts_alone _ st t Hr Ht Hne).
Qed.

Lemma tasks_follow_hosts_witness :
  exists w t hosts,
    play sample_moves fresh = Some w /\ current w = Some t /\
    parse_ip_range (t_ip_range t) = Returns hosts /\
    map w_ip (t_futures t) = map str_address hosts /\
    NoDup (map w_ip (t_futures t)).
Proof.
  destruct (play sample_moves fresh) as [w|] eqn:E; [|vm_compute in E; discriminate].
  destruct (current w) as [t|] eqn:Ht;
    [|vm_compute in E; inversion E; subst; discriminate].
  assert (Hne : t_futures t <> []).
  { vm_compute in E. inversion E; subst. inversion Ht; subst. discriminate. }
  assert (Ho : orderly sample_moves fresh = true) by (vm_compute; reflexivity).
  destruct (tasks_follow_hosts _ _ _ E Ho Ht Hne) as (hosts & Hp & _ & Hn & _).
  exists w, t, hosts. split; [reflexivity|]. split; [exact Ht|].
  split; [exact Hp|]. split; [|exact Hn].
  vm_compute in E. inversion E; subst. inversion Ht; subst.
  vm_compute in Hp. inversion Hp; subst. reflexivity.
Defined.

(** X8: where each scan starts after the threads of the earlier ones have
    returned and on an expression that never reaches the IPv6 attempt, the
    devices of the latest scan have distinct addresses; each was recorded by
    a task of the scan that is past its append, for a host of the parsed
    list, and its sort key is that host; a task that is not past its append
    has no device. *)
Theorem devices_come_from_tasks (ms : list move) (w : world) (t : scan_thread) :
  play ms fresh = Some w -> orderly ms fresh = true -> current w = Some t ->
  NoDup (map ip (t_devices t)) /\
  (forall d, In d (t_devices t) ->
     exists k h hosts,
       In k (t_futures t) /\ w_ip k = ip d /\ counted (w_pc k) = true /\
       parse_ip_range (t_ip_range t) = Returns hosts /\ In h hosts /\
       ip d = str_address h /\ ip_key d = Returns h) /\
  (forall k, In k (t_futures t) -> counted (w_pc k) = false ->
             ~ In (w_ip k) (map ip (t_devices t))).
Proof.
  intros Hp Ho Hc.
  destruct (orderly_play ms w Hp Ho) as (st & Hr & Hs & Ht). rewrite Hc in Ht.
  exact (devices_come_from_tasks_alone _ st t Hr Ht).
Qed.

Lemma devices_come_from_tasks_witness :
  exists w t,
    play sample_moves fresh = Some w /\ current w = Some t /\
    map ip (t_devices t) = ["10.0.0.1"]%string /\ NoDup (map ip (t_devices t)).
Proof.
  destruct (play sample_moves fresh) as [w|] eqn:E; [|vm_compute in E; discriminate].
  destruct (current w) as [t|] eqn:Ht;
    [|vm_compute in E; inversion E; subst; discriminate].
  assert (Ho : orderly sample_moves fresh = true) by (vm_compute; reflexivity).
  destruct (devices_come_from_tasks _ _ _ E Ho Ht) as (Hn & _).
  exists w, t. split; [reflexivity|]. split; [exact Ht|]. split; [|exact Hn].
  vm_compute in E. inversion E; subst. inversion Ht; subst. reflexivity.
Defined.

(** X9: where each scan starts after the threads of the earlier ones have
    returned and on an expression that never reaches the IPv6 attempt,
    every progress callback of the latest scan carries a scanned-count
    between 0 and the total-count, and the total-count of the scanner; once
    the scan is past the pool set-up, the scanned-count of the scanner is
    between 0 and its total-count, and no more tasks are submitted than the
    total-count. *)
Theorem progress_within_total (ms : list move) (w : world) (t : scan_thread) :
  play ms fresh = Some w -> orderly ms fresh = true -> current w = Some t ->
  Forall (fun ev => match ev with
                    | Progress n tot => 0 <= n <= tot /\ tot = total_hosts (scanner w)
                    | _ => True
                    end) (t_queue t) /\
  (before_submit (t_pc t) = false ->
   0 <= hosts_scanned (scanner w) <= total_hosts (scanner w) /\
   Z.of_nat (length (t_futures t)) <= total_hosts (scanner w)).
Proof.
  intros Hp Ho Hc.
  destruct (orderly_play ms w Hp Ho) as (st & Hr & Hs & Ht). rewrite Hc in Ht.
  rewrite <- Hs. exact (progress_within_total_alone _ st t Hr Ht).
Qed.

Lemma progress_within_total_witness :
  exists w t,
    play sample_moves fresh = Some w /\ current w = Some t /\
    t_queue t = [Progress 0 2; Progress 1 2; Progress 2 2;
                 Complete [{| hostname := "box.lan"; ip := "10.0.0.1";
                              ports := "22, 3389, 53" |}]] /\
    Forall (fun ev => match ev with
                      | Progress n tot => 0 <= n <= tot /\ tot = total_hosts (scanner w)
                      | _ => True
                      end) (t_queue t).
Proof.
  destruct (play sample_moves fresh) as [w|] eqn:E; [|vm_compute in E; discriminate].
  destruct (current w) as [t|] eqn:Ht;
    [|vm_compute in E; inversion E; subst; discriminate].
  assert (Ho : orderly sample_moves fresh = true) by (vm_compute; reflexivity).
  destruct (progress_within_total _ _ _ E Ho Ht) as (Hq & _).
  exists w, t. split; [reflexivity|]. split; [exact Ht|]. split; [|exact Hq].
  vm_compute in E. inversion E; subst. inversion Ht; subst. reflexivity.
Defined.

(** X10: where each scan starts after the threads of the earlier ones have
    returned and on an expression that never reaches the IPv6 attempt, a
    scan that has queued its completion callback has returned with the flag
    clear, the accumulator holds the devices of the scan, and
    [get_partial_results] returns the very list the callback was given. *)
Theorem completion_is_partial_results (ms : list move) (w : world) (t : scan_thread)
    (ds : list device) :
  play ms fresh = Some w -> orderly ms fresh = true -> current w = Some t ->
  In (Complete ds) (t_queue t) ->
  t_pc t = C_exit /\ is_scanning (scanner w) = false /\
  partial_results (scanner w) = t_devices t /\
  get_partial_results (scanner w) = Returns ds.
Proof.
  intros Hp Ho Hc Hin.
  destruct (orderly_play ms w Hp Ho) as (st & Hr & Hs & Ht). rewrite Hc in Ht.
  rewrite <- Hs. exact (completion_is_partial_results_alone _ st t ds Hr Ht Hin).
Qed.

Lemma completion_is_partial_results_witness :
  exists w t ds,
    play out_of_order_moves fresh = Some w /\ current w = Some t /\
    In (Complete ds) (t_queue t) /\ map ip ds = ["10.0.0.1"; "10.0.0.2"]%string /\
    get_partial_results (scanner w) = Returns ds.
Proof.
  destruct (play out_of_order_moves fresh) as [w|] eqn:E; [|vm_compute in E; discriminate].
  destruct (current w) as [t|] eqn:Ht;
    [|vm_compute in E; inversion E; subst; discriminate].
  assert (Hin : exists ds, In (Complete ds) (t_queue t) /\
                           map ip ds = ["10.0.0.1"; "10.0.0.2"]%string).
  { vm_compute in E. inversion E; subst. inversion Ht; subst.
    eexists. split; [cbn; left; reflexivity | reflexivity]. }
  destruct Hin as (ds & Hin & Hip).
  assert (Ho : orderly out_of_order_moves fresh = true) by (vm_compute; reflexivity).
  destruct (completion_is_partial_results _ _ _ ds E Ho Ht Hin) as (_ & _ & _ & G).
  exists w, t, ds. repeat split; auto.
Defined.
